(** * liumOS: persistent-memory process checkpointing core

    A shallow embedding of the checkpointing core of liumOS
    (src/execution_context.h, src/scheduler.h), of the kernel ring buffer
    (src/ring_buffer.h) and of the UDP packet builder of the virtio-net
    driver (src/virtio_net.h), with the properties the design document
    states about them.

    Conventions.  A C++ integer of width w is a [Z]; where the source can
    wrap, the wrap-around is written out with [u16], [u32], [u64], [i32].
    Physical memory is a pair of byte maps: what the CPU reads (the cache
    view) and what survives a power loss (the persistent image).  A store
    changes the view only; [CLFlush] copies one cache line of the view to
    the persistent image. *)

From stdpp Require Import base functions list gmap.
From Stdlib Require Import ZArith Lia.

Local Open Scope Z_scope.

(** ** Machine integers *)

Definition u16 (x : Z) : Z := x mod 2 ^ 16.
Definition u32 (x : Z) : Z := x mod 2 ^ 32.
Definition u64 (x : Z) : Z := x mod 2 ^ 64.
(** Conversion of an unsigned 32-bit value to [int]. *)
Definition i32 (x : Z) : Z := (x + 2 ^ 31) mod 2 ^ 32 - 2 ^ 31.

(** ** Data model (src/execution_context.h) *)

(** class SegmentMapping: three 64-bit words. *)
Record SegmentMapping := mkSegmentMapping {
  vaddr_ : Z;
  paddr_ : Z;
  map_size_ : Z
}.

Definition GetPhysAddr (s : SegmentMapping) : Z := paddr_ s.
Definition GetVirtAddr (s : SegmentMapping) : Z := vaddr_ s.
Definition GetMapSize (s : SegmentMapping) : Z := map_size_ s.
Definition GetVirtEndAddr (s : SegmentMapping) : Z := u64 (vaddr_ s + map_size_ s).

(** struct ProcessMappingInfo: the four segments of an address space. *)
Record ProcessMappingInfo := mkProcessMappingInfo {
  code : SegmentMapping;
  data : SegmentMapping;
  stack : SegmentMapping;
  heap : SegmentMapping
}.

(** Modelled from the spec: struct InterruptContext is declared in asm.h,
    which is not part of the sources at hand; it is the interrupt frame (rip,
    cs, rflags, rsp, ss) that SetRegisters fills. *)
Record InterruptContext := mkInterruptContext {
  rip : Z;
  cs : Z;
  rflags : Z;
  rsp : Z;
  ss : Z
}.

(** Modelled from the spec: struct CPUContext is declared in asm.h, which is
    not part of the sources at hand.  The design document describes it as
    the general-purpose registers, the interrupt frame, the control register
    cr3 and the FPU/SSE state; execution_context.h reads and writes [cr3],
    [int_ctx] and [fpu_context]. *)
Record CPUContext := mkCPUContext {
  cr3 : Z;
  greg : list Z;
  int_ctx : InterruptContext;
  fpu_context : list Z
}.

(** class ExecutionContext. *)
Record ExecutionContext := mkExecutionContext {
  cpu_context_ : CPUContext;
  map_info_ : ProcessMappingInfo;
  kernel_rsp_ : Z;
  heap_used_size_ : Z
}.

Definition GetRSP (c : ExecutionContext) : Z := rsp (int_ctx (cpu_context_ c)).
Definition GetKernelRSP (c : ExecutionContext) : Z := kernel_rsp_ c.
Definition GetHeapEndVirtAddr (c : ExecutionContext) : Z :=
  u64 (heap_used_size_ c + GetVirtAddr (heap (map_info_ c))).

Definition set_cr3 (v : Z) (c : CPUContext) : CPUContext :=
  mkCPUContext v (greg c) (int_ctx c) (fpu_context c).

Definition set_int_ctx (f : InterruptContext) (c : CPUContext) : CPUContext :=
  mkCPUContext (cr3 c) (greg c) f (fpu_context c).

Definition set_cpu_context (k : CPUContext) (c : ExecutionContext) : ExecutionContext :=
  mkExecutionContext k (map_info_ c) (kernel_rsp_ c) (heap_used_size_ c).

Definition set_heap_used_size (h : Z) (c : ExecutionContext) : ExecutionContext :=
  mkExecutionContext (cpu_context_ c) (map_info_ c) (kernel_rsp_ c) h.

(** ExecutionContext::SetRegisters.  The assignments are made in the order
    of the source; the general-purpose registers and the FPU state are not
    touched (the FPU initialisation is commented out in the source). *)
Definition SetRegisters (rip_ cs_ rsp_ ss_ cr3_ rflags_ kernel_rsp : Z)
    (c : ExecutionContext) : ExecutionContext :=
  let f0 := int_ctx (cpu_context_ c) in
  let f1 := mkInterruptContext rip_ (cs f0) (rflags f0) (rsp f0) (ss f0) in
  let f2 := mkInterruptContext (rip f1) cs_ (rflags f1) (rsp f1) (ss f1) in
  let f3 := mkInterruptContext (rip f2) (cs f2) (rflags f2) rsp_ (ss f2) in
  let f4 := mkInterruptContext (rip f3) (cs f3) (rflags f3) (rsp f3) ss_ in
  let f5 := mkInterruptContext (rip f4) (cs f4) (Z.lor rflags_ 2) (rsp f4) (ss f4) in
  let k := set_cr3 cr3_ (set_int_ctx f5 (cpu_context_ c)) in
  mkExecutionContext k (map_info_ c) kernel_rsp 0.

(** ** Heap watermark *)

Inductive HeapError := HEAP_OVERFLOW | HEAP_UNDERFLOW.

(** Modelled from the spec: ExecutionContext::ExpandHeap is declared in
    execution_context.h and defined in a file that is not part of the sources
    at hand.  The design document gives it as a signed adjustment of
    heap_used_size, checked against the invariant
    0 <= heap_used_size <= heap.map_size, failing with HEAP_OVERFLOW or
    HEAP_UNDERFLOW; a failing call is a value and leaves the context as it
    was. *)
Definition ExpandHeap (diff : Z) (c : ExecutionContext)
    : HeapError + ExecutionContext :=
  let size := heap_used_size_ c + diff in
  if size <? 0 then inl HEAP_UNDERFLOW
  else if GetMapSize (heap (map_info_ c)) <? size then inl HEAP_OVERFLOW
  else inr (set_heap_used_size size c).

(** A sequence of brk calls made by a process: every call is applied to the
    context the previous one left; a failing call reports its error and
    leaves the context unchanged. *)
Fixpoint ExpandHeapSeq (diffs : list Z) (c : ExecutionContext)
    : ExecutionContext * list (option HeapError) :=
  match diffs with
  | [] => (c, [])
  | d :: ds =>
      match ExpandHeap d c with
      | inl e => let '(c', r) := ExpandHeapSeq ds c in (c', Some e :: r)
      | inr c1 => let '(c', r) := ExpandHeapSeq ds c1 in (c', None :: r)
      end
  end.

Definition sumZ (l : list Z) : Z := foldr Z.add 0 l.

(** No partial sum of the deltas, starting from [h], leaves [0, limit]. *)
Fixpoint partial_sums_ok (limit h : Z) (diffs : list Z) : bool :=
  match diffs with
  | [] => true
  | d :: ds => (0 <=? h + d) && (h + d <=? limit) && partial_sums_ok limit (h + d) ds
  end.

(** ** Page tables *)

Definition kPageSize : Z := 4096.


(** Modelled from the spec: IA_PML4 belongs to paging.h, which is not part of
    the sources at hand.  A page table is seen through the translation it
    defines: a finite map from virtual page numbers to the physical page base
    and the attribute bits of the entry. *)
Record PageEntry := mkPageEntry {
  page_base : Z;
  page_attr : Z
}.

(** The number of 4 KiB pages that cover [byte_size] bytes. *)
Definition ByteSizeToPageSize (byte_size : Z) : Z :=
  (byte_size + kPageSize - 1) / kPageSize.

(** [n] consecutive entries, from virtual page [vpn] and physical address
    [paddr] upwards. *)
Fixpoint map_pages (n : nat) (vpn paddr attr : Z) (pt : gmap Z PageEntry)
    : gmap Z PageEntry :=
  match n with
  | O => pt
  | S n' => map_pages n' (vpn + 1) (paddr + kPageSize) attr
              (<[vpn := mkPageEntry paddr attr]> pt)
  end.

(** Modelled from the spec: CreatePageMapping belongs to paging.h.  It
    installs the entries that cover [vaddr, vaddr + byte_size) and sends them
    to [paddr, paddr + byte_size) with the attribute bits given, one entry
    per 4 KiB page.  The allocator of the source only supplies the pages that
    hold the tables and the flush flag only decides their durability;
    neither changes the translation. *)
Definition CreatePageMapping (page_root : gmap Z PageEntry)
    (vaddr paddr byte_size attr : Z) (should_clflush : bool) : gmap Z PageEntry :=
  map_pages (Z.to_nat (ByteSizeToPageSize byte_size)) (vaddr / kPageSize) paddr attr
    page_root.



(** ** Persistent memory and its cache *)

(** Modelled from the spec: the size of a cache line is not given in the
    sources at hand; lines are the 64-byte lines of x86-64. *)
Definition kCacheLineSize : Z := 64.

Record Memory := mkMemory {
  view : Z -> Z;        (* the bytes as the CPU reads them *)
  persisted : Z -> Z    (* the bytes that survive a power loss *)
}.

Definition line_of (a : Z) : Z := a / kCacheLineSize.

Definition store_byte (a v : Z) (m : Memory) : Memory :=
  mkMemory (<[a := v]> (view m)) (persisted m).

(** Modelled from the spec: the cache-line flush primitive CLFlush comes from
    asm.h, which is not part of the sources at hand.  The design document
    requires of it that clflush(addr) makes the cache line containing addr
    durable and that it is the only durability primitive: nothing else moves
    a byte from the view to the persisted image. *)
Definition CLFlush (a : Z) (m : Memory) : Memory :=
  mkMemory (view m)
    (fun x => if line_of x =? line_of a then view m x else persisted m x).

(** The state the checkpoint engine works on: the execution contexts that
    live in persistent memory (object [0] and object [1] are ctx_[0] and
    ctx_[1] of the PersistentProcessInfo), the validity index and the
    signature of the PersistentProcessInfo, each as the CPU reads it and as
    persisted, the physical memory behind the segments, and the two
    statistics counters the callers pass by reference.

    The members of PersistentProcessInfo are declared in the order ctx_[0],
    ctx_[1], valid_ctx_idx_, signature_.  How many bytes of the end of
    ctx_[1] share the cache line of valid_ctx_idx_ depends on
    sizeof(ExecutionContext), which the sources at hand do not determine
    (CPUContext belongs to asm.h); [ctx_tail_words] is that number, in
    64-bit words.  It is a constant of the layout: no step changes it. *)
Record Machine := mkMachine {
  ctx_ : nat -> ExecutionContext;
  ctx_pmem : nat -> ExecutionContext;
  valid_ctx_idx_ : Z;
  valid_ctx_idx_pmem : Z;
  signature_ : Z;
  signature_pmem : Z;
  ram : Memory;
  stat_copied_bytes : Z;
  stat_num_of_clflush : Z;
  ctx_tail_words : nat
}.

(** The primitive steps of the engine.  A power loss can fall between any
    two of them. *)
Inductive Op :=
  | OpCopyByte (dst src : Z)            (* one byte of a memcpy *)
  | OpCLFlush (a : Z) (counted : bool)  (* clflush of the line holding a *)
  | OpAddCopiedBytes (n : Z)            (* stat_copied_bytes += n *)
  | OpAssignCPUContext (dst from : nat) (* cpu_context_ = from.cpu_context_ *)
  | OpStoreCR3 (dst : nat) (v : Z)      (* cpu_context_.cr3 = v *)
  | OpFlushContext (i : nat)            (* the context record made durable *)
  | OpStoreValidIdx (idx : Z)           (* valid_ctx_idx_ = idx *)
  | OpFlushValidIdx                     (* CLFlush(&valid_ctx_idx_) *)
  | OpStoreSignature (v : Z)            (* signature_ = v *)
  | OpFlushSignature.                   (* CLFlush(&signature_) *)

Definition with_ram (r : Memory) (m : Machine) : Machine :=
  mkMachine (ctx_ m) (ctx_pmem m) (valid_ctx_idx_ m) (valid_ctx_idx_pmem m)
    (signature_ m) (signature_pmem m) r (stat_copied_bytes m)
    (stat_num_of_clflush m) (ctx_tail_words m).

Definition with_ctx (f : nat -> ExecutionContext) (m : Machine) : Machine :=
  mkMachine f (ctx_pmem m) (valid_ctx_idx_ m) (valid_ctx_idx_pmem m)
    (signature_ m) (signature_pmem m) (ram m) (stat_copied_bytes m)
    (stat_num_of_clflush m) (ctx_tail_words m).

(** An ExecutionContext object of which the last [n] 64-bit words are those
    of [v] and the rest is that of [p].  The object ends with the stack and
    heap segments of map_info_ (vaddr_, paddr_, map_size_ each), kernel_rsp_
    and heap_used_size_.  A cache line has eight words and one of them holds
    valid_ctx_idx_, so no more than seven words of the object share it. *)
Definition persist_tail (n : nat) (v p : ExecutionContext) : ExecutionContext :=
  let pick (k : nat) (a b : Z) : Z := if (k <=? n)%nat then a else b in
  let sv := stack (map_info_ v) in
  let sp := stack (map_info_ p) in
  let hv := heap (map_info_ v) in
  let hp := heap (map_info_ p) in
  mkExecutionContext (cpu_context_ p)
    (mkProcessMappingInfo (code (map_info_ p)) (data (map_info_ p))
       (mkSegmentMapping (vaddr_ sp) (pick 7%nat (paddr_ sv) (paddr_ sp))
          (pick 6%nat (map_size_ sv) (map_size_ sp)))
       (mkSegmentMapping (pick 5%nat (vaddr_ hv) (vaddr_ hp))
          (pick 4%nat (paddr_ hv) (paddr_ hp))
          (pick 3%nat (map_size_ hv) (map_size_ hp))))
    (pick 2%nat (kernel_rsp_ v) (kernel_rsp_ p))
    (pick 1%nat (heap_used_size_ v) (heap_used_size_ p)).

(** The flush of the cache line of valid_ctx_idx_.  A PersistentProcessInfo
    record is page-aligned (section 6 of the design document) and
    sizeof(ExecutionContext) is a multiple of 8, its members being 64-bit
    words, so valid_ctx_idx_ starts at a multiple of 16 and its four bytes
    and the eight bytes of signature_, which follows it, lie on one line:
    CLFlush(&valid_ctx_idx_) and CLFlush(&signature_) write back the same
    line, with both members and the end of ctx_[1] that shares it. *)
Definition flush_header_line (m : Machine) : Machine :=
  mkMachine (ctx_ m)
    (<[1%nat := persist_tail (ctx_tail_words m) (ctx_ m 1%nat) (ctx_pmem m 1%nat)]>
       (ctx_pmem m))
    (valid_ctx_idx_ m) (valid_ctx_idx_ m)
    (signature_ m) (signature_ m) (ram m) (stat_copied_bytes m)
    (stat_num_of_clflush m) (ctx_tail_words m).

Definition exec (op : Op) (m : Machine) : Machine :=
  match op with
  | OpCopyByte dst src => with_ram (store_byte dst (view (ram m) src) (ram m)) m
  | OpCLFlush a counted =>
      mkMachine (ctx_ m) (ctx_pmem m) (valid_ctx_idx_ m) (valid_ctx_idx_pmem m)
        (signature_ m) (signature_pmem m) (CLFlush a (ram m)) (stat_copied_bytes m)
        (if counted then u64 (stat_num_of_clflush m + 1) else stat_num_of_clflush m)
        (ctx_tail_words m)
  | OpAddCopiedBytes n =>
      mkMachine (ctx_ m) (ctx_pmem m) (valid_ctx_idx_ m) (valid_ctx_idx_pmem m)
        (signature_ m) (signature_pmem m) (ram m) (u64 (stat_copied_bytes m + n))
        (stat_num_of_clflush m) (ctx_tail_words m)
  | OpAssignCPUContext dst from =>
      with_ctx (<[dst := set_cpu_context (cpu_context_ (ctx_ m from)) (ctx_ m dst)]>
                  (ctx_ m)) m
  | OpStoreCR3 dst v =>
      with_ctx (<[dst := set_cpu_context (set_cr3 v (cpu_context_ (ctx_ m dst)))
                           (ctx_ m dst)]> (ctx_ m)) m
  | OpFlushContext i =>
      mkMachine (ctx_ m) (<[i := ctx_ m i]> (ctx_pmem m)) (valid_ctx_idx_ m)
        (valid_ctx_idx_pmem m) (signature_ m) (signature_pmem m) (ram m)
        (stat_copied_bytes m) (stat_num_of_clflush m) (ctx_tail_words m)
  | OpStoreValidIdx idx =>
      mkMachine (ctx_ m) (ctx_pmem m) idx (valid_ctx_idx_pmem m)
        (signature_ m) (signature_pmem m) (ram m) (stat_copied_bytes m)
        (stat_num_of_clflush m) (ctx_tail_words m)
  | OpFlushValidIdx => flush_header_line m
  | OpStoreSignature v =>
      mkMachine (ctx_ m) (ctx_pmem m) (valid_ctx_idx_ m) (valid_ctx_idx_pmem m)
        v (signature_pmem m) (ram m) (stat_copied_bytes m)
        (stat_num_of_clflush m) (ctx_tail_words m)
  | OpFlushSignature => flush_header_line m
  end.

(** Running a sequence of steps, first to last. *)
Definition run (ops : list Op) (m : Machine) : Machine :=
  foldl (fun s op => exec op s) m ops.

(** A routine is the sequence of steps it performs from a given state. *)
Definition Routine : Type := Machine -> list Op.

(** [p ;;; q]: the steps of [p], then those of [q] from the state [p] leaves. *)
Definition then_ (p q : Routine) : Routine :=
  fun m => p m ++ q (run (p m) m).

Notation "p ;;; q" := (then_ p q) (at level 100, q at level 200, right associativity).

Definition step (op : Op) : Routine := fun _ => [op].

(** The power fails: the CPU's view is lost and restarts from what was
    persisted; the counters of the interrupted caller are gone. *)
Definition PowerLoss (m : Machine) : Machine :=
  mkMachine (ctx_pmem m) (ctx_pmem m) (valid_ctx_idx_pmem m) (valid_ctx_idx_pmem m)
    (signature_pmem m) (signature_pmem m)
    (mkMemory (persisted (ram m)) (persisted (ram m))) 0 0 (ctx_tail_words m).

(** The power fails after the first [k] steps of a routine. *)
Definition crash_after (k : nat) (p : Routine) (m : Machine) : Machine :=
  PowerLoss (run (take k (p m)) m).

(** ** Flushing and copying segments *)

(** The cache lines a segment's physical range [paddr, paddr + map_size)
    lies on. *)
Definition seg_first_line (s : SegmentMapping) : Z := line_of (paddr_ s).
Definition seg_last_line (s : SegmentMapping) : Z :=
  line_of (paddr_ s + map_size_ s - 1).
Definition seg_num_lines (s : SegmentMapping) : Z :=
  if map_size_ s <=? 0 then 0 else seg_last_line s - seg_first_line s + 1.

Definition in_segment (x : Z) (s : SegmentMapping) : Prop :=
  paddr_ s <= x < paddr_ s + map_size_ s.

(** One counted clflush per line, [nl] lines from the line of [a] upwards. *)
Definition flush_lines (a : Z) (nl : nat) : list Op :=
  map (fun i => OpCLFlush (a + kCacheLineSize * Z.of_nat i) true) (seq 0 nl).

(** Modelled from the spec: SegmentMapping::Flush is declared in
    execution_context.h and defined elsewhere.  The design document has it
    force every cache line of the segment's physical range back to persistent
    memory and count the flushes.  (The page-table argument of the source
    plays no part in which lines the physical range has.) *)
Definition SegmentMapping_Flush (s : SegmentMapping) : Routine :=
  fun _ => flush_lines (paddr_ s) (Z.to_nat (seg_num_lines s)).

(** ProcessMappingInfo::Flush, as in the source: code, data, heap. *)
Definition ProcessMappingInfo_Flush (mi : ProcessMappingInfo) : Routine :=
  SegmentMapping_Flush (code mi) ;;;
  SegmentMapping_Flush (data mi) ;;;
  SegmentMapping_Flush (heap mi).

(** Modelled from the spec: ExecutionContext::Flush is declared in
    execution_context.h and defined elsewhere.  It flushes the segments of
    the context through its mapping info and leaves the stores made to the
    context durable ("flush(working context): all stores durable"). *)
Definition ExecutionContext_Flush (this : nat) : Routine :=
  fun m =>
    (ProcessMappingInfo_Flush (map_info_ (ctx_ m this)) ;;;
     step (OpFlushContext this)) m.

(** A copy of [n] bytes, lowest address first, each byte flushed (not
    counted) once written. *)
Definition memcpy_flushed (dst src : Z) (n : nat) : list Op :=
  flat_map (fun i => [OpCopyByte (dst + Z.of_nat i) (src + Z.of_nat i);
                      OpCLFlush (dst + Z.of_nat i) false])
           (seq 0 n).

(** Modelled from the spec: SegmentMapping::CopyDataFrom is declared in
    execution_context.h and defined elsewhere.  It copies from.map_size bytes
    from from.paddr to this.paddr, flushes each destination cache line as it
    is written, and adds the number of bytes to the counter.  Its
    precondition, this.map_size >= from.map_size, is a hypothesis of the
    theorems that need it. *)
Definition CopyDataFrom (this from : SegmentMapping) : Routine :=
  fun _ =>
    memcpy_flushed (paddr_ this) (paddr_ from) (Z.to_nat (map_size_ from))
    ++ [OpAddCopiedBytes (map_size_ from)].

(** ExecutionContext::CopyContextFrom.  [this] and [from] name the two
    context objects; the source takes [from] by reference. *)
Definition CopyContextFrom (this from : nat) : Routine :=
  fun m =>
    let cr3 := cr3 (cpu_context_ (ctx_ m this)) in
    (step (OpAssignCPUContext this from) ;;;
     step (OpStoreCR3 this cr3) ;;;
     (fun m1 => CopyDataFrom (data (map_info_ (ctx_ m1 this)))
                             (data (map_info_ (ctx_ m1 from))) m1) ;;;
     (fun m2 => CopyDataFrom (stack (map_info_ (ctx_ m2 this)))
                             (stack (map_info_ (ctx_ m2 from))) m2)) m.

(** ** PersistentProcessInfo *)

Definition kSignature : Z := 0x4F50534F6D75696C.
Definition kNumOfExecutionContext : Z := 2.

Definition IsValid (m : Machine) : bool := signature_ m =? kSignature.

Definition Init : Routine :=
  step (OpStoreValidIdx kNumOfExecutionContext) ;;;
  step OpFlushValidIdx ;;;
  step (OpStoreSignature kSignature) ;;;
  step OpFlushSignature.

Definition valid_index_ok (idx : Z) : bool :=
  (0 <=? idx) && (idx <? kNumOfExecutionContext).

(** GetContext, GetValidContext and GetWorkingContext name the object they
    return; their assertion is the [valid_index_ok] guard. *)
Definition GetContext (idx : Z) : option nat :=
  if valid_index_ok idx then Some (Z.to_nat idx) else None.

Definition GetValidContext (m : Machine) : option nat :=
  if valid_index_ok (valid_ctx_idx_ m) then Some (Z.to_nat (valid_ctx_idx_ m))
  else None.

Definition GetWorkingContext (m : Machine) : option nat :=
  if valid_index_ok (valid_ctx_idx_ m) then Some (Z.to_nat (1 - valid_ctx_idx_ m))
  else None.

Definition SetValidContextIndex (idx : Z) : Routine :=
  step (OpStoreValidIdx idx) ;;; step OpFlushValidIdx.

Inductive PersistError := UNINITIALIZED.

(** Modelled from the spec: PersistentProcessInfo::SwitchContext is declared
    in execution_context.h and defined elsewhere.  With v = valid_ctx_idx and
    w = 1 - v it flushes ctx[w], stores w into valid_ctx_idx and flushes that
    line (the commit), and then copies ctx[w] into ctx[v]. *)
Definition SwitchContext_steps : Routine :=
  fun m =>
    let v := valid_ctx_idx_ m in
    let w := 1 - v in
    (ExecutionContext_Flush (Z.to_nat w) ;;;
     SetValidContextIndex w ;;;
     CopyContextFrom (Z.to_nat v) (Z.to_nat w)) m.

(** Modelled from the spec: the precondition of SwitchContext is that
    valid_ctx_idx is 0 or 1; otherwise it fails with UNINITIALIZED. *)
Definition SwitchContext (m : Machine) : PersistError + Machine :=
  if valid_index_ok (valid_ctx_idx_ m) then inr (run (SwitchContext_steps m) m)
  else inl UNINITIALIZED.

(** The number of steps of a checkpoint up to and including the flush of
    valid_ctx_idx: the commit point. *)
Definition commit_point (m : Machine) : nat :=
  (length (ExecutionContext_Flush (Z.to_nat (1 - valid_ctx_idx_ m)) m) + 2)%nat.

(** What a context is worth after a restart: its record and the bytes of its
    four segments. *)
Definition seg_bytes (mem : Z -> Z) (s : SegmentMapping) : list Z :=
  map (fun i => mem (paddr_ s + Z.of_nat i)) (seq 0 (Z.to_nat (map_size_ s))).

Record Snapshot := mkSnapshot {
  snap_ctx : ExecutionContext;
  snap_code : list Z;
  snap_data : list Z;
  snap_stack : list Z;
  snap_heap : list Z
}.

Definition snapshot (c : ExecutionContext) (mem : Z -> Z) : Snapshot :=
  mkSnapshot c
    (seg_bytes mem (code (map_info_ c))) (seg_bytes mem (data (map_info_ c)))
    (seg_bytes mem (stack (map_info_ c))) (seg_bytes mem (heap (map_info_ c))).

(** Modelled from the spec: the cold-start recovery belongs to the boot code.
    A record is accepted when its signature matches and valid_ctx_idx is 0
    or 1; then ctx[valid_ctx_idx] is the snapshot to resume. *)
Definition Recover (m : Machine) : option (Z * Snapshot) :=
  if IsValid m && valid_index_ok (valid_ctx_idx_ m)
  then Some (valid_ctx_idx_ m,
             snapshot (ctx_ m (Z.to_nat (valid_ctx_idx_ m))) (view (ram m)))
  else None.

(** Two segments share no cache line. *)
Definition lines_apart (s t : SegmentMapping) : bool :=
  (map_size_ s <=? 0) || (map_size_ t <=? 0)
  || (seg_last_line s <? seg_first_line t)
  || (seg_last_line t <? seg_first_line s).

(** Two segments share no byte. *)
Definition seg_disjoint (s t : SegmentMapping) : bool :=
  (map_size_ s <=? 0) || (map_size_ t <=? 0)
  || (paddr_ s + map_size_ s <=? paddr_ t)
  || (paddr_ t + map_size_ t <=? paddr_ s).

Definition segments (mi : ProcessMappingInfo) : list SegmentMapping :=
  [code mi; data mi; stack mi; heap mi].

(** The two slots own distinct cache lines (the double-buffer invariant). *)
Definition mappings_apart (a b : ProcessMappingInfo) : bool :=
  forallb (fun s => forallb (lines_apart s) (segments b)) (segments a).

(** The precondition of this.CopyContextFrom(from): the data and stack
    segments of [this] are large enough, source and destination do not
    overlap, and the destination's segments are pairwise disjoint. *)
Definition copy_pre (this from : ProcessMappingInfo) : bool :=
  (map_size_ (data from) <=? map_size_ (data this))
  && (map_size_ (stack from) <=? map_size_ (stack this))
  && seg_disjoint (data this) (data from)
  && seg_disjoint (data this) (stack from)
  && seg_disjoint (stack this) (stack from)
  && seg_disjoint (data this) (stack this)
  && seg_disjoint (code this) (data this)
  && seg_disjoint (code this) (stack this)
  && seg_disjoint (heap this) (data this)
  && seg_disjoint (heap this) (stack this).

(** ** Scheduler (src/scheduler.h) *)

(** Modelled from the spec: class Process belongs to process.h, which is not
    part of the sources at hand.  A process carries a unique id and a
    status. *)
Inductive Status := kNotInitialized | kReady | kRunning | kSleeping | kKilled.

Record Process := mkProcess {
  id_ : Z;
  status_ : Status
}.

Definition SetStatus (st : Status) (p : Process) : Process :=
  mkProcess (id_ p) st.

Definition runnable (p : Process) : bool :=
  match status_ p with
  | kRunning | kReady => true
  | _ => false
  end.

(** class Scheduler.  The array process_ holds pointers; a process is named
    by its position in the array, and [process_] keeps the objects pointed
    to, in insertion order.  number_of_process_ is the length of the list and
    current_ the position of the current process. *)
Record Scheduler := mkScheduler {
  process_ : list Process;
  current_ : nat
}.

Definition kNumberOfProcess : nat := 256.

Inductive SchedError := SCHED_FULL.

Definition GetNumOfProcess (s : Scheduler) : nat := length (process_ s).

(** Modelled from the spec: Scheduler::RegisterProcess is declared in
    scheduler.h and defined elsewhere.  It appends the process if capacity
    remains and sets its status to Ready; otherwise it fails with
    SCHED_FULL. *)
Definition RegisterProcess (proc : Process) (s : Scheduler)
    : SchedError + Scheduler :=
  if (GetNumOfProcess s <? kNumberOfProcess)%nat
  then inr (mkScheduler (process_ s ++ [SetStatus kReady proc]) (current_ s))
  else inl SCHED_FULL.

(** The constructor Scheduler(root_process): no process, current_ the root;
    the root is registered and then set Running. *)
Definition Scheduler_new (root_process : Process) : Scheduler :=
  match RegisterProcess root_process (mkScheduler [] 0) with
  | inr s => mkScheduler (alter (SetStatus kRunning) 0%nat (process_ s)) (current_ s)
  | inl _ => mkScheduler [] 0
  end.

(** The search of SwitchProcess: positions base + i, base + i + 1, ... taken
    modulo the number of processes, [count] of them; the first one that
    holds a Running or Ready process is selected. *)
Fixpoint scan (procs : list Process) (base i count : nat) : option nat :=
  match count with
  | O => None
  | S count' =>
      let idx := ((base + i) mod length procs)%nat in
      match procs !! idx with
      | Some p => if runnable p then Some idx else scan procs base (S i) count'
      | None => scan procs base (S i) count'
      end
  end.

(** Modelled from the spec: Scheduler::SwitchProcess is declared in
    scheduler.h and defined elsewhere.  It selects the next process in
    round-robin order, starting after the current one, whose status is
    Running or Ready, and makes it current; the search makes one lap, so it
    comes back to the current process when no other can run.  The design
    document gives no status change.  The result names the selected process
    by its position; there is none when no process is Running or Ready. *)
Definition SwitchProcess (s : Scheduler) : option nat * Scheduler :=
  match scan (process_ s) (current_ s) 1 (GetNumOfProcess s) with
  | Some idx => (Some idx, mkScheduler (process_ s) idx)
  | None => (None, s)
  end.

(** Whether position [i] of the array holds a Running or Ready process. *)
Definition runnable_at (procs : list Process) (i : nat) : bool :=
  match procs !! i with
  | Some p => runnable p
  | None => false
  end.

(** The positions the search visits from [base]: base + 1, base + 2, ...,
    base + count, modulo the number of processes. *)
Definition walk (len base count : nat) : list nat :=
  map (fun j => ((base + j) mod len)%nat) (seq 1 count).

(** [count] consecutive calls of SwitchProcess and what each selected. *)
Fixpoint switches (count : nat) (s : Scheduler) : list (option nat) :=
  match count with
  | O => []
  | S count' => let '(r, s') := SwitchProcess s in r :: switches count' s'
  end.

(** The processes a list of selections stands for. *)
Definition selected (s : Scheduler) (l : list (option nat)) : list (option Process) :=
  map (fun r => match r with Some i => process_ s !! i | None => None end) l.

(** How often position [i] occurs in a list of selections. *)
Definition times_selected (i : nat) (l : list (option nat)) : nat :=
  length (filter (fun r => r = Some i) l).

(** The number of Running or Ready processes. *)
Definition num_runnable (s : Scheduler) : nat :=
  length (filter (fun p => runnable p = true) (process_ s)).

(** ** UDP packet builder (src/virtio_net.h) *)

Module VirtioNet.

Record IPv4UDPPacket := mkIPv4UDPPacket {
  (* Ethernet *)
  dst : list Z;
  src : list Z;
  eth_type : list Z;
  (* IPv4 *)
  version_and_ihl : Z;
  dscp_and_ecn : Z;
  total_length : list Z;
  ident : Z;
  flags : Z;
  ttl : Z;
  protocol : Z;
  checksum : Z;
  src_ip : list Z;
  dst_ip : list Z;
  (* UDP *)
  src_port : list Z;
  dst_port : list Z;
  udp_length : list Z;
  udp_checksum : list Z;
  udp_data : Z
}.

Definition set_checksum (v : Z) (p : IPv4UDPPacket) : IPv4UDPPacket :=
  mkIPv4UDPPacket (dst p) (src p) (eth_type p) (version_and_ihl p) (dscp_and_ecn p)
    (total_length p) (ident p) (flags p) (ttl p) (protocol p) v (src_ip p)
    (dst_ip p) (src_port p) (dst_port p) (udp_length p) (udp_checksum p)
    (udp_data p).

(** The 16-bit word p points to: the two bytes at version_and_ihl, read on a
    little-endian machine.  The pointer is never advanced. *)
Definition first_word (p : IPv4UDPPacket) : Z :=
  version_and_ihl p mod 256 + 256 * (dscp_and_ecn p mod 256).

(** The summand of the loop: the word p points to with its two bytes
    exchanged, [w >> 8 | ((w << 8) & 0xff00)]. *)
Definition swap_bytes (w : Z) : Z := Z.lor (w ≫ 8) (Z.land (w ≪ 8) 0xff00).

(** One pass of the loop body, as the log records it: the value of i and
    whether the branch [if (i == 5) continue] was taken. *)
Record Iteration := mkIteration {
  iter_i : Z;
  iter_skipped : bool
}.

(** for (int i = 0; i < 5; i++) { if (i == 5) continue; sum += ...; }
    from the state (i, sum); the result is the final sum and the log of the
    passes made.  [fuel] bounds the number of tests of the loop condition. *)
Fixpoint checksum_for (fuel : nat) (w : Z) (i sum : Z) : option (Z * list Iteration) :=
  match fuel with
  | O => None
  | S fuel' =>
      if i <? 5 then
        if i =? 5 then
          (* Skip checksum itself *)
          match checksum_for fuel' w (i + 1) sum with
          | Some (s, log) => Some (s, mkIteration i true :: log)
          | None => None
          end
        else
          let sum' := u32 (sum + swap_bytes w) in
          match checksum_for fuel' w (i + 1) sum' with
          | Some (s, log) => Some (s, mkIteration i false :: log)
          | None => None
          end
      else Some (sum, [])
  end.

(** while (checksum >> 16) { sum = (sum & 0xffff) + (sum >> 16); }
    The condition reads the 16-bit field checksum, which the body does not
    change. *)
Fixpoint checksum_while (fuel : nat) (checksum_field sum : Z) : option Z :=
  match fuel with
  | O => None
  | S fuel' =>
      if (u16 checksum_field ≫ 16) =? 0 then Some sum
      else checksum_while fuel' checksum_field
             (u32 (Z.land sum 0xffff + (sum ≫ 16)))
  end.

Definition CalcAndSetChecksum (fuel : nat) (p : IPv4UDPPacket)
    : option IPv4UDPPacket :=
  match checksum_for fuel (first_word p) 0 0 with
  | Some (sum, _) =>
      match checksum_while fuel (checksum p) sum with
      | Some sum' => Some (set_checksum (u16 sum') p)
      | None => None
      end
  | None => None
  end.

End VirtioNet.

(** ** Ring buffer (src/ring_buffer.h) *)

Section RingBufferDef.
Context {T : Type}.
(** The value-initialised T that [return {}] yields, and the template
    parameter n. *)
Variable T_default : T.
Variable n : Z.

Record RingBuffer := mkRingBuffer {
  elements_ : list T;
  readp_ : Z;
  writep_ : Z
}.

(** The constructor leaves elements_ as it finds it. *)
Definition RingBuffer_new (elements : list T) : RingBuffer :=
  mkRingBuffer elements 0 0.

(** (p + 1) % n with p an int and n an unsigned int: the sum is converted
    to unsigned, and the remainder back to int. *)
Definition advance (p : Z) : Z := i32 (u32 (p + 1) mod n).

(** elements_[p] *)
Definition element_at (elements : list T) (p : Z) : T :=
  default T_default (elements !! Z.to_nat p).

Definition IsEmpty (rb : RingBuffer) : bool := readp_ rb =? writep_ rb.

Definition Pop (rb : RingBuffer) : T * RingBuffer :=
  if IsEmpty rb then (T_default, rb)
  else
    let v := element_at (elements_ rb) (readp_ rb) in
    (v, mkRingBuffer (elements_ rb) (advance (readp_ rb)) (writep_ rb)).

Definition Push (value : T) (rb : RingBuffer) : RingBuffer :=
  let nextp := advance (writep_ rb) in
  if nextp =? readp_ rb then rb
  else mkRingBuffer (<[Z.to_nat (writep_ rb) := value]> (elements_ rb))
         (readp_ rb) nextp.

(** The calls a client makes. *)
Inductive Call := CallPush (value : T) | CallPop.

Definition call (rb : RingBuffer) (c : Call) : RingBuffer :=
  match c with
  | CallPush v => Push v rb
  | CallPop => snd (Pop rb)
  end.

(** The elements the buffer holds, oldest first: those at the positions
    readp_, readp_ + 1, ... up to writep_, taken modulo n. *)
Definition held (rb : RingBuffer) : list T :=
  map (fun k => element_at (elements_ rb) ((readp_ rb + Z.of_nat k) mod n))
      (seq 0 (Z.to_nat ((writep_ rb - readp_ rb) mod n))).

(** A queue that takes at most n - 1 elements and drops what is pushed
    when it has that many. *)
Definition queue_call (q : list T) (c : Call) : list T :=
  match c with
  | CallPush v => if Z.of_nat (length q) <? n - 1 then q ++ [v] else q
  | CallPop => tail q
  end.

(** The pointers of a buffer the operations can produce. *)
Definition pointers_ok (rb : RingBuffer) : Prop :=
  0 <= readp_ rb < n /\ 0 <= writep_ rb < n /\ Z.of_nat (length (elements_ rb)) = n.
End RingBufferDef.

Arguments RingBuffer : clear implicits.

(** ** What a power loss leaves *)

(** The image of context [i] a restart would find: its persisted record and
    the persisted bytes of its segments. *)
Definition durable_image (m : Machine) (i : nat) : Snapshot :=
  snapshot (ctx_pmem m i) (persisted (ram m)).

(** A step that cannot change the durable image of context [i], whose
    segments are those of [mi], nor the persisted validity index and
    signature: it persists nothing, or only cache lines that hold no byte of
    these segments, or another context's record. *)
Definition op_spares (mi : ProcessMappingInfo) (i : nat) (op : Op) : Prop :=
  match op with
  | OpCLFlush a _ =>
      forall s x, In s (segments mi) -> in_segment x s -> line_of x <> line_of a
  | OpFlushContext j => j <> i
  | OpFlushValidIdx | OpFlushSignature => False
  | _ => True
  end.

(** A step that only touches the memory behind the segments or a counter. *)
Definition ram_op (op : Op) : Prop :=
  match op with
  | OpCopyByte _ _ | OpCLFlush _ _ | OpAddCopiedBytes _ => True
  | _ => False
  end.

(** The state after the two stores of CopyContextFrom to cpu_context_. *)
Definition after_cpu_copy (this from : nat) (m : Machine) : Machine :=
  exec (OpStoreCR3 this (cr3 (cpu_context_ (ctx_ m this))))
    (exec (OpAssignCPUContext this from) m).

(** The non-persisted and persisted records of two states agree. *)
Definition same_records (m m' : Machine) : Prop :=
  ctx_ m' = ctx_ m /\ ctx_pmem m' = ctx_pmem m
  /\ valid_ctx_idx_ m' = valid_ctx_idx_ m
  /\ valid_ctx_idx_pmem m' = valid_ctx_idx_pmem m
  /\ signature_ m' = signature_ m /\ signature_pmem m' = signature_pmem m.

(** The hypotheses under which a checkpoint is taken: the record is
    initialised and its signature and validity index are durable, the
    mapping of the valid slot is durable, the two slots own distinct cache
    lines, and the valid slot can take the copy of the working slot. *)
Definition checkpoint_pre (m : Machine) : Prop :=
  signature_ m = kSignature
  /\ signature_pmem m = kSignature
  /\ valid_ctx_idx_pmem m = valid_ctx_idx_ m
  /\ valid_index_ok (valid_ctx_idx_ m) = true
  /\ map_info_ (ctx_pmem m (Z.to_nat (valid_ctx_idx_ m)))
     = map_info_ (ctx_ m (Z.to_nat (valid_ctx_idx_ m)))
  /\ mappings_apart (map_info_ (ctx_ m 0%nat)) (map_info_ (ctx_ m 1%nat)) = true
  /\ map_size_ (data (map_info_ (ctx_ m (Z.to_nat (1 - valid_ctx_idx_ m)))))
     <= map_size_ (data (map_info_ (ctx_ m (Z.to_nat (valid_ctx_idx_ m)))))
  /\ map_size_ (stack (map_info_ (ctx_ m (Z.to_nat (1 - valid_ctx_idx_ m)))))
     <= map_size_ (stack (map_info_ (ctx_ m (Z.to_nat (valid_ctx_idx_ m))))).

(** ** Ring buffer: runs of calls *)

Section RingBufferRuns.
Context {T : Type}.
Variable T_default : T.
Variable n : Z.

(** Push of each value of a list, first to last. *)
Definition pushes (values : list T) (rb : RingBuffer T) : RingBuffer T :=
  foldl (fun b v => Push n v b) rb values.

(** [count] calls of Pop and the values they return, first to last. *)
Fixpoint pops (count : nat) (rb : RingBuffer T) : list T * RingBuffer T :=
  match count with
  | O => ([], rb)
  | S count' =>
      let '(v, rb1) := Pop T_default n rb in
      let '(vs, rb2) := pops count' rb1 in
      (v :: vs, rb2)
  end.
End RingBufferRuns.

(** ** Objects in memory *)

(** An unsigned integer of [nbytes] bytes at address [a], least significant
    byte first, as x86-64 stores it. *)
Fixpoint load_le (nbytes : nat) (a : Z) (mem : Z -> Z) : Z :=
  match nbytes with
  | O => 0
  | S k => mem a mod 256 + 256 * load_le k (a + 1) mem
  end.

Fixpoint store_le (nbytes : nat) (a v : Z) (mem : Z -> Z) : Z -> Z :=
  match nbytes with
  | O => mem
  | S k => store_le k (a + 1) (v / 256) (<[a := v mod 256]> mem)
  end.

(** A store of [nbytes] bytes by the CPU: it reaches the view only. *)
Definition store_int (nbytes : nat) (a v : Z) (m : Memory) : Memory :=
  mkMemory (store_le nbytes a v (view m)) (persisted m).

(** The power fails on a memory: the view restarts from what was persisted. *)
Definition Memory_PowerLoss (m : Memory) : Memory :=
  mkMemory (persisted m) (persisted m).

(** *** class SegmentMapping as it lies in persistent memory

    The three 64-bit members follow one another in the order of their
    declaration: vaddr_ at offset 0, paddr_ at offset 8, map_size_ at offset
    16.  [this] is the address of the object. *)
Module SegmentObject.

Definition GetVirtAddr (this : Z) (mem : Z -> Z) : Z := load_le 8 this mem.
Definition GetPhysAddr (this : Z) (mem : Z -> Z) : Z := load_le 8 (this + 8) mem.
Definition GetMapSize (this : Z) (mem : Z -> Z) : Z := load_le 8 (this + 16) mem.

(** The record an object reads as. *)
Definition read (this : Z) (mem : Z -> Z) : SegmentMapping :=
  mkSegmentMapping (GetVirtAddr this mem) (GetPhysAddr this mem) (GetMapSize this mem).

(** SegmentMapping::Set: three stores, then CLFlush(this). *)
Definition Set_ (this vaddr paddr map_size : Z) (m : Memory) : Memory :=
  let m1 := store_int 8 this vaddr m in
  let m2 := store_int 8 (this + 8) paddr m1 in
  let m3 := store_int 8 (this + 16) map_size m2 in
  CLFlush this m3.

(** SegmentMapping::SetPhysAddr.  The parameter paddr is an object of its own,
    at the address [arg] in the frame of the call; the store to paddr_ is
    followed by CLFlush(&paddr), the flush of the line of the parameter. *)
Definition SetPhysAddr (this paddr arg : Z) (m : Memory) : Memory :=
  let m0 := store_int 8 arg paddr m in
  let m1 := store_int 8 (this + 8) paddr m0 in
  CLFlush arg m1.

(** SegmentMapping::Clear: paddr_, vaddr_, map_size_ in this order, then
    CLFlush(this). *)
Definition Clear (this : Z) (m : Memory) : Memory :=
  let m1 := store_int 8 (this + 8) 0 m in
  let m2 := store_int 8 this 0 m1 in
  let m3 := store_int 8 (this + 16) 0 m2 in
  CLFlush this m3.

(** struct ProcessMappingInfo: code, data, stack, heap follow one another,
    24 bytes each. *)
Definition code_of (this : Z) : Z := this.
Definition data_of (this : Z) : Z := this + 24.
Definition stack_of (this : Z) : Z := this + 48.
Definition heap_of (this : Z) : Z := this + 72.

Definition read_info (this : Z) (mem : Z -> Z) : ProcessMappingInfo :=
  mkProcessMappingInfo (read (code_of this) mem) (read (data_of this) mem)
    (read (stack_of this) mem) (read (heap_of this) mem).

(** ProcessMappingInfo::Clear. *)
Definition ClearInfo (this : Z) (m : Memory) : Memory :=
  Clear (heap_of this) (Clear (stack_of this) (Clear (data_of this)
    (Clear (code_of this) m))).

End SegmentObject.

(** ** Virtqueue (src/virtio_net.h) *)

Module Virtqueue.

Section Layout.
(** v2p and CeilToPageAlignment are declared in headers that are not part
    of the sources at hand; the accessors are taken over any two such
    functions. *)
Variable v2p : Z -> Z.
Variable CeilToPageAlignment : Z -> Z.

Definition kMaxQueueSize : Z := 0x100.

(** sizeof(Descriptor): the packed struct of addr (8 bytes), len (4),
    flags (2) and next (2); sizeof(UsedRingEntry): id (4) and len (4). *)
Definition sizeof_Descriptor : Z := 16.
Definition sizeof_UsedRingEntry : Z := 8.
Definition sizeof_uint16 : Z := 2.

(** queue_size_, base_ and the array buf_ of kMaxQueueSize pointers. *)
Record Virtqueue := mkVirtqueue {
  queue_size_ : Z;
  base_ : Z;
  buf_ : list Z
}.

(** assert(0 <= idx && idx < queue_size_) *)
Definition idx_ok (vq : Virtqueue) (idx : Z) : bool :=
  (0 <=? idx) && (idx <? queue_size_ vq).

Definition descriptor_at (vq : Virtqueue) (idx : Z) : Z :=
  base_ vq + sizeof_Descriptor * idx.

(** SetDescriptor.  The result is [None] when the assertion fails, and also
    when idx is not an index of buf_, where the store is undefined. *)
Definition SetDescriptor (idx vaddr len flags next : Z)
    (vq : Virtqueue) (mem : Z -> Z) : option (Virtqueue * (Z -> Z)) :=
  if idx_ok vq idx && (idx <? Z.of_nat (length (buf_ vq))) then
    let buf := <[Z.to_nat idx := vaddr]> (buf_ vq) in
    let desc := descriptor_at vq idx in
    let mem1 := store_le 8 desc (v2p vaddr) mem in
    let mem2 := store_le 4 (desc + 8) len mem1 in
    let mem3 := store_le 2 (desc + 12) flags mem2 in
    let mem4 := store_le 2 (desc + 14) next mem3 in
    Some (mkVirtqueue (queue_size_ vq) (base_ vq) buf, mem4)
  else None.

Definition GetDescriptorBuf (idx : Z) (vq : Virtqueue) : option Z :=
  if idx_ok vq idx then buf_ vq !! Z.to_nat idx else None.

Definition GetDescriptorSize (idx : Z) (vq : Virtqueue) (mem : Z -> Z) : option Z :=
  if idx_ok vq idx then Some (load_le 4 (descriptor_at vq idx + 8) mem) else None.

Definition available_ring (vq : Virtqueue) : Z :=
  base_ vq + sizeof_Descriptor * queue_size_ vq + sizeof_uint16 * 2.

Definition SetAvailableRingEntry (idx desc_idx : Z) (vq : Virtqueue) (mem : Z -> Z)
    : option (Z -> Z) :=
  if idx_ok vq idx
  then Some (store_le 2 (available_ring vq + sizeof_uint16 * idx) desc_idx mem)
  else None.

Definition SetAvailableRingIndex (idx : Z) (vq : Virtqueue) (mem : Z -> Z) : Z -> Z :=
  store_le 2 (base_ vq + sizeof_Descriptor * queue_size_ vq + sizeof_uint16) idx mem.

Definition used_ring_offset (vq : Virtqueue) : Z :=
  CeilToPageAlignment (sizeof_Descriptor * queue_size_ vq
                       + sizeof_uint16 * (2 * queue_size_ vq)).

Definition GetUsedRingIndex (vq : Virtqueue) (mem : Z -> Z) : Z :=
  load_le 2 (base_ vq + used_ring_offset vq + sizeof_uint16) mem.

(** GetUsedRingEntry returns a reference; the entry is read here as its
    two members, id and len. *)
Definition GetUsedRingEntry (idx : Z) (vq : Virtqueue) (mem : Z -> Z)
    : option (Z * Z) :=
  if idx_ok vq idx then
    let entry := base_ vq + used_ring_offset vq + 2 * sizeof_uint16
                 + sizeof_UsedRingEntry * idx in
    Some (load_le 4 entry mem, load_le 4 (entry + 4) mem)
  else None.
End Layout.

End Virtqueue.

(** ** Packets (src/virtio_net.h) *)

(** array[i] of a byte array that is passed by reference. *)
Definition byte_at (array : list Z) (i : nat) : Z := default 0 (array !! i).

Module ARP.

Record ARPPacket := mkARPPacket {
  dst : list Z;
  src : list Z;
  eth_type : list Z;
  hw_type : list Z;
  proto_type : list Z;
  hw_addr_len : Z;
  proto_addr_len : Z;
  op : list Z;
  sender_eth_addr : list Z;
  sender_proto_addr : list Z;
  target_eth_addr : list Z;
  target_proto_addr : list Z
}.

(** The sizes the struct declares for its arrays. *)
Definition shaped (p : ARPPacket) : Prop :=
  length (dst p) = 6%nat /\ length (src p) = 6%nat /\ length (eth_type p) = 2%nat
  /\ length (hw_type p) = 2%nat /\ length (proto_type p) = 2%nat
  /\ length (op p) = 2%nat /\ length (sender_eth_addr p) = 6%nat
  /\ length (sender_proto_addr p) = 4%nat /\ length (target_eth_addr p) = 6%nat
  /\ length (target_proto_addr p) = 4%nat.

(** The body of the first loop: the four arrays it stores to. *)
Definition mac_loop_body (src_mac : list Z) (arrays : list Z * list Z * list Z * list Z)
    (i : nat) : list Z * list Z * list Z * list Z :=
  let '(dst, src, sender_eth_addr, target_eth_addr) := arrays in
  (<[i := 0xff]> dst, <[i := byte_at src_mac i]> src,
   <[i := byte_at src_mac i]> sender_eth_addr, <[i := 0x00]> target_eth_addr).

(** The body of the second loop. *)
Definition ip_loop_body (target_ip src_ip : list Z) (arrays : list Z * list Z)
    (i : nat) : list Z * list Z :=
  let '(sender_proto_addr, target_proto_addr) := arrays in
  (<[i := byte_at src_ip i]> sender_proto_addr,
   <[i := byte_at target_ip i]> target_proto_addr).

Definition SetupRequest (target_ip src_ip src_mac : list Z) (p : ARPPacket) : ARPPacket :=
  let '(dst, src, sender_eth_addr, target_eth_addr) :=
    foldl (mac_loop_body src_mac)
      (dst p, src p, sender_eth_addr p, target_eth_addr p) (seq 0 6) in
  let '(sender_proto_addr, target_proto_addr) :=
    foldl (ip_loop_body target_ip src_ip)
      (sender_proto_addr p, target_proto_addr p) (seq 0 4) in
  mkARPPacket dst src
    (<[1%nat := 0x06]> (<[0%nat := 0x08]> (eth_type p)))
    (<[1%nat := 0x01]> (<[0%nat := 0x00]> (hw_type p)))
    (<[1%nat := 0x00]> (<[0%nat := 0x08]> (proto_type p)))
    6 4
    (<[1%nat := 0x01]> (<[0%nat := 0x00]> (op p)))
    sender_eth_addr sender_proto_addr target_eth_addr target_proto_addr.

End ARP.

Module IPv4UDP.
Import VirtioNet.

(** The sizes the struct declares for its arrays. *)
Definition shaped (p : IPv4UDPPacket) : Prop :=
  length (dst p) = 6%nat /\ length (src p) = 6%nat /\ length (eth_type p) = 2%nat
  /\ length (total_length p) = 2%nat /\ length (src_ip p) = 4%nat
  /\ length (dst_ip p) = 4%nat /\ length (src_port p) = 2%nat
  /\ length (dst_port p) = 2%nat /\ length (udp_length p) = 2%nat
  /\ length (udp_checksum p) = 2%nat.

Definition mac_loop_body (src_mac next_mac : list Z) (arrays : list Z * list Z)
    (i : nat) : list Z * list Z :=
  let '(dst, src) := arrays in
  (<[i := byte_at next_mac i]> dst, <[i := byte_at src_mac i]> src).

Definition ip_loop_body (dst_ip src_ip : list Z) (arrays : list Z * list Z)
    (i : nat) : list Z * list Z :=
  let '(this_src_ip, this_dst_ip) := arrays in
  (<[i := byte_at src_ip i]> this_src_ip, <[i := byte_at dst_ip i]> this_dst_ip).

(** SetupRequest: the Ethernet and IPv4 members are stored, then
    CalcAndSetChecksum runs on the packet as it is at that point, then the
    UDP members are stored. *)
Definition SetupRequest (fuel : nat) (dst_ip_arg src_ip_arg src_mac next_mac : list Z)
    (p : IPv4UDPPacket) : option IPv4UDPPacket :=
  let '(dst', src') :=
    foldl (mac_loop_body src_mac next_mac) (dst p, src p) (seq 0 6) in
  let '(src_ip', dst_ip') :=
    foldl (ip_loop_body dst_ip_arg src_ip_arg) (src_ip p, dst_ip p) (seq 0 4) in
  let ip_part :=
    mkIPv4UDPPacket dst' src'
      (<[1%nat := 0x00]> (<[0%nat := 0x08]> (eth_type p)))
      0x45 0x00
      (<[1%nat := 20]> (<[0%nat := 0x00]> (total_length p)))
      0x4242 0x0040 32 17 (checksum p) src_ip' dst_ip'
      (src_port p) (dst_port p) (udp_length p) (udp_checksum p) (udp_data p) in
  match CalcAndSetChecksum fuel ip_part with
  | Some q =>
      Some (mkIPv4UDPPacket (dst q) (src q) (eth_type q) (version_and_ihl q)
              (dscp_and_ecn q) (total_length q) (ident q) (flags q) (ttl q)
              (protocol q) (checksum q) (src_ip q) (dst_ip q)
              (<[1%nat := 0]> (<[0%nat := 0]> (src_port q)))
              (<[1%nat := 80]> (<[0%nat := 0]> (dst_port q)))
              (<[1%nat := 4]> (<[0%nat := 0]> (udp_length q)))
              (<[1%nat := 0]> (<[0%nat := 0]> (udp_checksum q)))
              0x55AA55AA)
  | None => None
  end.

End IPv4UDP.

(** ** CellularAutomaton (src/subtask.cc) *)

Module CellularAutomaton.

Definition map_ysize_shift : Z := 4.
Definition map_xsize_shift : Z := 5.
Definition pixel_size : Z := 8.

Definition ysize_mask : Z := (1 ≪ map_ysize_shift) - 1.
Definition xsize_mask : Z := (1 ≪ map_xsize_shift) - 1.
Definition ysize : Z := 1 ≪ map_ysize_shift.
Definition xsize : Z := 1 ≪ map_xsize_shift.
Definition canvas_ysize : Z := ysize * pixel_size.
Definition canvas_xsize : Z := xsize * pixel_size.

(** map[i], for the static array char map[ysize * xsize]. *)
Definition cell (map : list Z) (i : Z) : Z := default 0 (map !! Z.to_nat i).

(** The two loops over p and q, and the correction for the cell itself. *)
Definition count_at (map : list Z) (y x : Z) : Z :=
  foldl (fun count p =>
           foldl (fun count q =>
                    count + Z.land (cell map (Z.land (y + p) ysize_mask * xsize
                                              + Z.land (x + q) xsize_mask)) 1)
                 count (seqZ (-1) 3))
        0 (seqZ (-1) 3)
  - Z.land (cell map (y * xsize + x)) 1.

(** The body of the first pair of loops. *)
Definition mark (map : list Z) (y x : Z) : list Z :=
  let count := count_at map y x in
  let here := cell map (y * xsize + x) in
  if (negb (here =? 0) && ((count =? 2) || (count =? 3)))
     || ((here =? 0) && (count =? 3))
  then <[Z.to_nat (y * xsize + x) := Z.lor here 2]> map
  else map.

Definition mark_all (map : list Z) : list Z :=
  foldl (fun map y => foldl (fun map x => mark map y x) map (seqZ 0 xsize))
        map (seqZ 0 ysize).

(** A call of DrawRectWithoutFlush. *)
Record DrawRect := mkDrawRect {
  rect_x : Z;
  rect_y : Z;
  rect_xsize : Z;
  rect_ysize : Z;
  rect_col : Z
}.

Definition colour (p : Z) : Z :=
  if Z.land p 1 =? 0 then 0x000000
  else 0xff0088 * Z.land p 2 + 0x00cc00 * Z.land p 1.

(** The body of the second pair of loops, on the map and the rectangles
    drawn so far; screen_xsize is what GetXSize returns. *)
Definition draw (screen_xsize : Z) (state : list Z * list DrawRect) (y x : Z)
    : list Z * list DrawRect :=
  let '(map, drawn) := state in
  let p := cell map (y * xsize + x) in
  let col := colour p in
  (<[Z.to_nat (y * xsize + x) := cell map (y * xsize + x) ≫ 1]> map,
   drawn ++ [mkDrawRect (screen_xsize - canvas_xsize + x * pixel_size)
               (y * pixel_size) pixel_size pixel_size col]).

Definition draw_all (screen_xsize : Z) (map : list Z) : list Z * list DrawRect :=
  foldl (fun state y => foldl (fun state x => draw screen_xsize state y x)
                          state (seqZ 0 xsize))
        (map, []) (seqZ 0 ysize).

(** One pass of the body of while (1), up to the flush of the screen. *)
Definition generation (screen_xsize : Z) (map : list Z) : list Z * list DrawRect :=
  draw_all screen_xsize (mark_all map).

(** The cells the function sets before the loop, in a map of zeros. *)
Definition initial_map : list Z :=
  foldl (fun map i => <[Z.to_nat i := 1]> map) (replicate (Z.to_nat (ysize * xsize)) 0)
    [(ysize / 2 - 1) * xsize + (xsize / 2 - 3);
     (ysize / 2 - 1) * xsize + (xsize / 2 + 2);
     (ysize / 2) * xsize + (xsize / 2 - 4);
     (ysize / 2) * xsize + (xsize / 2 - 3);
     (ysize / 2) * xsize + (xsize / 2 + 2);
     (ysize / 2) * xsize + (xsize / 2 + 3);
     (ysize / 2 + 1) * xsize + (xsize / 2 - 3);
     (ysize / 2 + 1) * xsize + (xsize / 2 + 2)].

(** *** The rule of the Game of Life on the torus of 16 rows and 32 columns *)

(** A map of living (1) and dead (0) cells. *)
Definition binary (map : list Z) : Prop :=
  length map = Z.to_nat (ysize * xsize) /\ Forall (fun c => c = 0 \/ c = 1) map.

Definition alive (map : list Z) (y x : Z) : bool :=
  negb (cell map ((y mod ysize) * xsize + x mod xsize) =? 0).

Definition neighbours (map : list Z) (y x : Z) : nat :=
  length (filter (fun d => alive map (y + fst d) (x + snd d) = true)
            [(-1, -1); (-1, 0); (-1, 1); (0, -1); (0, 1); (1, -1); (1, 0); (1, 1)]).

Definition life_rule (map : list Z) (y x : Z) : Z :=
  let n := neighbours map y x in
  if alive map y x
  then (if (n =? 2)%nat || (n =? 3)%nat then 1 else 0)
  else (if (n =? 3)%nat then 1 else 0).

(** The colour in which the cell (y, x) of a map is drawn by the pass that
    computes the next generation. *)
Definition shown_colour (map : list Z) (y x : Z) : Z :=
  if alive map y x
  then (if life_rule map y x =? 1 then 0xff0088 * 2 + 0x00cc00 else 0x00cc00)
  else 0x000000.

Definition rect_of (screen_xsize : Z) (col : Z -> Z) (i : Z) : DrawRect :=
  mkDrawRect (screen_xsize - canvas_xsize + i mod xsize * pixel_size)
    (i / xsize * pixel_size) pixel_size pixel_size (col i).

(** *** Loop invariants *)

(** Two maps that agree on bit 0 of every cell. *)
Definition same_bit0 (m old : list Z) : Prop :=
  forall y x, 0 <= y < 16 -> 0 <= x < 32 ->
    Z.land (cell m (y * 32 + x)) 1 = Z.land (cell old (y * 32 + x)) 1.

(** The first pass has handled the cells below index k. *)
Definition marked_upto (old : list Z) (k : Z) (m : list Z) : Prop :=
  length m = 512%nat
  /\ forall y x, 0 <= y < 16 -> 0 <= x < 32 ->
       cell m (y * 32 + x)
       = if y * 32 + x <? k then cell (mark old y x) (y * 32 + x)
         else cell old (y * 32 + x).

(** The second pass has handled the cells below index k. *)
Definition drawn_upto (screen_xsize : Z) (marked : list Z) (k : Z)
    (state : list Z * list DrawRect) : Prop :=
  length (fst state) = 512%nat
  /\ (forall y x, 0 <= y < 16 -> 0 <= x < 32 ->
        cell (fst state) (y * 32 + x)
        = if y * 32 + x <? k then cell marked (y * 32 + x) ≫ 1
          else cell marked (y * 32 + x))
  /\ snd state = rect_of screen_xsize (fun i => colour (cell marked i)) <$> seqZ 0 k.

End CellularAutomaton.

Module CA := CellularAutomaton.

(** ** drawPoly (src/subtask.cc): the scan of one edge *)

Module DrawPoly.

(** One pass of the loop
    for (y = y0; y <= y1; y++) { buf[y] = x >> 16; x += dx; }
    on the buffer and x; a store outside the buffer is undefined and ends
    the run with [None]. *)
Definition scan_step (dx : Z) (state : option (list Z * Z)) (y : Z)
    : option (list Z * Z) :=
  match state with
  | Some (buf, x) =>
      if (0 <=? y) && (y <? Z.of_nat (length buf))
      then Some (<[Z.to_nat y := x ≫ 16]> buf, i32 (x + dx))
      else None
  | None => None
  end.

Definition scan (buf : list Z) (y0 y1 x dx : Z) : option (list Z) :=
  fst <$> foldl (scan_step dx) (Some (buf, x)) (seqZ y0 (y1 - y0 + 1)).

(** The body of the loop over the corners of the face, for the edge from
    (p0x, p0y) to (p1x, p1y): edges that go down are scanned into buf0, edges
    that go up into buf1, horizontal edges are skipped. *)
Definition edge (p0x p0y p1x p1y : Z) (bufs : list Z * list Z)
    : option (list Z * list Z) :=
  if p0y =? p1y then Some bufs
  else
    let down := p0y <? p1y in
    let y0 := if down then p0y else p1y in
    let y1 := if down then p1y else p0y in
    let dx := if down then i32 (p1x - p0x) else i32 (p0x - p1x) in
    let x := if down then p0x else p1x in
    let x := i32 (x ≪ 16) in
    let dx := i32 (Z.quot (i32 (dx ≪ 16)) (i32 (y1 - y0))) in
    let x := if 0 <=? dx then i32 (x + 0x8000) else i32 (x - 0x8000) in
    if down
    then (fun buf => (buf, snd bufs)) <$> scan (fst bufs) y0 y1 x dx
    else (fun buf => (fst bufs, buf)) <$> scan (snd bufs) y0 y1 x dx.

(** buf[y] *)
Definition at_row (buf : list Z) (y : Z) : Z := default 0 (buf !! Z.to_nat y).

(** The cells below row y hold the line from x with slope dx, and x has
    advanced to row y. *)
Definition scanned (buf : list Z) (y0 x dx : Z) (y : Z) (state : option (list Z * Z))
    : Prop :=
  exists buf', state = Some (buf', x + (y - y0) * dx)
    /\ length buf' = length buf
    /\ forall j, 0 <= j ->
         at_row buf' j = if (y0 <=? j) && (j <? y) then (x + (j - y0) * dx) ≫ 16
                         else at_row buf j.

End DrawPoly.

(** ** Example inputs *)

Definition seg0 : SegmentMapping := mkSegmentMapping 0 0 0.

Definition cpu0 : CPUContext :=
  mkCPUContext 0 [] (mkInterruptContext 0 0 0 0 0) [].

(** A context whose heap segment has 4096 bytes and whose watermark is 0. *)
Definition heap_ctx : ExecutionContext :=
  mkExecutionContext cpu0
    (mkProcessMappingInfo seg0 seg0 seg0 (mkSegmentMapping 0x7000 0x9000 4096)) 0 0.

(** The packet SetupRequest has built when it calls CalcAndSetChecksum: the
    addresses are those of a small test network, the UDP part is still
    unset. *)
Definition request_packet : VirtioNet.IPv4UDPPacket :=
  VirtioNet.mkIPv4UDPPacket [0x52; 0x54; 0; 0x12; 0x34; 0x57] [0x52; 0x54; 0; 0x12; 0x34; 0x56]
    [0x08; 0x00] 0x45 0x00 [0x00; 20] 0x4242 0x0040 32 17 0
    [10; 10; 10; 18] [10; 10; 10; 19] [0; 0] [0; 0] [0; 0] [0; 0] 0.

(** A machine with two contexts of one cache line per segment.  Nothing has
    been persisted yet: the CPU sees the byte 1 everywhere and persistent
    memory holds 0 everywhere. *)
Definition slot (base : Z) (cr3_ : Z) : ExecutionContext :=
  mkExecutionContext
    (mkCPUContext cr3_ [base] (mkInterruptContext base 8 2 base 16) [])
    (mkProcessMappingInfo
       (mkSegmentMapping 0x400000 (base + 0x1000) 64)
       (mkSegmentMapping 0x500000 (base + 0x2000) 64)
       (mkSegmentMapping 0x600000 (base + 0x3000) 64)
       (mkSegmentMapping 0x700000 (base + 0x4000) 64))
    0 0.

Definition two_slots : nat -> ExecutionContext :=
  fun i => match i with O => slot 0x10000 0xa000 | _ => slot 0x20000 0xb000 end.

Definition dirty_machine : Machine :=
  mkMachine two_slots two_slots 0 0 kSignature kSignature
    (mkMemory (fun _ => 1) (fun _ => 0)) 0 0 2.

(** The same two contexts over a memory whose bytes differ from address to
    address. *)
Definition varied_machine : Machine :=
  mkMachine two_slots two_slots 0 0 kSignature kSignature
    (mkMemory (fun x => x mod 256) (fun _ => 0)) 0 0 2.

(** Scenario S4: the scheduler built around process A, with process B
    registered next. *)
Definition two_processes (A B : Process) : Scheduler :=
  match RegisterProcess B (Scheduler_new A) with
  | inr s => s
  | inl _ => Scheduler_new A
  end.

Definition process_A : Process := mkProcess 1 kNotInitialized.
Definition process_B : Process := mkProcess 2 kNotInitialized.

(** Stores of the running process: [byte] into every byte of a segment.
    They reach the CPU's view only. *)
Definition user_fill (s : SegmentMapping) (byte : Z) (m : Machine) : Machine :=
  with_ram
    (mkMemory (fun x => if (paddr_ s <=? x) && (x <? paddr_ s + map_size_ s)
                        then byte else view (ram m) x)
       (persisted (ram m)))
    m.

(** [dirty_machine] after a whole checkpoint, which makes slot 1 the valid
    one and brings slot 0 into line with it, and after the process, running
    in slot 0, has overwritten its data and its stack with the byte 2. *)
Definition second_run : Machine :=
  let m1 := run (SwitchContext_steps dirty_machine) dirty_machine in
  let mi := map_info_ (ctx_ m1 0%nat) in
  user_fill (stack mi) 2 (user_fill (data mi) 2 m1).


(** A memory in which the CPU sees the byte 7 everywhere and nothing but the
    byte 9 has been persisted. *)
Definition stale_memory : Memory := mkMemory (fun _ => 7) (fun _ => 9).

(** A machine whose persistent memory has never held a PersistentProcessInfo:
    no signature, an arbitrary validity index. *)
Definition blank_machine : Machine :=
  mkMachine two_slots two_slots 0 0 0 0 (mkMemory (fun _ => 0) (fun _ => 0)) 0 0 2.

(** A virtqueue of eight descriptors at address 0x10000, with the page
    rounding of a 4 KiB page. *)
Definition queue8 : Virtqueue.Virtqueue := Virtqueue.mkVirtqueue 8 0x10000 (replicate 256 0).

Definition ceil_page (x : Z) : Z := (x + 4095) / 4096 * 4096.

(** An ARP packet whose bytes are all 0xee, and the addresses of a small
    test network. *)
Definition stale_arp : ARP.ARPPacket :=
  ARP.mkARPPacket (replicate 6 0xee) (replicate 6 0xee) (replicate 2 0xee)
    (replicate 2 0xee) (replicate 2 0xee) 0xee 0xee (replicate 2 0xee)
    (replicate 6 0xee) (replicate 4 0xee) (replicate 6 0xee) (replicate 4 0xee).

Definition test_mac : list Z := [0x52; 0x54; 0x00; 0x12; 0x34; 0x56].
Definition gateway_mac : list Z := [0x52; 0x54; 0x00; 0x12; 0x34; 0x57].
Definition test_ip : list Z := [10; 10; 10; 18].
Definition gateway_ip : list Z := [10; 10; 10; 19].

(** A packet with the same first two IPv4 bytes as request_packet and
    other addresses, identification and time to live. *)
Definition other_packet : VirtioNet.IPv4UDPPacket :=
  VirtioNet.mkIPv4UDPPacket [1; 2; 3; 4; 5; 6] [6; 5; 4; 3; 2; 1]
    [0x08; 0x00] 0x45 0x00 [0x01; 0x00] 0x1234 0x0000 64 6 0xffff
    [192; 168; 0; 1] [192; 168; 0; 2] [0; 0] [0; 0] [0; 0] [0; 0] 0.

(** A blinker: three living cells in a row in the middle of the map. *)
Definition blinker : list Z :=
  <[Z.to_nat (8 * 32 + 17) := 1]>
    (<[Z.to_nat (8 * 32 + 16) := 1]>
       (<[Z.to_nat (8 * 32 + 15) := 1]> (replicate 512 0))).

(** Two scan buffers of 160 rows with arbitrary content. *)
Definition scan_buffer : list Z := replicate 160 (-7).

(** * Properties *)

(** ** Machine integers *)

Lemma u16_range x : 0 <= u16 x < 2 ^ 16.
Proof. unfold u16. apply Z.mod_pos_bound. lia. Qed.

Lemma u32_range x : 0 <= u32 x < 2 ^ 32.
Proof. unfold u32. apply Z.mod_pos_bound. lia. Qed.

Lemma u64_range x : 0 <= u64 x < 2 ^ 64.
Proof. unfold u64. apply Z.mod_pos_bound. lia. Qed.

Lemma u32_small x : 0 <= x < 2 ^ 32 -> u32 x = x.
Proof. intros H. unfold u32. apply Z.mod_small. exact H. Qed.

Lemma i32_small x : - 2 ^ 31 <= x < 2 ^ 31 -> i32 x = x.
Proof. intros H. unfold i32. rewrite Z.mod_small; lia. Qed.


(** ** SetRegisters *)

(** C6: whatever the arguments, SetRegisters stores rflags | 2, so bit 1 of
    the stored rflags is set, and resets heap_used_size to 0. *)
Theorem SetRegisters_rflags_and_heap
    (rip_ cs_ rsp_ ss_ cr3_ rflags_ kernel_rsp : Z) (c : ExecutionContext) :
  let c' := SetRegisters rip_ cs_ rsp_ ss_ cr3_ rflags_ kernel_rsp c in
  rflags (int_ctx (cpu_context_ c')) = Z.lor rflags_ 2
  /\ Z.testbit (rflags (int_ctx (cpu_context_ c'))) 1 = true
  /\ heap_used_size_ c' = 0.
Proof.
  intros c'. split; [reflexivity|]. split; [|reflexivity].
  change (Z.testbit (Z.lor rflags_ 2) 1 = true).
  rewrite Z.lor_spec. apply orb_true_r.
Qed.

Lemma SetRegisters_frame
    (rip_ cs_ rsp_ ss_ cr3_ rflags_ kernel_rsp : Z) (c : ExecutionContext) :
  let c' := SetRegisters rip_ cs_ rsp_ ss_ cr3_ rflags_ kernel_rsp c in
  int_ctx (cpu_context_ c') = mkInterruptContext rip_ cs_ (Z.lor rflags_ 2) rsp_ ss_
  /\ cr3 (cpu_context_ c') = cr3_
  /\ kernel_rsp_ c' = kernel_rsp
  /\ map_info_ c' = map_info_ c
  /\ greg (cpu_context_ c') = greg (cpu_context_ c)
  /\ fpu_context (cpu_context_ c') = fpu_context (cpu_context_ c).
Proof. cbn. repeat split. Qed.

(** ** ExpandHeap *)

Lemma ExpandHeap_ok diff c :
  0 <= heap_used_size_ c + diff <= map_size_ (heap (map_info_ c)) ->
  ExpandHeap diff c = inr (set_heap_used_size (heap_used_size_ c + diff) c).
Proof.
  intros H. unfold ExpandHeap, GetMapSize.
  destruct (Z.ltb_spec (heap_used_size_ c + diff) 0); [lia|].
  destruct (Z.ltb_spec (map_size_ (heap (map_info_ c))) (heap_used_size_ c + diff));
    [lia|reflexivity].
Qed.

Lemma ExpandHeap_underflow diff c :
  heap_used_size_ c + diff < 0 -> ExpandHeap diff c = inl HEAP_UNDERFLOW.
Proof.
  intros H. unfold ExpandHeap.
  destruct (Z.ltb_spec (heap_used_size_ c + diff) 0); [reflexivity|lia].
Qed.

Lemma ExpandHeap_overflow diff c :
  0 <= heap_used_size_ c + diff ->
  map_size_ (heap (map_info_ c)) < heap_used_size_ c + diff ->
  ExpandHeap diff c = inl HEAP_OVERFLOW.
Proof.
  intros H0 H. unfold ExpandHeap, GetMapSize.
  destruct (Z.ltb_spec (heap_used_size_ c + diff) 0); [lia|].
  destruct (Z.ltb_spec (map_size_ (heap (map_info_ c))) (heap_used_size_ c + diff));
    [reflexivity|lia].
Qed.

(** A failing call leaves the whole context as it was: the error is a value
    and the sequence goes on from the same context. *)
Lemma ExpandHeapSeq_cons_fail d ds c e :
  ExpandHeap d c = inl e ->
  ExpandHeapSeq (d :: ds) c
  = (fst (ExpandHeapSeq ds c), Some e :: snd (ExpandHeapSeq ds c)).
Proof. intros H. cbn. rewrite H. destruct (ExpandHeapSeq ds c). reflexivity. Qed.

Lemma ExpandHeapSeq_cons_ok d ds c c1 :
  ExpandHeap d c = inr c1 ->
  ExpandHeapSeq (d :: ds) c
  = (fst (ExpandHeapSeq ds c1), None :: snd (ExpandHeapSeq ds c1)).
Proof. intros H. cbn. rewrite H. destruct (ExpandHeapSeq ds c1). reflexivity. Qed.

Lemma ExpandHeapSeq_app ds1 ds2 c :
  ExpandHeapSeq (ds1 ++ ds2) c
  = (fst (ExpandHeapSeq ds2 (fst (ExpandHeapSeq ds1 c))),
     snd (ExpandHeapSeq ds1 c) ++ snd (ExpandHeapSeq ds2 (fst (ExpandHeapSeq ds1 c)))).
Proof.
  revert c. induction ds1 as [|d ds1 IH]; intros c.
  - cbn. destruct (ExpandHeapSeq ds2 c). reflexivity.
  - cbn [app]. destruct (ExpandHeap d c) as [e|c1] eqn:E.
    + rewrite (ExpandHeapSeq_cons_fail _ _ _ _ E), (ExpandHeapSeq_cons_fail _ _ _ _ E).
      rewrite IH. reflexivity.
    + rewrite (ExpandHeapSeq_cons_ok _ _ _ _ E), (ExpandHeapSeq_cons_ok _ _ _ _ E).
      rewrite IH. reflexivity.
Qed.

Lemma ExpandHeapSeq_map_info ds c :
  map_info_ (fst (ExpandHeapSeq ds c)) = map_info_ c.
Proof.
  revert c. induction ds as [|d ds IH]; intros c; [reflexivity|].
  destruct (ExpandHeap d c) as [e|c1] eqn:E.
  - rewrite (ExpandHeapSeq_cons_fail _ _ _ _ E). cbn. apply IH.
  - rewrite (ExpandHeapSeq_cons_ok _ _ _ _ E). cbn. rewrite IH.
    unfold ExpandHeap in E.
    destruct (heap_used_size_ c + d <? 0); [discriminate|].
    destruct (GetMapSize (heap (map_info_ c)) <? heap_used_size_ c + d); [discriminate|].
    injection E as <-. reflexivity.
Qed.

(** While no partial sum leaves the bounds every call succeeds and the
    watermark is the sum. *)
Lemma ExpandHeapSeq_within ds c :
  partial_sums_ok (map_size_ (heap (map_info_ c))) (heap_used_size_ c) ds = true ->
  heap_used_size_ (fst (ExpandHeapSeq ds c)) = heap_used_size_ c + sumZ ds
  /\ snd (ExpandHeapSeq ds c) = replicate (length ds) None.
Proof.
  revert c. induction ds as [|d ds IH]; intros c H.
  - cbn. split; [lia|reflexivity].
  - cbn [partial_sums_ok] in H.
    apply andb_prop in H as [H Hrest]. apply andb_prop in H as [Hlo Hhi].
    apply Z.leb_le in Hlo, Hhi.
    rewrite (ExpandHeapSeq_cons_ok d ds c _ (ExpandHeap_ok d c (conj Hlo Hhi))).
    cbn [fst snd].
    destruct (IH (set_heap_used_size (heap_used_size_ c + d) c)) as [IH1 IH2].
    { cbn. exact Hrest. }
    rewrite IH1, IH2. cbn [set_heap_used_size heap_used_size_ length replicate].
    unfold sumZ. cbn [foldr]. split; [lia|reflexivity].
Qed.

(** C5: (amended) if no partial sum of the deltas exceeds heap.map_size or
    goes negative, every call succeeds and the final heap_used_size is the
    sum of the deltas (added to the initial value); and the first call whose
    partial sum leaves the bounds fails, with HEAP_UNDERFLOW when the sum is
    negative and HEAP_OVERFLOW when it exceeds heap.map_size, and leaves
    heap_used_size unchanged. *)
Theorem ExpandHeap_bounds (c : ExecutionContext) (diffs : list Z) :
  let limit := map_size_ (heap (map_info_ c)) in
  let h := heap_used_size_ c in
  (partial_sums_ok limit h diffs = true ->
     heap_used_size_ (fst (ExpandHeapSeq diffs c)) = h + sumZ diffs
     /\ snd (ExpandHeapSeq diffs c) = replicate (length diffs) None)
  /\ (forall pre d post,
        diffs = pre ++ d :: post ->
        partial_sums_ok limit h pre = true ->
        ~ (0 <= h + sumZ pre + d <= limit) ->
        let c1 := fst (ExpandHeapSeq pre c) in
        ExpandHeap d c1
          = inl (if h + sumZ pre + d <? 0 then HEAP_UNDERFLOW else HEAP_OVERFLOW)
        /\ snd (ExpandHeapSeq diffs c) !! length pre
           = Some (Some (if h + sumZ pre + d <? 0 then HEAP_UNDERFLOW else HEAP_OVERFLOW))
        /\ fst (ExpandHeapSeq (pre ++ [d]) c) = c1
        /\ heap_used_size_ c1 = h + sumZ pre).
Proof.
  intros limit h. split; [apply ExpandHeapSeq_within|].
  intros pre d post -> Hpre Hbad c1.
  destruct (ExpandHeapSeq_within pre c Hpre) as [Hsum Hres].
  fold c1 in Hsum. fold h in Hsum.
  assert (Hmi : map_info_ c1 = map_info_ c) by apply ExpandHeapSeq_map_info.
  assert (Hcall : ExpandHeap d c1
            = inl (if h + sumZ pre + d <? 0 then HEAP_UNDERFLOW else HEAP_OVERFLOW)).
  { destruct (Z.ltb_spec (h + sumZ pre + d) 0) as [Hneg|Hpos].
    - apply ExpandHeap_underflow. lia.
    - apply ExpandHeap_overflow; rewrite ?Hmi; fold limit; lia. }
  split; [exact Hcall|]. split; [|split; [|exact Hsum]].
  - rewrite ExpandHeapSeq_app. cbn [snd]. fold c1.
    rewrite (ExpandHeapSeq_cons_fail _ _ _ _ Hcall). cbn [snd].
    rewrite Hres. rewrite lookup_app_r; rewrite length_replicate; [|lia].
    rewrite Nat.sub_diag. reflexivity.
  - rewrite ExpandHeapSeq_app. cbn [fst]. fold c1.
    rewrite (ExpandHeapSeq_cons_fail _ _ _ _ Hcall). reflexivity.
Qed.

(** Scenario S5 of the design document: with heap.map_size = 4096,
    ExpandHeap(+4096) succeeds and the heap end advances by 4096; the
    following ExpandHeap(+1) fails with HEAP_OVERFLOW. *)
Example ExpandHeap_scenario_S5 :
  exists c1, ExpandHeap 4096 heap_ctx = inr c1
    /\ GetHeapEndVirtAddr c1 = GetHeapEndVirtAddr heap_ctx + 4096
    /\ ExpandHeap 1 c1 = inl HEAP_OVERFLOW.
Proof. eexists. split; [reflexivity|]. split; reflexivity. Qed.

Lemma ExpandHeap_bounds_witness :
  ExpandHeap 1 (fst (ExpandHeapSeq [4096] heap_ctx)) = inl HEAP_OVERFLOW
  /\ heap_used_size_ (fst (ExpandHeapSeq [4096] heap_ctx)) = 4096
  /\ heap_used_size_ (fst (ExpandHeapSeq [4096; -96] heap_ctx)) = 4000.
Proof.
  destruct (ExpandHeap_bounds heap_ctx [4096; 1]) as [_ H].
  destruct (H [4096] 1 [] eq_refl eq_refl ltac:(cbn; lia)) as (H1 & _ & _ & H4).
  destruct (ExpandHeap_bounds heap_ctx [4096; -96]) as [H' _].
  destruct (H' eq_refl) as [H5 _].
  split; [exact H1|]. split; [exact H4|exact H5].
Defined.

(** The claim as the design document words it is an equivalence; its
    direction from "the final value is the sum" to "no partial sum left the
    bounds" fails: with heap.map_size = 4096 the deltas +5000, -5000 both
    fail, the watermark stays 0, and 0 is the sum of the deltas. *)
Lemma ExpandHeap_iff_fails :
  ~ (heap_used_size_ (fst (ExpandHeapSeq [5000; -5000] heap_ctx))
       = heap_used_size_ heap_ctx + sumZ [5000; -5000]
     <-> partial_sums_ok (map_size_ (heap (map_info_ heap_ctx)))
           (heap_used_size_ heap_ctx) [5000; -5000] = true).
Proof. intros [H _]. specialize (H eq_refl). discriminate H. Qed.

(** ** SegmentMapping::Map *)

Lemma map_pages_lookup n vpn paddr attr pt k :
  map_pages n vpn paddr attr pt !! k
  = if decide (vpn <= k < vpn + Z.of_nat n)
    then Some (mkPageEntry (paddr + kPageSize * (k - vpn)) attr)
    else pt !! k.
Proof.
  revert vpn paddr pt. induction n as [|n IH]; intros vpn paddr pt.
  - cbn [map_pages]. destruct (decide _); [lia|reflexivity].
  - cbn [map_pages]. rewrite IH.
    destruct (decide (vpn + 1 <= k < vpn + 1 + Z.of_nat n)) as [Hin|Hout].
    + destruct (decide _); [|lia]. f_equal. f_equal. unfold kPageSize. lia.
    + destruct (decide (vpn = k)) as [->|Hne].
      * rewrite lookup_insert_eq. destruct (decide _); [|lia].
        f_equal. f_equal. lia.
      * rewrite lookup_insert_ne by exact Hne. destruct (decide _); [lia|reflexivity].
Qed.


Lemma CreatePageMapping_outside pt vaddr paddr size attr fl k :
  ~ (vaddr / kPageSize <= k < vaddr / kPageSize + ByteSizeToPageSize size) ->
  CreatePageMapping pt vaddr paddr size attr fl !! k = pt !! k.
Proof.
  intros H. unfold CreatePageMapping. rewrite map_pages_lookup.
  destruct (decide _) as [Hin|]; [|reflexivity].
  exfalso. apply H. lia.
Qed.




(** ** CalcAndSetChecksum *)

Lemma checksum_for_pass fuel w i sum :
  i < 5 ->
  VirtioNet.checksum_for (S fuel) w i sum
  = match VirtioNet.checksum_for fuel w (i + 1) (u32 (sum + VirtioNet.swap_bytes w)) with
    | Some (s, log) => Some (s, VirtioNet.mkIteration i false :: log)
    | None => None
    end.
Proof.
  intros H. cbn [VirtioNet.checksum_for].
  destruct (Z.ltb_spec i 5); [|lia]. destruct (Z.eqb_spec i 5); [lia|reflexivity].
Qed.

Lemma checksum_for_exit fuel w i sum :
  5 <= i -> VirtioNet.checksum_for (S fuel) w i sum = Some (sum, []).
Proof.
  intros H. cbn [VirtioNet.checksum_for]. destruct (Z.ltb_spec i 5); [lia|reflexivity].
Qed.

Lemma checksum_for_unrolled w extra sum :
  VirtioNet.checksum_for (6 + extra) w 0 sum
  = Some (u32 (u32 (u32 (u32 (u32 (sum + VirtioNet.swap_bytes w) + VirtioNet.swap_bytes w) + VirtioNet.swap_bytes w)
                 + VirtioNet.swap_bytes w) + VirtioNet.swap_bytes w),
          [VirtioNet.mkIteration 0 false; VirtioNet.mkIteration 1 false;
           VirtioNet.mkIteration 2 false; VirtioNet.mkIteration 3 false;
           VirtioNet.mkIteration 4 false]).
Proof.
  change (6 + extra)%nat with (S (S (S (S (S (S extra)))))).
  rewrite !checksum_for_pass by lia.
  rewrite checksum_for_exit by lia. reflexivity.
Qed.

(** C9: for every packet the loop of CalcAndSetChecksum makes exactly five
    passes, with i = 0, 1, 2, 3, 4, and on none of them is the comparison
    i == 5 true: the branch that would skip the checksum field is never
    taken.  (Six tests of the loop condition are enough for the loop to
    finish.) *)
Theorem checksum_skip_branch_is_dead (p : VirtioNet.IPv4UDPPacket) (extra : nat) :
  exists sum,
    VirtioNet.checksum_for (6 + extra) (VirtioNet.first_word p) 0 0
    = Some (sum, [VirtioNet.mkIteration 0 false; VirtioNet.mkIteration 1 false;
                  VirtioNet.mkIteration 2 false; VirtioNet.mkIteration 3 false;
                  VirtioNet.mkIteration 4 false]).
Proof. eexists. apply checksum_for_unrolled. Qed.

(** The comparison is dead from every loop state, not only from i = 0: a
    pass is only made when i < 5. *)
Lemma checksum_for_never_skips fuel w i sum s log :
  VirtioNet.checksum_for fuel w i sum = Some (s, log) ->
  Forall (fun it => VirtioNet.iter_skipped it = false /\ VirtioNet.iter_i it < 5) log.
Proof.
  revert i sum s log. induction fuel as [|fuel IH]; intros i sum s log H; [discriminate|].
  cbn [VirtioNet.checksum_for] in H.
  destruct (Z.ltb_spec i 5) as [Hlt|Hge].
  - destruct (Z.eqb_spec i 5) as [Heq|Hne]; [lia|].
    destruct (VirtioNet.checksum_for fuel w (i + 1) _) as [[s' log']|] eqn:E; [|discriminate].
    injection H as <- <-. constructor; [split; [reflexivity|exact Hlt]|].
    eapply IH. exact E.
  - injection H as <- <-. constructor.
Qed.

Lemma swap_bytes_range w : 0 <= w < 2 ^ 16 -> 0 <= VirtioNet.swap_bytes w < 2 ^ 16.
Proof.
  intros Hw. unfold VirtioNet.swap_bytes.
  assert (H1 : 0 <= w ≫ 8 < 2 ^ 16).
  { rewrite Z.shiftr_div_pow2 by lia. split; [apply Z.div_pos; lia|].
    apply Z.div_lt_upper_bound; lia. }
  assert (H2 : 0 <= Z.land (w ≪ 8) 65280 < 2 ^ 16).
  { split; [apply Z.land_nonneg; lia|].
    change 65280 with (Z.land 65280 (Z.ones 16)).
    rewrite Z.land_assoc, Z.land_ones by lia.
    apply Z.mod_pos_bound. lia. }
  split; [apply Z.lor_nonneg; lia|].
  destruct (Z.eq_dec (Z.lor (w ≫ 8) (Z.land (w ≪ 8) 65280)) 0) as [->|Hnz]; [lia|].
  apply Z.log2_lt_cancel. rewrite Z.log2_pow2 by lia.
  rewrite Z.log2_lor by lia.
  apply Z.max_lub_lt.
  - destruct (Z.eq_dec (w ≫ 8) 0) as [->|]; [cbn; lia|].
    apply Z.log2_lt_pow2; lia.
  - destruct (Z.eq_dec (Z.land (w ≪ 8) 65280) 0) as [->|]; [cbn; lia|].
    apply Z.log2_lt_pow2; lia.
Qed.

Lemma checksum_for_sum w extra :
  0 <= w < 2 ^ 16 ->
  fst <$> VirtioNet.checksum_for (6 + extra) w 0 0 = Some (5 * VirtioNet.swap_bytes w).
Proof.
  intros Hw. rewrite checksum_for_unrolled. cbn [fmap option_fmap option_map fst].
  pose proof (swap_bytes_range w Hw) as Hx. f_equal.
  repeat match goal with
         | |- context [u32 ?a] =>
             lazymatch a with
             | context [u32 _] => fail
             | _ => rewrite (u32_small a) by lia
             end
         end.
  lia.
Qed.

(** What the routine stores: the loop adds the byte-VirtioNet.swap_bytes first word five
    times, the while loop never runs (its condition shifts a 16-bit field by
    16), and the sum is cut to 16 bits. *)
Lemma CalcAndSetChecksum_result (p : VirtioNet.IPv4UDPPacket) (extra : nat) :
  let w := VirtioNet.first_word p in
  VirtioNet.CalcAndSetChecksum (6 + extra) p
  = Some (VirtioNet.set_checksum
            (u16 (5 * VirtioNet.swap_bytes w)) p).
Proof.
  intros w. unfold VirtioNet.CalcAndSetChecksum.
  assert (Hw : 0 <= w < 2 ^ 16).
  { unfold w, VirtioNet.first_word.
    pose proof (Z.mod_pos_bound (VirtioNet.version_and_ihl p) 256).
    pose proof (Z.mod_pos_bound (VirtioNet.dscp_and_ecn p) 256). lia. }
  pose proof (checksum_for_sum w extra Hw) as Hs. fold w.
  destruct (VirtioNet.checksum_for (6 + extra) w 0 0) as [[s log]|]; [|discriminate].
  cbn in Hs. injection Hs as ->.
  cbn [VirtioNet.checksum_while Nat.add].
  replace (u16 (VirtioNet.checksum p) ≫ 16) with 0; [reflexivity|].
  rewrite Z.shiftr_div_pow2 by lia. symmetry. apply Z.div_small. apply u16_range.
Qed.

Example CalcAndSetChecksum_request :
  VirtioNet.checksum <$> VirtioNet.CalcAndSetChecksum 6 request_packet = Some 0x5900.
Proof. reflexivity. Qed.

(** ** Ring buffer *)

Section RingBufferFacts.
Context {T : Type}.
Variable T_default : T.
Variable n : Z.
Hypothesis n_range : 0 < n < 2 ^ 31.

Let Buffer := RingBuffer T.

Lemma advance_mod p : 0 <= p < n -> advance n p = (p + 1) mod n.
Proof using n_range.
  intros Hp. unfold advance. rewrite u32_small by lia.
  apply i32_small. pose proof (Z.mod_pos_bound (p + 1) n). lia.
Qed.

Lemma advance_range p : 0 <= p < n -> 0 <= advance n p < n.
Proof using n_range.
  intros Hp. rewrite advance_mod by exact Hp. apply Z.mod_pos_bound. lia.
Qed.

Lemma Push_full (rb : Buffer) v :
  advance n (writep_ rb) = readp_ rb -> Push n v rb = rb.
Proof. intros H. unfold Push. rewrite H, Z.eqb_refl. reflexivity. Qed.

Lemma Pop_empty (rb : Buffer) :
  IsEmpty rb = true -> Pop T_default n rb = (T_default, rb).
Proof. intros H. unfold Pop. rewrite H. reflexivity. Qed.

Lemma Push_pointers_ok (rb : Buffer) v :
  pointers_ok n rb -> pointers_ok n (Push n v rb).
Proof using n_range.
  intros Hok. pose proof Hok as (Hr & Hw & Hl). unfold Push.
  destruct (advance n (writep_ rb) =? readp_ rb); [exact Hok|].
  unfold pointers_ok. cbn [readp_ writep_ elements_].
  rewrite length_insert. pose proof (advance_range _ Hw). repeat split; lia.
Qed.

Lemma Pop_pointers_ok (rb : Buffer) :
  pointers_ok n rb -> pointers_ok n (snd (Pop T_default n rb)).
Proof using n_range.
  intros Hok. pose proof Hok as (Hr & Hw & Hl). unfold Pop.
  destruct (IsEmpty rb); [exact Hok|].
  unfold pointers_ok. cbn [snd readp_ writep_ elements_].
  pose proof (advance_range _ Hr). repeat split; lia.
Qed.

Lemma call_pointers_ok (rb : Buffer) c :
  pointers_ok n rb -> pointers_ok n (call T_default n rb c).
Proof using n_range.
  destruct c; [apply Push_pointers_ok|apply Pop_pointers_ok].
Qed.

Lemma held_length (rb : Buffer) :
  Z.of_nat (length (held T_default n rb)) = (writep_ rb - readp_ rb) mod n.
Proof using n_range.
  unfold held. rewrite length_map, length_seq.
  pose proof (Z.mod_pos_bound (writep_ rb - readp_ rb) n). lia.
Qed.

Lemma held_bound (rb : Buffer) :
  Z.of_nat (length (held T_default n rb)) <= n - 1.
Proof using n_range.
  rewrite held_length. pose proof (Z.mod_pos_bound (writep_ rb - readp_ rb) n). lia.
Qed.

(** The buffer is full exactly when it holds n - 1 elements. *)
Lemma full_iff (rb : Buffer) :
  pointers_ok n rb ->
  advance n (writep_ rb) = readp_ rb
  <-> (writep_ rb - readp_ rb) mod n = n - 1.
Proof using n_range.
  intros (Hr & Hw & _). rewrite advance_mod by exact Hw.
  set (r := readp_ rb) in *. set (w := writep_ rb) in *.
  destruct (Z.eq_dec (w + 1) n) as [E|E].
  - replace (w + 1) with n by lia. rewrite Z.mod_same by lia.
    split; intros H.
    + rewrite <- H. rewrite Z.sub_0_r. rewrite Z.mod_small; lia.
    + destruct (Z.eq_dec r 0) as [->|Hr0]; [reflexivity|].
      exfalso. rewrite Z.mod_small in H by lia. lia.
  - rewrite (Z.mod_small (w + 1)) by lia. split; intros H.
    + rewrite <- H. replace (w - (w + 1)) with (-1 + 0 * n) by lia.
      rewrite Z.mod_add by lia.
      replace (-1) with ((n - 1) + (-1) * n) by lia.
      rewrite Z.mod_add by lia. apply Z.mod_small. lia.
    + destruct (Z_le_gt_dec r w) as [Hle|Hgt].
      * rewrite Z.mod_small in H by lia. lia.
      * replace (w - r) with ((w - r + n) + (-1) * n) in H by lia.
        rewrite Z.mod_add in H by lia. rewrite Z.mod_small in H by lia. lia.
Qed.

Lemma slot_of_held (rb : Buffer) k :
  pointers_ok n rb ->
  0 <= k < (writep_ rb - readp_ rb) mod n ->
  (readp_ rb + k) mod n <> writep_ rb.
Proof using n_range.
  intros (Hr & Hw & _) Hk E.
  assert (Hs : (writep_ rb - readp_ rb) mod n = k mod n).
  { rewrite <- E. rewrite Zminus_mod_idemp_l. f_equal. lia. }
  pose proof (Z.mod_pos_bound (writep_ rb - readp_ rb) n).
  rewrite (Z.mod_small k) in Hs by lia. lia.
Qed.

Lemma slot_of_write (rb : Buffer) :
  pointers_ok n rb ->
  (readp_ rb + (writep_ rb - readp_ rb) mod n) mod n = writep_ rb.
Proof using n_range.
  intros (Hr & Hw & _). rewrite Zplus_mod_idemp_r.
  replace (readp_ rb + (writep_ rb - readp_ rb)) with (writep_ rb) by lia.
  apply Z.mod_small. exact Hw.
Qed.

Lemma held_Push (rb : Buffer) v :
  pointers_ok n rb ->
  held T_default n (Push n v rb) = queue_call n (held T_default n rb) (CallPush v).
Proof using n_range.
  intros Hok. pose proof Hok as (Hr & Hw & Hl).
  cbn [queue_call]. rewrite held_length.
  pose proof (full_iff rb Hok) as Hfull.
  pose proof (Z.mod_pos_bound (writep_ rb - readp_ rb) n ltac:(lia)) as Hs.
  unfold Push. destruct (Z.eqb_spec (advance n (writep_ rb)) (readp_ rb)) as [E|E].
  - destruct (Z.ltb_spec ((writep_ rb - readp_ rb) mod n) (n - 1)); [|reflexivity].
    apply Hfull in E. lia.
  - destruct (Z.ltb_spec ((writep_ rb - readp_ rb) mod n) (n - 1)) as [Hlt|Hge];
      [|exfalso; apply E, Hfull; lia].
    unfold held. cbn [readp_ writep_ elements_].
    rewrite advance_mod by exact Hw.
    assert (Hsize : (((writep_ rb + 1) mod n - readp_ rb) mod n)
                    = (writep_ rb - readp_ rb) mod n + 1).
    { rewrite Zminus_mod_idemp_l.
      replace (writep_ rb + 1 - readp_ rb) with (writep_ rb - readp_ rb + 1) by lia.
      rewrite <- Zplus_mod_idemp_l. apply Z.mod_small. lia. }
    rewrite Hsize. rewrite Z2Nat.inj_add by lia.
    change (Z.to_nat 1) with 1%nat. rewrite seq_app, map_app. cbn [seq map].
    f_equal.
    + apply map_ext_in. intros k Hk. apply in_seq in Hk.
      unfold element_at. rewrite list_lookup_insert_ne; [reflexivity|].
      intros Heq. apply Z2Nat.inj in Heq; [..|lia|apply Z.mod_pos_bound; lia].
      symmetry in Heq. revert Heq. apply slot_of_held; [exact Hok|lia].
    + rewrite Nat.add_0_l, Z2Nat.id by lia. rewrite slot_of_write by exact Hok.
      unfold element_at. rewrite list_lookup_insert_eq by lia. reflexivity.
Qed.

Lemma held_Pop (rb : Buffer) :
  pointers_ok n rb ->
  held T_default n (snd (Pop T_default n rb)) = tail (held T_default n rb)
  /\ fst (Pop T_default n rb) = hd T_default (held T_default n rb).
Proof using n_range.
  intros Hok. pose proof Hok as (Hr & Hw & Hl).
  unfold Pop, IsEmpty. destruct (Z.eqb_spec (readp_ rb) (writep_ rb)) as [E|E].
  - cbn [fst snd]. unfold held. rewrite E, Z.sub_diag, Z.mod_0_l by lia.
    split; reflexivity.
  - cbn [fst snd]. unfold held. cbn [readp_ writep_ elements_].
    rewrite advance_mod by exact Hr.
    pose proof (Z.mod_pos_bound (writep_ rb - readp_ rb) n ltac:(lia)) as Hs.
    assert (Hnz : (writep_ rb - readp_ rb) mod n <> 0).
    { intros H0. destruct (Z_le_gt_dec (readp_ rb) (writep_ rb)).
      - rewrite Z.mod_small in H0 by lia. lia.
      - replace (writep_ rb - readp_ rb) with ((writep_ rb - readp_ rb + n) + (-1) * n)
          in H0 by lia.
        rewrite Z.mod_add, Z.mod_small in H0 by lia. lia. }
    assert (Hsize : (writep_ rb - (readp_ rb + 1) mod n) mod n
                    = (writep_ rb - readp_ rb) mod n - 1).
    { rewrite Zminus_mod_idemp_r.
      replace (writep_ rb - (readp_ rb + 1)) with (writep_ rb - readp_ rb - 1) by lia.
      rewrite <- Zminus_mod_idemp_l. apply Z.mod_small. lia. }
    rewrite Hsize.
    destruct (Z.to_nat ((writep_ rb - readp_ rb) mod n)) as [|s] eqn:Es; [lia|].
    replace (Z.to_nat ((writep_ rb - readp_ rb) mod n - 1)) with s by lia.
    cbn [seq map tail hd]. split.
    + rewrite <- seq_shift, map_map. apply map_ext. intros k. f_equal.
      rewrite Zplus_mod_idemp_l. f_equal. lia.
    + rewrite Z.add_0_r, Z.mod_small by lia. reflexivity.
Qed.

Lemma held_call (rb : Buffer) c :
  pointers_ok n rb ->
  held T_default n (call T_default n rb c) = queue_call n (held T_default n rb) c.
Proof using n_range.
  intros Hok. destruct c as [v|]; cbn [call queue_call].
  - apply held_Push, Hok.
  - apply held_Pop, Hok.
Qed.

Lemma held_calls (rb : Buffer) cs :
  pointers_ok n rb ->
  held T_default n (foldl (call T_default n) rb cs)
  = foldl (queue_call n) (held T_default n rb) cs.
Proof using n_range.
  revert rb. induction cs as [|c cs IH]; intros rb Hok; [reflexivity|].
  cbn [foldl]. rewrite IH by (apply call_pointers_ok, Hok).
  rewrite held_call by exact Hok. reflexivity.
Qed.

Lemma new_pointers_ok (elements : list T) :
  Z.of_nat (length elements) = n -> pointers_ok n (RingBuffer_new elements).
Proof using n_range. intros H. unfold pointers_ok. cbn. lia. Qed.
End RingBufferFacts.

(** C10: a push into a full buffer ((writep_ + 1) mod n equal to readp_)
    leaves the buffer as it was and the value is dropped; so, whatever the
    calls made on a fresh buffer, it holds what a queue bounded by n - 1
    elements would hold, never more than n - 1 elements; and a pop from an
    empty buffer returns the value-initialised T and leaves the buffer as it
    was. *)
Theorem RingBuffer_full_and_empty {T : Type} (T_default : T) (n : Z) :
  0 < n < 2 ^ 31 ->
  (forall (rb : RingBuffer T) v,
      advance n (writep_ rb) = readp_ rb -> Push n v rb = rb)
  /\ (forall (rb : RingBuffer T) v,
        pointers_ok n rb ->
        (writep_ rb + 1) mod n = readp_ rb ->
        Push n v rb = rb /\ Z.of_nat (length (held T_default n rb)) = n - 1)
  /\ (forall (elements : list T) calls,
        Z.of_nat (length elements) = n ->
        let rb := foldl (call T_default n) (RingBuffer_new elements) calls in
        held T_default n rb = foldl (queue_call n) [] calls
        /\ Z.of_nat (length (held T_default n rb)) <= n - 1)
  /\ (forall rb : RingBuffer T,
        IsEmpty rb = true -> Pop T_default n rb = (T_default, rb)).
Proof.
  intros Hn. split; [|split; [|split]].
  - intros rb v. apply Push_full.
  - intros rb v Hok Hfull. pose proof Hok as (_ & Hw & _).
    rewrite <- (advance_mod n Hn) in Hfull by exact Hw.
    split; [apply Push_full, Hfull|].
    rewrite (held_length T_default n Hn). apply (full_iff n Hn rb Hok), Hfull.
  - intros elements calls Hlen rb. split; [|apply held_bound, Hn].
    unfold rb. rewrite (held_calls T_default n Hn) by (apply new_pointers_ok; assumption).
    reflexivity.
  - intros rb. apply Pop_empty.
Qed.

Lemma RingBuffer_full_and_empty_witness :
  Push 3 9 (mkRingBuffer [1; 2; 0] 0 2) = mkRingBuffer [1; 2; 0] 0 2
  /\ held 0 3 (foldl (call 0 3) (RingBuffer_new [0; 0; 0])
                 [CallPush 1; CallPush 2; CallPush 3; CallPop; CallPush 4])
     = [2; 4]
  /\ Pop 0 3 (RingBuffer_new [7; 7; 7]) = (0, RingBuffer_new [7; 7; 7]).
Proof.
  assert (H : 0 < 3 < 2 ^ 31) by lia.
  destruct (RingBuffer_full_and_empty 0 3 H) as (H1 & _ & H3 & H4).
  split; [apply H1; reflexivity|]. split; [|apply H4; reflexivity].
  exact (proj1 (H3 [0; 0; 0] [CallPush 1; CallPush 2; CallPush 3; CallPop; CallPush 4]
                  eq_refl)).
Defined.

(** ** Running routines *)

Lemma run_nil m : run [] m = m.
Proof. reflexivity. Qed.

Lemma run_cons op ops m : run (op :: ops) m = run ops (exec op m).
Proof. reflexivity. Qed.

Lemma run_app ops1 ops2 m : run (ops1 ++ ops2) m = run ops2 (run ops1 m).
Proof. unfold run. apply foldl_app. Qed.

Lemma run_then (p q : Routine) m :
  run ((p ;;; q) m) m = run (q (run (p m) m)) (run (p m) m).
Proof. unfold then_. apply run_app. Qed.

Lemma run_snoc ops op m : run (ops ++ [op]) m = exec op (run ops m).
Proof. rewrite run_app. reflexivity. Qed.

Lemma line_of_le a b : a <= b -> line_of a <= line_of b.
Proof. intros H. unfold line_of, kCacheLineSize. apply Z.div_le_mono; lia. Qed.

Lemma line_of_add a i : line_of (a + kCacheLineSize * i) = line_of a + i.
Proof.
  unfold line_of, kCacheLineSize. rewrite (Z.mul_comm 64 i), Z.div_add by lia.
  reflexivity.
Qed.

(** The lines of the bytes of a segment are those from its first to its last
    line. *)
Lemma in_segment_lines x s :
  in_segment x s -> seg_first_line s <= line_of x <= seg_last_line s.
Proof.
  unfold in_segment, seg_first_line, seg_last_line. intros H.
  split; apply line_of_le; lia.
Qed.

Lemma lines_apart_sound s t x y :
  lines_apart s t = true -> in_segment x s -> in_segment y t ->
  line_of x <> line_of y.
Proof.
  intros H Hx Hy.
  pose proof (in_segment_lines x s Hx). pose proof (in_segment_lines y t Hy).
  unfold in_segment in Hx, Hy. unfold lines_apart in H.
  repeat (apply orb_prop in H as [H|H]);
    first [apply Z.leb_le in H | apply Z.ltb_lt in H]; lia.
Qed.

Lemma seg_disjoint_sound s t x :
  seg_disjoint s t = true -> in_segment x s -> in_segment x t -> False.
Proof.
  unfold seg_disjoint, in_segment. intros H Hx Hy.
  repeat (apply orb_prop in H as [H|H]); apply Z.leb_le in H; lia.
Qed.

Lemma mappings_apart_sound a b s t x y :
  mappings_apart a b = true -> In s (segments a) -> In t (segments b) ->
  in_segment x s -> in_segment y t -> line_of x <> line_of y.
Proof.
  unfold mappings_apart. intros H Hs Ht.
  rewrite forallb_forall in H. specialize (H s Hs).
  rewrite forallb_forall in H. specialize (H t Ht).
  apply lines_apart_sound. exact H.
Qed.

(** ** Flushing a segment *)

Lemma same_records_refl m : same_records m m.
Proof. repeat split. Qed.

Lemma same_records_trans m1 m2 m3 :
  same_records m1 m2 -> same_records m2 m3 -> same_records m1 m3.
Proof.
  unfold same_records. intros (A1 & A2 & A3 & A4 & A5 & A6) (B1 & B2 & B3 & B4 & B5 & B6).
  repeat split; congruence.
Qed.

Lemma flush_lines_S a nl :
  flush_lines a (S nl)
  = flush_lines a nl ++ [OpCLFlush (a + kCacheLineSize * Z.of_nat nl) true].
Proof. unfold flush_lines. rewrite seq_S, map_app. reflexivity. Qed.

Lemma run_flush_lines a nl m :
  let m' := run (flush_lines a nl) m in
  same_records m m'
  /\ view (ram m') = view (ram m)
  /\ stat_copied_bytes m' = stat_copied_bytes m
  /\ forall x, persisted (ram m') x
       = if decide (line_of a <= line_of x < line_of a + Z.of_nat nl)
         then view (ram m) x else persisted (ram m) x.
Proof.
  induction nl as [|nl IH].
  - cbn. split; [apply same_records_refl|]. split; [reflexivity|]. split; [reflexivity|].
    intros x. destruct (decide _); [lia|reflexivity].
  - rewrite flush_lines_S. cbv zeta in *. rewrite run_snoc.
    destruct IH as (Hrec & Hview & Hstat & Hpers).
    set (m1 := run (flush_lines a nl) m) in *.
    split; [exact Hrec|]. split; [exact Hview|]. split; [exact Hstat|].
    intros x. cbn [exec ram CLFlush persisted]. rewrite line_of_add, Hpers, Hview.
    destruct (Z.eqb_spec (line_of x) (line_of a + Z.of_nat nl)) as [E|E];
      repeat destruct (decide _); try reflexivity; lia.
Qed.

(** After the flush of a segment every byte of it is persisted as the CPU
    sees it. *)
Lemma SegmentMapping_Flush_persists s m0 m x :
  in_segment x s ->
  persisted (ram (run (SegmentMapping_Flush s m0) m)) x = view (ram m) x.
Proof.
  intros Hx. unfold SegmentMapping_Flush.
  destruct (run_flush_lines (paddr_ s) (Z.to_nat (seg_num_lines s)) m) as (_ & _ & _ & H).
  rewrite H. pose proof (in_segment_lines x s Hx) as Hl.
  unfold in_segment in Hx. unfold seg_num_lines, seg_first_line in *.
  destruct (Z.leb_spec (map_size_ s) 0); [lia|].
  destruct (decide _) as [_|Hout]; [reflexivity|]. exfalso. apply Hout. lia.
Qed.

(** The flush of a segment persists nothing outside the lines of the
    segment. *)
Lemma SegmentMapping_Flush_outside s m0 m x :
  ~ (0 < map_size_ s /\ seg_first_line s <= line_of x <= seg_last_line s) ->
  persisted (ram (run (SegmentMapping_Flush s m0) m)) x = persisted (ram m) x.
Proof.
  intros Hx. unfold SegmentMapping_Flush.
  destruct (run_flush_lines (paddr_ s) (Z.to_nat (seg_num_lines s)) m) as (_ & _ & _ & H).
  rewrite H. unfold seg_num_lines, seg_first_line in *.
  destruct (Z.leb_spec (map_size_ s) 0).
  - destruct (decide _); [lia|reflexivity].
  - destruct (decide _) as [Hin|]; [|reflexivity]. exfalso. apply Hx. lia.
Qed.

Lemma SegmentMapping_Flush_view s m0 m :
  view (ram (run (SegmentMapping_Flush s m0) m)) = view (ram m)
  /\ same_records m (run (SegmentMapping_Flush s m0) m).
Proof.
  unfold SegmentMapping_Flush.
  destruct (run_flush_lines (paddr_ s) (Z.to_nat (seg_num_lines s)) m) as (H1 & H2 & _).
  split; assumption.
Qed.

Lemma run_ProcessMappingInfo_Flush mi m :
  run (ProcessMappingInfo_Flush mi m) m
  = run (SegmentMapping_Flush (heap mi) m)
      (run (SegmentMapping_Flush (data mi) m)
         (run (SegmentMapping_Flush (code mi) m) m)).
Proof. unfold ProcessMappingInfo_Flush. rewrite !run_then. reflexivity. Qed.

Lemma ProcessMappingInfo_Flush_view mi m :
  view (ram (run (ProcessMappingInfo_Flush mi m) m)) = view (ram m)
  /\ same_records m (run (ProcessMappingInfo_Flush mi m) m).
Proof.
  rewrite run_ProcessMappingInfo_Flush.
  set (m1 := run (SegmentMapping_Flush (code mi) m) m).
  set (m2 := run (SegmentMapping_Flush (data mi) m) m1).
  destruct (SegmentMapping_Flush_view (code mi) m m) as [V1 R1].
  destruct (SegmentMapping_Flush_view (data mi) m m1) as [V2 R2].
  destruct (SegmentMapping_Flush_view (heap mi) m m2) as [V3 R3].
  fold m1 in V1, R1. fold m2 in V2, R2.
  split; [congruence|]. eauto using same_records_trans.
Qed.

(** What ProcessMappingInfo::Flush does persist: the code, data and heap
    segments. *)
Lemma ProcessMappingInfo_Flush_persists mi m x :
  in_segment x (code mi) \/ in_segment x (data mi) \/ in_segment x (heap mi) ->
  persisted (ram (run (ProcessMappingInfo_Flush mi m) m)) x = view (ram m) x.
Proof.
  rewrite run_ProcessMappingInfo_Flush.
  set (m1 := run (SegmentMapping_Flush (code mi) m) m).
  set (m2 := run (SegmentMapping_Flush (data mi) m) m1).
  destruct (SegmentMapping_Flush_view (code mi) m m) as [V1 _].
  destruct (SegmentMapping_Flush_view (data mi) m m1) as [V2 _].
  fold m1 in V1. fold m2 in V2.
  pose proof (run_flush_lines (paddr_ (heap mi)) (Z.to_nat (seg_num_lines (heap mi))) m2)
    as (_ & _ & _ & P3).
  pose proof (run_flush_lines (paddr_ (data mi)) (Z.to_nat (seg_num_lines (data mi))) m1)
    as (_ & _ & _ & P2).
  intros [Hx|[Hx|Hx]].
  - unfold SegmentMapping_Flush at 1. rewrite P3. destruct (decide _); [congruence|].
    unfold m2. unfold SegmentMapping_Flush at 1. rewrite P2.
    destruct (decide _); [congruence|].
    apply SegmentMapping_Flush_persists, Hx.
  - unfold SegmentMapping_Flush at 1. rewrite P3. destruct (decide _); [congruence|].
    unfold m2. rewrite SegmentMapping_Flush_persists by exact Hx. congruence.
  - rewrite SegmentMapping_Flush_persists by exact Hx. congruence.
Qed.

(** ... and what it leaves out: a byte on none of the lines of the code,
    data and heap segments is as persisted as before.  The stack segment is
    not among the segments flushed. *)
Lemma ProcessMappingInfo_Flush_outside mi m x :
  (forall s, In s [code mi; data mi; heap mi] ->
     ~ (0 < map_size_ s /\ seg_first_line s <= line_of x <= seg_last_line s)) ->
  persisted (ram (run (ProcessMappingInfo_Flush mi m) m)) x = persisted (ram m) x.
Proof.
  intros H. rewrite run_ProcessMappingInfo_Flush.
  rewrite !SegmentMapping_Flush_outside; [reflexivity|apply H; cbn; auto ..].
Qed.

(** C2: the flush of an execution context goes through
    ProcessMappingInfo::Flush, which flushes the code, data and heap
    segments and not the stack segment.  On [dirty_machine] the flush of
    context 0 persists the first byte of its data segment, and leaves the
    first byte of its stack segment, which the CPU sees as 1, persisted as
    0. *)
Theorem Flush_leaves_stack_unflushed :
  let m' := run (ExecutionContext_Flush 0 dirty_machine) dirty_machine in
  let mi := map_info_ (ctx_ dirty_machine 0%nat) in
  in_segment 0x12000 (data mi) /\ in_segment 0x13000 (stack mi)
  /\ view (ram m') 0x12000 = 1 /\ persisted (ram m') 0x12000 = 1
  /\ view (ram m') 0x13000 = 1 /\ persisted (ram m') 0x13000 = 0.
Proof.
  cbv zeta. split; [unfold in_segment; cbn; lia|].
  split; [unfold in_segment; cbn; lia|].
  repeat split; vm_compute; reflexivity.
Qed.

(** ** Copying a segment *)

Lemma memcpy_flushed_S dst src n :
  memcpy_flushed dst src (S n)
  = memcpy_flushed dst src n
    ++ [OpCopyByte (dst + Z.of_nat n) (src + Z.of_nat n);
        OpCLFlush (dst + Z.of_nat n) false].
Proof. unfold memcpy_flushed. rewrite seq_S, flat_map_app. cbn. reflexivity. Qed.

Lemma run_memcpy_flushed dst src n m :
  dst + Z.of_nat n <= src \/ src + Z.of_nat n <= dst ->
  let m' := run (memcpy_flushed dst src n) m in
  same_records m m'
  /\ stat_copied_bytes m' = stat_copied_bytes m
  /\ stat_num_of_clflush m' = stat_num_of_clflush m
  /\ forall x, view (ram m') x
       = if decide (dst <= x < dst + Z.of_nat n)
         then view (ram m) (src + (x - dst)) else view (ram m) x.
Proof.
  induction n as [|n IH]; intros Hd.
  - cbn. split; [apply same_records_refl|]. split; [reflexivity|]. split; [reflexivity|].
    intros x. destruct (decide _); [lia|reflexivity].
  - rewrite memcpy_flushed_S. cbv zeta in *. rewrite run_app.
    destruct IH as (Hrec & Hs1 & Hs2 & Hview); [lia|].
    set (m1 := run (memcpy_flushed dst src n) m) in *.
    split; [exact Hrec|]. split; [exact Hs1|]. split; [exact Hs2|].
    intros x. cbn [run foldl exec ram CLFlush with_ram store_byte view].
    destruct (decide (dst + Z.of_nat n = x)) as [<-|Hne].
    + rewrite fn_lookup_insert, Hview.
      destruct (decide _); [lia|]. destruct (decide _); [|lia]. f_equal. lia.
    + rewrite fn_lookup_insert_ne by exact Hne. rewrite Hview.
      repeat destruct (decide _); try reflexivity; lia.
Qed.

Lemma same_records_AddCopiedBytes n m : same_records m (exec (OpAddCopiedBytes n) m).
Proof. repeat split. Qed.

Lemma run_CopyDataFrom this from m0 m :
  seg_disjoint this from = true ->
  map_size_ from <= map_size_ this ->
  let m' := run (CopyDataFrom this from m0) m in
  same_records m m'
  /\ stat_copied_bytes m' = u64 (stat_copied_bytes m + map_size_ from)
  /\ forall x, view (ram m') x
       = if decide (paddr_ this <= x < paddr_ this + map_size_ from)
         then view (ram m) (paddr_ from + (x - paddr_ this)) else view (ram m) x.
Proof.
  intros Hd Hsz. unfold CopyDataFrom. cbv zeta. rewrite run_snoc.
  destruct (Z_le_gt_dec (map_size_ from) 0) as [Hz|Hpos].
  - replace (Z.to_nat (map_size_ from)) with 0%nat by lia.
    change (run (memcpy_flushed (paddr_ this) (paddr_ from) 0) m) with m.
    split; [apply same_records_AddCopiedBytes|]. split; [reflexivity|].
    intros x. destruct (decide _); [lia|reflexivity].
  - destruct (run_memcpy_flushed (paddr_ this) (paddr_ from)
                (Z.to_nat (map_size_ from)) m) as (Hrec & Hs1 & _ & Hview).
    { rewrite Z2Nat.id by lia. unfold seg_disjoint in Hd.
      repeat (apply orb_prop in Hd as [Hd|Hd]); apply Z.leb_le in Hd; lia. }
    split; [eapply same_records_trans; [exact Hrec|apply same_records_AddCopiedBytes]|].
    split; [cbn; rewrite Hs1; reflexivity|].
    intros x. cbn [exec ram]. rewrite Hview, Z2Nat.id by lia. reflexivity.
Qed.

(** ** CopyContextFrom *)

Lemma copy_pre_facts this from :
  copy_pre this from = true ->
  map_size_ (data from) <= map_size_ (data this)
  /\ map_size_ (stack from) <= map_size_ (stack this)
  /\ seg_disjoint (data this) (data from) = true
  /\ seg_disjoint (data this) (stack from) = true
  /\ seg_disjoint (stack this) (stack from) = true
  /\ seg_disjoint (data this) (stack this) = true
  /\ seg_disjoint (code this) (data this) = true
  /\ seg_disjoint (code this) (stack this) = true
  /\ seg_disjoint (heap this) (data this) = true
  /\ seg_disjoint (heap this) (stack this) = true.
Proof. unfold copy_pre. rewrite !andb_true_iff, !Z.leb_le. tauto. Qed.

Lemma run_ram_ops ops m : Forall ram_op ops -> same_records m (run ops m).
Proof.
  intros H. revert m. induction H as [|op ops Hop _ IH]; intros m.
  - apply same_records_refl.
  - rewrite run_cons. eapply same_records_trans; [|apply IH].
    destruct op; try contradiction; repeat split.
Qed.

Lemma memcpy_flushed_ram_ops dst src n : Forall ram_op (memcpy_flushed dst src n).
Proof.
  unfold memcpy_flushed. apply Forall_flat_map, Forall_forall.
  intros i _. repeat constructor.
Qed.

Lemma CopyDataFrom_ram_ops this from m0 : Forall ram_op (CopyDataFrom this from m0).
Proof.
  unfold CopyDataFrom. apply Forall_app. split; [apply memcpy_flushed_ram_ops|].
  repeat constructor.
Qed.

Lemma after_cpu_copy_ctx this from m j :
  ctx_ (after_cpu_copy this from m) j
  = if decide (j = this)
    then set_cpu_context
           (set_cr3 (cr3 (cpu_context_ (ctx_ m this))) (cpu_context_ (ctx_ m from)))
           (ctx_ m this)
    else ctx_ m j.
Proof.
  unfold after_cpu_copy. cbn [exec with_ctx ctx_].
  destruct (decide (j = this)) as [->|Hne].
  - rewrite !fn_lookup_insert. reflexivity.
  - rewrite !fn_lookup_insert_ne by congruence. reflexivity.
Qed.

Lemma after_cpu_copy_map_info this from m j :
  map_info_ (ctx_ (after_cpu_copy this from m) j) = map_info_ (ctx_ m j).
Proof.
  rewrite after_cpu_copy_ctx. destruct (decide (j = this)) as [->|]; reflexivity.
Qed.

Lemma after_cpu_copy_rest this from m :
  ram (after_cpu_copy this from m) = ram m
  /\ ctx_pmem (after_cpu_copy this from m) = ctx_pmem m
  /\ valid_ctx_idx_pmem (after_cpu_copy this from m) = valid_ctx_idx_pmem m
  /\ signature_pmem (after_cpu_copy this from m) = signature_pmem m
  /\ valid_ctx_idx_ (after_cpu_copy this from m) = valid_ctx_idx_ m.
Proof. repeat split. Qed.

(** CopyContextFrom, statement by statement. *)
Lemma run_CopyContextFrom this from m :
  let mt := map_info_ (ctx_ m this) in
  let mf := map_info_ (ctx_ m from) in
  let m1 := after_cpu_copy this from m in
  let m2 := run (CopyDataFrom (data mt) (data mf) m1) m1 in
  run (CopyContextFrom this from m) m
  = run (CopyDataFrom (stack mt) (stack mf) m2) m2.
Proof.
  cbv zeta. unfold CopyContextFrom. rewrite !run_then.
  change (run (step (OpStoreCR3 this (cr3 (cpu_context_ (ctx_ m this))))
                (run (step (OpAssignCPUContext this from) m) m))
              (run (step (OpAssignCPUContext this from) m) m))
    with (after_cpu_copy this from m).
  set (m1 := after_cpu_copy this from m).
  rewrite !(after_cpu_copy_map_info this from m).
  set (m2 := run (CopyDataFrom _ _ m1) m1).
  assert (Hc : ctx_ m2 = ctx_ m1).
  { apply (run_ram_ops _ m1), CopyDataFrom_ram_ops. }
  rewrite Hc. unfold m1 at 1 2. rewrite !(after_cpu_copy_map_info this from m).
  reflexivity.
Qed.

(** The CPU context after the copy: that of the source, but for cr3; the
    rest of the destination's record and every other record stay. *)
Lemma CopyContextFrom_records this from m :
  let m' := run (CopyContextFrom this from m) m in
  (forall j, ctx_ m' j
     = if decide (j = this)
       then set_cpu_context
              (set_cr3 (cr3 (cpu_context_ (ctx_ m this))) (cpu_context_ (ctx_ m from)))
              (ctx_ m this)
       else ctx_ m j)
  /\ ctx_pmem m' = ctx_pmem m.
Proof.
  cbv zeta. rewrite run_CopyContextFrom.
  set (m1 := after_cpu_copy this from m).
  set (m2 := run (CopyDataFrom _ _ m1) m1).
  destruct (run_ram_ops _ m1 (CopyDataFrom_ram_ops (data (map_info_ (ctx_ m this)))
              (data (map_info_ (ctx_ m from))) m1)) as (C1 & P1 & _).
  fold m2 in C1, P1.
  destruct (run_ram_ops _ m2 (CopyDataFrom_ram_ops (stack (map_info_ (ctx_ m this)))
              (stack (map_info_ (ctx_ m from))) m2)) as (C2 & P2 & _).
  split.
  - intros j. rewrite C2, C1. apply after_cpu_copy_ctx.
  - rewrite P2, P1. reflexivity.
Qed.

(** The memory after the copy, under the precondition. *)
Lemma CopyContextFrom_memory this from m x :
  let mt := map_info_ (ctx_ m this) in
  let mf := map_info_ (ctx_ m from) in
  copy_pre mt mf = true ->
  view (ram (run (CopyContextFrom this from m) m)) x
  = if decide (paddr_ (data mt) <= x < paddr_ (data mt) + map_size_ (data mf))
    then view (ram m) (paddr_ (data mf) + (x - paddr_ (data mt)))
    else if decide (paddr_ (stack mt) <= x < paddr_ (stack mt) + map_size_ (stack mf))
    then view (ram m) (paddr_ (stack mf) + (x - paddr_ (stack mt)))
    else view (ram m) x.
Proof.
  intros mt mf Hpre. rewrite run_CopyContextFrom. fold mt mf.
  set (m1 := after_cpu_copy this from m).
  set (m2 := run (CopyDataFrom (data mt) (data mf) m1) m1).
  destruct (copy_pre_facts _ _ Hpre) as (Sd & Ss & Ddd & Dds & Dss & Dts & _).
  destruct (run_CopyDataFrom (data mt) (data mf) m1 m1) as (_ & _ & V1);
    [assumption..|].
  destruct (run_CopyDataFrom (stack mt) (stack mf) m2 m2) as (_ & _ & V2);
    [assumption..|].
  fold m2 in V1. rewrite V2, !V1.
  change (ram m1) with (ram m).
  pose proof (seg_disjoint_sound (data mt) (stack mf)) as D1.
  pose proof (seg_disjoint_sound (data mt) (stack mt)) as D2.
  unfold in_segment in D1, D2.
  destruct (decide (paddr_ (stack mt) <= x < paddr_ (stack mt) + map_size_ (stack mf)))
    as [Hs|Hs].
  - destruct (decide (paddr_ (data mt) <= x < _)) as [Hd|Hd].
    + exfalso. apply (D2 x); [assumption|lia..].
    + destruct (decide _) as [Hd'|]; [|reflexivity].
      exfalso. apply (D1 (paddr_ (stack mf) + (x - paddr_ (stack mt)))); [assumption|lia..].
  - reflexivity.
Qed.

Lemma CopyContextFrom_map_info this from m j :
  map_info_ (ctx_ (run (CopyContextFrom this from m) m) j) = map_info_ (ctx_ m j).
Proof.
  destruct (CopyContextFrom_records this from m) as [H _]. rewrite H.
  destruct (decide _) as [->|]; reflexivity.
Qed.

(** C3: CopyContextFrom copies the whole CPU context of the source except
    cr3, which keeps the destination's value; and, the segments being laid
    out as the copy requires, it copies the contents of the data and stack
    segments and leaves the contents of the destination's heap and code
    segments unchanged. *)
Theorem CopyContextFrom_copies (m : Machine) (this from : nat) :
  let t := ctx_ m this in
  let f := ctx_ m from in
  let m' := run (CopyContextFrom this from m) m in
  (cpu_context_ (ctx_ m' this) = set_cr3 (cr3 (cpu_context_ t)) (cpu_context_ f)
   /\ greg (cpu_context_ (ctx_ m' this)) = greg (cpu_context_ f)
   /\ int_ctx (cpu_context_ (ctx_ m' this)) = int_ctx (cpu_context_ f)
   /\ fpu_context (cpu_context_ (ctx_ m' this)) = fpu_context (cpu_context_ f)
   /\ cr3 (cpu_context_ (ctx_ m' this)) = cr3 (cpu_context_ t))
  /\ (copy_pre (map_info_ t) (map_info_ f) = true ->
      (forall i, 0 <= i < map_size_ (data (map_info_ f)) ->
         view (ram m') (paddr_ (data (map_info_ t)) + i)
         = view (ram m) (paddr_ (data (map_info_ f)) + i))
      /\ (forall i, 0 <= i < map_size_ (stack (map_info_ f)) ->
            view (ram m') (paddr_ (stack (map_info_ t)) + i)
            = view (ram m) (paddr_ (stack (map_info_ f)) + i))
      /\ (forall x, in_segment x (heap (map_info_ t)) \/ in_segment x (code (map_info_ t)) ->
            view (ram m') x = view (ram m) x)).
Proof.
  intros t f m'. split.
  - destruct (CopyContextFrom_records this from m) as [H _]. fold m' in H.
    rewrite H. destruct (decide (this = this)); [|congruence].
    repeat split.
  - intros Hpre. pose proof (CopyContextFrom_memory this from m) as Hmem.
    cbv zeta in Hmem. fold t f m' in Hmem.
    destruct (copy_pre_facts _ _ Hpre)
      as (Sd & Ss & _ & _ & _ & Dts & Dcd & Dcs & Dhd & Dhs).
    split; [|split].
    + intros i Hi. rewrite Hmem by exact Hpre.
      destruct (decide _); [f_equal; lia|lia].
    + intros i Hi. rewrite Hmem by exact Hpre.
      destruct (decide _) as [Hd|_].
      * exfalso.
        apply (seg_disjoint_sound (data (map_info_ t)) (stack (map_info_ t))
                 (paddr_ (stack (map_info_ t)) + i)); [assumption|unfold in_segment; lia..].
      * destruct (decide _); [f_equal; lia|lia].
    + intros x Hx. rewrite Hmem by exact Hpre.
      destruct (decide _) as [Hd|_]; [|destruct (decide _) as [Hs|_]; [|reflexivity]];
        exfalso; destruct Hx as [Hx|Hx].
      * apply (seg_disjoint_sound (heap (map_info_ t)) (data (map_info_ t)) x);
          [assumption..|unfold in_segment; lia].
      * apply (seg_disjoint_sound (code (map_info_ t)) (data (map_info_ t)) x);
          [assumption..|unfold in_segment; lia].
      * apply (seg_disjoint_sound (heap (map_info_ t)) (stack (map_info_ t)) x);
          [assumption..|unfold in_segment; lia].
      * apply (seg_disjoint_sound (code (map_info_ t)) (stack (map_info_ t)) x);
          [assumption..|unfold in_segment; lia].
Qed.

Lemma CopyContextFrom_copies_witness :
  let m' := run (CopyContextFrom 0 1 varied_machine) varied_machine in
  copy_pre (map_info_ (two_slots 0%nat)) (map_info_ (two_slots 1%nat)) = true
  /\ view (ram m') (0x12000 + 5) = view (ram varied_machine) (0x22000 + 5)
  /\ view (ram m') 0x14007 = view (ram varied_machine) 0x14007.
Proof.
  destruct (CopyContextFrom_copies varied_machine 0 1) as [_ H].
  destruct (H eq_refl) as (Hd & _ & Hh).
  split; [reflexivity|]. split.
  - exact (Hd 5 ltac:(cbn; lia)).
  - apply Hh. left. unfold in_segment. cbn. lia.
Defined.

(** C4: copying context a into b and then b into a' gives a' the bytes of
    the data and stack segments of a, and all CPU registers of a except cr3
    (which stays that of a'), provided both copies meet their
    precondition. *)
Theorem CopyContextFrom_round_trip (m : Machine) (a b a' : nat) :
  let m1 := run (CopyContextFrom b a m) m in
  let m2 := run (CopyContextFrom a' b m1) m1 in
  copy_pre (map_info_ (ctx_ m b)) (map_info_ (ctx_ m a)) = true ->
  copy_pre (map_info_ (ctx_ m a')) (map_info_ (ctx_ m b)) = true ->
  (forall i, 0 <= i < map_size_ (data (map_info_ (ctx_ m a))) ->
     view (ram m2) (paddr_ (data (map_info_ (ctx_ m a'))) + i)
     = view (ram m) (paddr_ (data (map_info_ (ctx_ m a))) + i))
  /\ (forall i, 0 <= i < map_size_ (stack (map_info_ (ctx_ m a))) ->
        view (ram m2) (paddr_ (stack (map_info_ (ctx_ m a'))) + i)
        = view (ram m) (paddr_ (stack (map_info_ (ctx_ m a))) + i))
  /\ (map_size_ (data (map_info_ (ctx_ m a'))) = map_size_ (data (map_info_ (ctx_ m a))) ->
      seg_bytes (view (ram m2)) (data (map_info_ (ctx_ m a')))
      = seg_bytes (view (ram m)) (data (map_info_ (ctx_ m a))))
  /\ (map_size_ (stack (map_info_ (ctx_ m a'))) = map_size_ (stack (map_info_ (ctx_ m a))) ->
      seg_bytes (view (ram m2)) (stack (map_info_ (ctx_ m a')))
      = seg_bytes (view (ram m)) (stack (map_info_ (ctx_ m a))))
  /\ greg (cpu_context_ (ctx_ m2 a')) = greg (cpu_context_ (ctx_ m a))
  /\ int_ctx (cpu_context_ (ctx_ m2 a')) = int_ctx (cpu_context_ (ctx_ m a))
  /\ fpu_context (cpu_context_ (ctx_ m2 a')) = fpu_context (cpu_context_ (ctx_ m a))
  /\ cr3 (cpu_context_ (ctx_ m2 a')) = cr3 (cpu_context_ (ctx_ m a')).
Proof.
  intros m1 m2 Hab Hba.
  pose proof (CopyContextFrom_memory b a m) as M1. cbv zeta in M1. fold m1 in M1.
  pose proof (CopyContextFrom_memory a' b m1) as M2. cbv zeta in M2. fold m2 in M2.
  assert (E1 : map_info_ (ctx_ m1 a') = map_info_ (ctx_ m a'))
    by apply CopyContextFrom_map_info.
  assert (E2 : map_info_ (ctx_ m1 b) = map_info_ (ctx_ m b))
    by apply CopyContextFrom_map_info.
  rewrite E1, E2 in M2.
  destruct (CopyContextFrom_records b a m) as [R1 _]. fold m1 in R1.
  destruct (CopyContextFrom_records a' b m1) as [R2 _]. fold m2 in R2.
  destruct (copy_pre_facts _ _ Hab) as (Sd1 & Ss1 & _ & _ & _ & Dts1 & _).
  destruct (copy_pre_facts _ _ Hba) as (Sd2 & Ss2 & _ & _ & _ & Dts2 & _).
  assert (Hdata : forall i, 0 <= i < map_size_ (data (map_info_ (ctx_ m a))) ->
     view (ram m2) (paddr_ (data (map_info_ (ctx_ m a'))) + i)
     = view (ram m) (paddr_ (data (map_info_ (ctx_ m a))) + i)).
  { intros i Hi. rewrite M2 by exact Hba.
    destruct (decide _); [|lia]. rewrite M1 by exact Hab.
    destruct (decide _); [f_equal; lia|lia]. }
  assert (Hstack : forall i, 0 <= i < map_size_ (stack (map_info_ (ctx_ m a))) ->
     view (ram m2) (paddr_ (stack (map_info_ (ctx_ m a'))) + i)
     = view (ram m) (paddr_ (stack (map_info_ (ctx_ m a))) + i)).
  2: split; [exact Hdata|split; [exact Hstack|split; [|split]]].
  - intros i Hi. rewrite M2 by exact Hba.
    destruct (decide _) as [Hd|_].
    { exfalso.
      apply (seg_disjoint_sound (data (map_info_ (ctx_ m a'))) (stack (map_info_ (ctx_ m a')))
               (paddr_ (stack (map_info_ (ctx_ m a'))) + i));
        [assumption|unfold in_segment; lia..]. }
    destruct (decide _); [|lia]. rewrite M1 by exact Hab.
    destruct (decide _) as [Hd|_].
    { exfalso.
      apply (seg_disjoint_sound (data (map_info_ (ctx_ m b))) (stack (map_info_ (ctx_ m b)))
               (paddr_ (stack (map_info_ (ctx_ m b))) + (paddr_ (stack (map_info_ (ctx_ m a'))) + i - paddr_ (stack (map_info_ (ctx_ m a'))))));
        [assumption|unfold in_segment; lia..]. }
    destruct (decide _); [f_equal; lia|lia].
  - intros E. unfold seg_bytes. rewrite E. apply map_ext_in. intros i Hi.
    apply in_seq in Hi. apply Hdata. lia.
  - intros E. unfold seg_bytes. rewrite E. apply map_ext_in. intros i Hi.
    apply in_seq in Hi. apply Hstack. lia.
  - rewrite R2. destruct (decide (a' = a')); [|congruence].
    rewrite !R1. destruct (decide (b = b)); [|congruence].
    destruct (decide (a' = b)) as [->|]; repeat split.
Qed.

Lemma CopyContextFrom_round_trip_witness :
  let m1 := run (CopyContextFrom 1 0 varied_machine) varied_machine in
  let m2 := run (CopyContextFrom 0 1 m1) m1 in
  copy_pre (map_info_ (two_slots 1%nat)) (map_info_ (two_slots 0%nat)) = true
  /\ copy_pre (map_info_ (two_slots 0%nat)) (map_info_ (two_slots 1%nat)) = true
  /\ view (ram m2) (0x12000 + 5) = view (ram varied_machine) (0x12000 + 5)
  /\ int_ctx (cpu_context_ (ctx_ m2 0%nat)) = int_ctx (cpu_context_ (two_slots 0%nat)).
Proof.
  destruct (CopyContextFrom_round_trip varied_machine 0 1 0 eq_refl eq_refl)
    as (Hd & _ & _ & _ & _ & Hi & _).
  split; [reflexivity|]. split; [reflexivity|]. split.
  - exact (Hd 5 ltac:(cbn; lia)).
  - exact Hi.
Defined.

(** ** Checkpoint commit *)

Lemma seg_bytes_ext mem mem' s :
  (forall x, in_segment x s -> mem' x = mem x) -> seg_bytes mem' s = seg_bytes mem s.
Proof.
  intros H. unfold seg_bytes. apply map_ext_in. intros i Hi. apply in_seq in Hi.
  apply H. unfold in_segment. lia.
Qed.

Lemma snapshot_ext c mem mem' :
  (forall s x, In s (segments (map_info_ c)) -> in_segment x s -> mem' x = mem x) ->
  snapshot c mem' = snapshot c mem.
Proof.
  intros H. unfold snapshot.
  f_equal; apply seg_bytes_ext; intros x Hx; eapply H; try exact Hx; cbn; auto.
Qed.

(** What recovery finds after a power loss. *)
Lemma Recover_PowerLoss m :
  Recover (PowerLoss m)
  = if (signature_pmem m =? kSignature) && valid_index_ok (valid_ctx_idx_pmem m)
    then Some (valid_ctx_idx_pmem m, durable_image m (Z.to_nat (valid_ctx_idx_pmem m)))
    else None.
Proof. reflexivity. Qed.

(** A step that spares context [i] leaves what recovery reads of it. *)
Lemma exec_spares op i m :
  op_spares (map_info_ (ctx_pmem m i)) i op ->
  durable_image (exec op m) i = durable_image m i
  /\ ctx_pmem (exec op m) i = ctx_pmem m i
  /\ valid_ctx_idx_pmem (exec op m) = valid_ctx_idx_pmem m
  /\ signature_pmem (exec op m) = signature_pmem m.
Proof.
  intros H. destruct op; cbn [op_spares] in H; try contradiction;
    try (repeat split; fail).
  - (* OpCLFlush *)
    split; [|repeat split]. unfold durable_image. cbn [exec ctx_pmem ram CLFlush persisted].
    apply snapshot_ext. intros s x Hs Hx.
    destruct (Z.eqb_spec (line_of x) (line_of a)) as [E|_]; [|reflexivity].
    exfalso. exact (H s x Hs Hx E).
  - (* OpFlushContext *)
    unfold durable_image. cbn [exec ctx_pmem ram valid_ctx_idx_pmem signature_pmem].
    rewrite fn_lookup_insert_ne by exact H. repeat split.
Qed.

Lemma run_spares mi i ops m :
  Forall (op_spares mi i) ops ->
  mi = map_info_ (ctx_pmem m i) ->
  durable_image (run ops m) i = durable_image m i
  /\ ctx_pmem (run ops m) i = ctx_pmem m i
  /\ valid_ctx_idx_pmem (run ops m) = valid_ctx_idx_pmem m
  /\ signature_pmem (run ops m) = signature_pmem m.
Proof.
  intros H. revert m. induction H as [|op ops Hop _ IH]; intros m Hmi.
  - repeat split.
  - rewrite run_cons. subst mi.
    destruct (exec_spares op i m Hop) as (E1 & E2 & E3 & E4).
    destruct (IH (exec op m)) as (F1 & F2 & F3 & F4); [rewrite E2; reflexivity|].
    repeat split; congruence.
Qed.

(** The steps of the three phases of a checkpoint. *)
Lemma ExecutionContext_Flush_steps this m :
  let mi := map_info_ (ctx_ m this) in
  ExecutionContext_Flush this m
  = flush_lines (paddr_ (code mi)) (Z.to_nat (seg_num_lines (code mi)))
    ++ flush_lines (paddr_ (data mi)) (Z.to_nat (seg_num_lines (data mi)))
    ++ flush_lines (paddr_ (heap mi)) (Z.to_nat (seg_num_lines (heap mi)))
    ++ [OpFlushContext this].
Proof.
  cbv zeta. unfold ExecutionContext_Flush, ProcessMappingInfo_Flush, then_, step,
    SegmentMapping_Flush.
  rewrite <- !app_assoc. reflexivity.
Qed.

Lemma SwitchContext_steps_phases m :
  let v := valid_ctx_idx_ m in
  let w := 1 - v in
  let flush := ExecutionContext_Flush (Z.to_nat w) m in
  let committed := run (flush ++ [OpStoreValidIdx w; OpFlushValidIdx]) m in
  SwitchContext_steps m
  = flush ++ [OpStoreValidIdx w; OpFlushValidIdx]
    ++ CopyContextFrom (Z.to_nat v) (Z.to_nat w) committed.
Proof.
  cbv zeta.
  rewrite (run_app (ExecutionContext_Flush (Z.to_nat (1 - valid_ctx_idx_ m)) m)).
  reflexivity.
Qed.

Lemma CopyContextFrom_steps this from m :
  let mt := map_info_ (ctx_ m this) in
  let mf := map_info_ (ctx_ m from) in
  exists m1 m2,
    CopyContextFrom this from m
    = [OpAssignCPUContext this from; OpStoreCR3 this (cr3 (cpu_context_ (ctx_ m this)))]
      ++ CopyDataFrom (data mt) (data mf) m1
      ++ CopyDataFrom (stack mt) (stack mf) m2.
Proof.
  cbv zeta. unfold CopyContextFrom, then_, step. cbn [app].
  eexists _, _. f_equal. f_equal.
  change (run [OpStoreCR3 this (cr3 (cpu_context_ (ctx_ m this)))]
            (run [OpAssignCPUContext this from] m))
    with (after_cpu_copy this from m).
  set (m1 := after_cpu_copy this from m).
  rewrite !(after_cpu_copy_map_info this from m).
  set (m2 := run (CopyDataFrom _ _ m1) m1).
  assert (Hc : ctx_ m2 = ctx_ m1).
  { apply (run_ram_ops _ m1), CopyDataFrom_ram_ops. }
  rewrite Hc. unfold m1 at 1 2. rewrite !(after_cpu_copy_map_info this from m).
  reflexivity.
Qed.

Lemma lines_apart_sym s t : lines_apart s t = lines_apart t s.
Proof.
  unfold lines_apart.
  destruct (map_size_ s <=? 0), (map_size_ t <=? 0),
    (seg_last_line s <? seg_first_line t), (seg_last_line t <? seg_first_line s);
    reflexivity.
Qed.

Lemma mappings_apart_lines a b s t :
  mappings_apart a b = true -> In s (segments a) -> In t (segments b) ->
  lines_apart s t = true.
Proof.
  unfold mappings_apart. intros H Hs Ht.
  rewrite forallb_forall in H. specialize (H s Hs).
  rewrite forallb_forall in H. exact (H t Ht).
Qed.

(** The flush of a segment spares a context whose segments share no line
    with it. *)
Lemma flush_lines_spare mi i s :
  (forall t, In t (segments mi) -> lines_apart s t = true) ->
  Forall (op_spares mi i) (flush_lines (paddr_ s) (Z.to_nat (seg_num_lines s))).
Proof.
  intros H. unfold flush_lines. apply Forall_forall. intros op Hop.
  apply list_elem_of_In, in_map_iff in Hop as (j & <- & Hj). apply in_seq in Hj.
  cbn [op_spares]. intros t x Ht Hx E.
  rewrite line_of_add in E.
  pose proof (in_segment_lines x t Hx) as Hl.
  specialize (H t Ht). unfold lines_apart in H.
  unfold in_segment in Hx. unfold seg_num_lines in Hj.
  fold (seg_first_line s) in E.
  assert (Hs : 0 < map_size_ s /\ Z.of_nat j < seg_last_line s - seg_first_line s + 1).
  { destruct (Z.leb_spec (map_size_ s) 0); [cbn in Hj|]; lia. }
  repeat (apply orb_prop in H as [H|H]);
    first [apply Z.leb_le in H | apply Z.ltb_lt in H]; lia.
Qed.

Lemma ExecutionContext_Flush_spares this m mi i :
  i <> this ->
  (forall s t, In s (segments (map_info_ (ctx_ m this))) -> In t (segments mi) ->
     lines_apart s t = true) ->
  Forall (op_spares mi i) (ExecutionContext_Flush this m).
Proof.
  intros Hne H. rewrite ExecutionContext_Flush_steps. cbv zeta.
  repeat (apply Forall_app; split);
    try (apply flush_lines_spare; intros t Ht; apply H; [cbn; auto|exact Ht]).
  constructor; [cbn; congruence|constructor].
Qed.

Lemma memcpy_flushed_spares mi i dst src (n : nat) seg :
  paddr_ seg = dst -> Z.of_nat n <= map_size_ seg ->
  (forall t, In t (segments mi) -> lines_apart t seg = true) ->
  Forall (op_spares mi i) (memcpy_flushed dst src n).
Proof.
  intros <- Hn H. unfold memcpy_flushed. apply Forall_flat_map, Forall_forall.
  intros j Hj. apply list_elem_of_In, in_seq in Hj.
  constructor; [exact I|]. constructor; [|constructor].
  cbn [op_spares]. intros t x Ht Hx.
  apply (lines_apart_sound t seg); [apply H, Ht|exact Hx|].
  unfold in_segment. lia.
Qed.

Lemma CopyDataFrom_spares mi i this from m0 :
  map_size_ from <= map_size_ this ->
  (forall t, In t (segments mi) -> lines_apart t this = true) ->
  Forall (op_spares mi i) (CopyDataFrom this from m0).
Proof.
  intros Hsz H. unfold CopyDataFrom. apply Forall_app. split.
  - destruct (Z_le_gt_dec (map_size_ from) 0).
    + replace (Z.to_nat (map_size_ from)) with 0%nat by lia. constructor.
    + apply (memcpy_flushed_spares mi i _ _ _ this); [reflexivity|lia|exact H].
  - constructor; [exact I|constructor].
Qed.

Lemma CopyContextFrom_spares this from m mi i :
  map_size_ (data (map_info_ (ctx_ m from))) <= map_size_ (data (map_info_ (ctx_ m this))) ->
  map_size_ (stack (map_info_ (ctx_ m from))) <= map_size_ (stack (map_info_ (ctx_ m this))) ->
  (forall s t, In s (segments (map_info_ (ctx_ m this))) -> In t (segments mi) ->
     lines_apart t s = true) ->
  Forall (op_spares mi i) (CopyContextFrom this from m).
Proof.
  intros Hd Hs H.
  destruct (CopyContextFrom_steps this from m) as (m1 & m2 & ->).
  apply Forall_app; split; [|apply Forall_app; split].
  - repeat constructor.
  - apply CopyDataFrom_spares; [exact Hd|]. intros t Ht. apply H; [cbn; auto|exact Ht].
  - apply CopyDataFrom_spares; [exact Hs|]. intros t Ht. apply H; [cbn; auto|exact Ht].
Qed.

Lemma valid_index_cases idx :
  valid_index_ok idx = true -> idx = 0 \/ idx = 1.
Proof.
  unfold valid_index_ok, kNumOfExecutionContext. intros H.
  apply andb_prop in H as [H1 H2]. apply Z.leb_le in H1. apply Z.ltb_lt in H2. lia.
Qed.

(** The two slots of an initialised record own distinct lines, whichever of
    them is the valid one. *)
Lemma slots_apart m :
  checkpoint_pre m ->
  let v := Z.to_nat (valid_ctx_idx_ m) in
  let w := Z.to_nat (1 - valid_ctx_idx_ m) in
  v <> w
  /\ forall s t, In s (segments (map_info_ (ctx_ m v))) ->
                 In t (segments (map_info_ (ctx_ m w))) ->
                 lines_apart s t = true /\ lines_apart t s = true.
Proof.
  intros (_ & _ & _ & Hok & _ & Hap & _). cbv zeta.
  destruct (valid_index_cases _ Hok) as [E|E]; rewrite E; cbn [Z.sub Z.to_nat Z.opp Z.add];
    change (Z.to_nat 0) with 0%nat; change (Z.to_nat 1) with 1%nat.
  - split; [discriminate|]. intros s t Hs Ht.
    pose proof (mappings_apart_lines _ _ s t Hap Hs Ht) as H.
    split; [exact H|rewrite lines_apart_sym; exact H].
  - split; [discriminate|]. intros s t Hs Ht.
    pose proof (mappings_apart_lines _ _ t s Hap Ht Hs) as H.
    split; [rewrite lines_apart_sym; exact H|exact H].
Qed.

Lemma flush_lines_ram_ops a nl : Forall ram_op (flush_lines a nl).
Proof.
  unfold flush_lines. apply Forall_forall. intros op Hop.
  apply list_elem_of_In, in_map_iff in Hop as (j & <- & _). exact I.
Qed.

(** The flush of a context leaves every record the CPU sees and makes the
    record of the context durable. *)
Lemma ExecutionContext_Flush_records this m :
  let m' := run (ExecutionContext_Flush this m) m in
  ctx_ m' = ctx_ m /\ ctx_pmem m' this = ctx_ m this
  /\ valid_ctx_idx_ m' = valid_ctx_idx_ m.
Proof.
  cbv zeta. rewrite ExecutionContext_Flush_steps. cbv zeta.
  rewrite !app_assoc, run_snoc.
  match goal with |- context [run ?l m] => set (ops := l) end.
  assert (Hram : Forall ram_op ops).
  { unfold ops. repeat (apply Forall_app; split); apply flush_lines_ram_ops. }
  destruct (run_ram_ops ops m Hram) as (C & _ & V & _).
  cbn [exec ctx_ ctx_pmem valid_ctx_idx_]. rewrite fn_lookup_insert, C, V.
  repeat split.
Qed.

(** A flush moves bytes from the CPU's view to persistent memory and does
    nothing else: each byte is afterwards persisted as the CPU sees it or as
    it was persisted before. *)
Lemma ProcessMappingInfo_Flush_either mi m x :
  persisted (ram (run (ProcessMappingInfo_Flush mi m) m)) x = view (ram m) x
  \/ persisted (ram (run (ProcessMappingInfo_Flush mi m) m)) x = persisted (ram m) x.
Proof.
  rewrite run_ProcessMappingInfo_Flush. unfold SegmentMapping_Flush.
  set (m1 := run (flush_lines (paddr_ (code mi)) _) m).
  set (m2 := run (flush_lines (paddr_ (data mi)) _) m1).
  pose proof (run_flush_lines (paddr_ (code mi)) (Z.to_nat (seg_num_lines (code mi))) m)
    as (_ & V1 & _ & P1).
  pose proof (run_flush_lines (paddr_ (data mi)) (Z.to_nat (seg_num_lines (data mi))) m1)
    as (_ & V2 & _ & P2).
  pose proof (run_flush_lines (paddr_ (heap mi)) (Z.to_nat (seg_num_lines (heap mi))) m2)
    as (_ & _ & _ & P3).
  fold m1 in V1, P1. fold m2 in V2, P2.
  rewrite P3, V2, V1. destruct (decide _); [left; reflexivity|].
  rewrite P2, V1. destruct (decide _); [left; reflexivity|].
  rewrite P1. destruct (decide _); [left|right]; reflexivity.
Qed.

Lemma persist_tail_same n c : persist_tail n c c = c.
Proof.
  destruct c as [k [co da [sv sp ss] [hv hp hs]] kr hu].
  cbv [persist_tail cpu_context_ map_info_ kernel_rsp_ heap_used_size_ code data
       stack heap vaddr_ paddr_ map_size_].
  repeat match goal with |- context [if ?b then _ else _] => destruct b end;
    reflexivity.
Qed.

(** The flush of the line of valid_ctx_idx_ leaves the durable record of a
    context that is durable already. *)
Lemma flush_header_line_ctx_pmem m i :
  ctx_pmem m i = ctx_ m i ->
  ctx_pmem (flush_header_line m) i = ctx_ m i.
Proof.
  intros H. unfold flush_header_line. cbn [ctx_pmem].
  destruct (decide (i = 1%nat)) as [->|Hne].
  - rewrite fn_lookup_insert, H. apply persist_tail_same.
  - rewrite fn_lookup_insert_ne by congruence. exact H.
Qed.

(** The memory the flush of a context leaves is that the flush of its
    mapping info leaves: the CPU's view as it was, and the code, data and
    heap segments written back. *)
Lemma ExecutionContext_Flush_ram this m :
  ram (run (ExecutionContext_Flush this m) m)
  = ram (run (ProcessMappingInfo_Flush (map_info_ (ctx_ m this)) m) m).
Proof.
  unfold ExecutionContext_Flush. rewrite run_then. reflexivity.
Qed.

(** What recovery finds when the power fails after k steps of a checkpoint.
    Before the commit point (the store of valid_ctx_idx and the flush of its
    line) it is the old valid context with the image it had when the
    checkpoint began.  From the commit point on it is the working context
    with the record, the code, the data and the heap the CPU saw when the
    checkpoint began; its stack is whatever persistent memory holds of it
    after the flush of the other three segments, which is the stack the CPU
    saw only where that was durable before. *)
Lemma SwitchContext_crash_recovery (m : Machine) (k : nat) :
  checkpoint_pre m ->
  let v := valid_ctx_idx_ m in
  let w := 1 - v in
  let c := ctx_ m (Z.to_nat w) in
  let flushed := run (ProcessMappingInfo_Flush (map_info_ c) m) m in
  SwitchContext_steps m !! (commit_point m - 2)%nat = Some (OpStoreValidIdx w)
  /\ SwitchContext_steps m !! (commit_point m - 1)%nat = Some OpFlushValidIdx
  /\ ((k < commit_point m)%nat ->
      Recover (crash_after k SwitchContext_steps m)
      = Some (v, durable_image m (Z.to_nat v)))
  /\ ((commit_point m <= k)%nat ->
      Recover (crash_after k SwitchContext_steps m)
      = Some (w, mkSnapshot c
                   (seg_bytes (view (ram m)) (code (map_info_ c)))
                   (seg_bytes (view (ram m)) (data (map_info_ c)))
                   (seg_bytes (persisted (ram flushed)) (stack (map_info_ c)))
                   (seg_bytes (view (ram m)) (heap (map_info_ c)))))
  /\ ((forall x, in_segment x (stack (map_info_ c)) ->
         persisted (ram m) x = view (ram m) x) ->
      seg_bytes (persisted (ram flushed)) (stack (map_info_ c))
      = seg_bytes (view (ram m)) (stack (map_info_ c))).
Proof.
  intros Hpre v w c flushed.
  destruct (slots_apart m Hpre) as [Hvw Hapart]. cbv zeta in Hvw, Hapart.
  destruct Hpre as (Hsigv & Hsig & Hvp & Hok & Hmi & _ & Hd & Hs).
  fold v in Hvp, Hok, Hmi, Hd, Hs, Hvw, Hapart. fold w in Hd, Hs, Hvw, Hapart.
  unfold crash_after, commit_point. rewrite SwitchContext_steps_phases. cbv zeta.
  fold v w.
  set (F := ExecutionContext_Flush (Z.to_nat w) m) in *.
  set (ctx_flushed := run F m).
  set (committed := run (F ++ [OpStoreValidIdx w; OpFlushValidIdx]) m).
  set (C := CopyContextFrom (Z.to_nat v) (Z.to_nat w) committed).
  (* the flush phase spares the valid slot *)
  assert (HF : Forall (op_spares (map_info_ (ctx_pmem m (Z.to_nat v))) (Z.to_nat v)) F).
  { apply ExecutionContext_Flush_spares; [exact Hvw|].
    intros s t Hs' Ht. rewrite Hmi in Ht. apply (Hapart t s Ht Hs'). }
  destruct (run_spares _ _ F m HF eq_refl) as (_ & _ & HFv & HFs).
  destruct (ExecutionContext_Flush_records (Z.to_nat w) m) as (HFc & HFp & HFi).
  fold F in HFc, HFp, HFi. fold ctx_flushed in HFc, HFp, HFi, HFv, HFs.
  assert (HFr : ram ctx_flushed = ram flushed) by apply ExecutionContext_Flush_ram.
  assert (HFsig : signature_ ctx_flushed = signature_ m).
  { unfold ctx_flushed, F. rewrite ExecutionContext_Flush_steps. cbv zeta.
    rewrite !app_assoc, run_snoc.
    match goal with |- context [run ?l m] => set (ops := l) end.
    assert (Hram : Forall ram_op ops).
    { unfold ops. repeat (apply Forall_app; split); apply flush_lines_ram_ops. }
    destruct (run_ram_ops ops m Hram) as (_ & _ & _ & _ & S' & _).
    cbn [exec signature_]. exact S'. }
  split; [|split; [|split; [|split]]].
  - rewrite lookup_app_r by lia.
    replace (length F + 2 - 2 - length F)%nat with 0%nat by lia. reflexivity.
  - rewrite lookup_app_r by lia.
    replace (length F + 2 - 1 - length F)%nat with 1%nat by lia. reflexivity.
  - (* before the commit *)
    intros Hk. rewrite Recover_PowerLoss.
    replace (F ++ [OpStoreValidIdx w; OpFlushValidIdx] ++ C)
      with ((F ++ [OpStoreValidIdx w]) ++ OpFlushValidIdx :: C)
      by (rewrite <- app_assoc; reflexivity).
    rewrite take_app_le by (rewrite length_app; cbn; lia).
    assert (HFS : Forall (op_spares (map_info_ (ctx_pmem m (Z.to_nat v))) (Z.to_nat v))
                    (take k (F ++ [OpStoreValidIdx w]))).
    { apply Forall_take, Forall_app. split; [exact HF|repeat constructor]. }
    destruct (run_spares _ _ _ m HFS eq_refl) as (E1 & _ & E3 & E4).
    rewrite E3, E4, Hsig, Hvp, Hok, Z.eqb_refl, E1. reflexivity.
  - (* after the commit *)
    intros Hk. rewrite Recover_PowerLoss.
    rewrite app_assoc.
    rewrite take_app_ge by (rewrite length_app; cbn; lia).
    rewrite run_app. fold committed.
    assert (Hcommitted : committed
                         = flush_header_line (exec (OpStoreValidIdx w) ctx_flushed)).
    { unfold committed. rewrite run_app. reflexivity. }
    assert (Hc : ctx_ committed = ctx_ m).
    { rewrite Hcommitted. cbn [flush_header_line exec ctx_]. exact HFc. }
    assert (Hp : ctx_pmem committed (Z.to_nat w) = ctx_ m (Z.to_nat w)).
    { rewrite Hcommitted.
      rewrite flush_header_line_ctx_pmem; cbn [exec ctx_ ctx_pmem]; rewrite ?HFc;
        [reflexivity|exact HFp]. }
    assert (HC : Forall (op_spares (map_info_ (ctx_pmem committed (Z.to_nat w)))
                           (Z.to_nat w))
                   (take (k - length (F ++ [OpStoreValidIdx w; OpFlushValidIdx])) C)).
    { apply Forall_take. unfold C. apply CopyContextFrom_spares; rewrite ?Hc, ?Hp.
      - exact Hd.
      - exact Hs.
      - intros s t Hs' Ht. apply (Hapart s t Hs' Ht). }
    destruct (run_spares _ _ _ committed HC eq_refl) as (E1 & _ & E3 & E4).
    assert (Hv : valid_ctx_idx_pmem committed = w)
      by (rewrite Hcommitted; reflexivity).
    assert (Hsg : signature_pmem committed = kSignature).
    { rewrite Hcommitted. cbn [flush_header_line exec signature_pmem signature_].
      rewrite HFsig. exact Hsigv. }
    assert (Hi : durable_image committed (Z.to_nat w)
                 = snapshot c (persisted (ram flushed))).
    { unfold durable_image. rewrite Hp. rewrite Hcommitted.
      cbn [flush_header_line exec ram]. rewrite HFr. reflexivity. }
    rewrite E3, E4, Hv, Hsg, E1, Hi, Z.eqb_refl.
    replace (valid_index_ok w) with true
      by (unfold w; destruct (valid_index_cases _ Hok) as [E|E]; rewrite E; reflexivity).
    cbn [andb]. f_equal. f_equal. unfold snapshot.
    f_equal; apply seg_bytes_ext; intros x Hx;
      apply ProcessMappingInfo_Flush_persists; auto.
  - (* a stack that was durable stays the stack the CPU saw *)
    intros Hdur. apply seg_bytes_ext. intros x Hx.
    destruct (ProcessMappingInfo_Flush_either (map_info_ c) m x) as [E|E];
      fold flushed in E; rewrite E; [reflexivity|apply Hdur, Hx].
Qed.

(** Scenario S6 of the design document: the power fails right after the
    working context has been flushed, before the validity index is stored;
    recovery still finds the previous slot. *)
Example SwitchContext_scenario_S6 :
  length (ExecutionContext_Flush 1 dirty_machine) = 4%nat
  /\ fst <$> Recover (crash_after 4 SwitchContext_steps dirty_machine) = Some 0.
Proof. split; reflexivity. Qed.

(** What the missing stack flush costs: after a whole checkpoint of
    [dirty_machine] and a power loss, recovery resumes slot 1 with the data
    segment the CPU saw (bytes 1) and with a stack segment that was never
    written back (bytes 0). *)
Example unflushed_stack_reaches_recovery :
  (snap_data ∘ snd) <$> Recover (crash_after 1000 SwitchContext_steps dirty_machine)
  = Some (replicate 64 1)
  /\ (snap_stack ∘ snd) <$> Recover (crash_after 1000 SwitchContext_steps dirty_machine)
     = Some (replicate 64 0).
Proof. split; vm_compute; reflexivity. Qed.

(** C1: a checkpoint that recovery resumes from a snapshot that was never
    the state of the process.  [second_run] is [dirty_machine] after one
    whole checkpoint and a run of the process in slot 0 that wrote the byte 2
    to its data and to its stack; slot 1 is the valid context and its stack
    holds the byte 1.  The hypotheses of a checkpoint hold, and the commit
    point of the next checkpoint is its step 6.  When the power fails before
    step 6, recovery resumes slot 1 with the image it had.  When it fails at
    any later step, recovery resumes slot 0 with the record and the data
    (bytes 2) of the new context, and with a stack of bytes 1: not the stack
    the process left in slot 0 (bytes 2) but what the copy of the previous
    checkpoint had put there from the stack of slot 1, because
    ProcessMappingInfo::Flush writes back code, data and heap and never the
    stack. *)
Theorem checkpoint_recovers_torn_snapshot :
  let m := second_run in
  let old := map_info_ (ctx_ m 1%nat) in
  let new := map_info_ (ctx_ m 0%nat) in
  checkpoint_pre m
  /\ valid_ctx_idx_ m = 1
  /\ commit_point m = 6%nat
  /\ seg_bytes (view (ram m)) (data new) = replicate 64 2
  /\ seg_bytes (view (ram m)) (stack new) = replicate 64 2
  /\ seg_bytes (view (ram m)) (stack old) = replicate 64 1
  /\ (forall k, (k < 6)%nat ->
        Recover (crash_after k SwitchContext_steps m) = Some (1, durable_image m 1))
  /\ (forall k, (6 <= k)%nat ->
        exists image,
          Recover (crash_after k SwitchContext_steps m) = Some (0, image)
          /\ snap_ctx image = ctx_ m 0%nat
          /\ snap_data image = replicate 64 2
          /\ snap_stack image = replicate 64 1).
Proof.
  cbv zeta.
  assert (Hpre : checkpoint_pre second_run).
  { unfold checkpoint_pre. repeat split; try (vm_compute; reflexivity);
      vm_compute; discriminate. }
  assert (Hc : commit_point second_run = 6%nat) by (vm_compute; reflexivity).
  split; [exact Hpre|]. split; [vm_compute; reflexivity|]. split; [exact Hc|].
  split; [vm_compute; reflexivity|]. split; [vm_compute; reflexivity|].
  split; [vm_compute; reflexivity|]. split.
  - intros k Hk.
    destruct (SwitchContext_crash_recovery second_run k Hpre) as (_ & _ & H & _).
    rewrite Hc in H. exact (H Hk).
  - intros k Hk.
    destruct (SwitchContext_crash_recovery second_run k Hpre) as (_ & _ & _ & H & _).
    rewrite Hc in H. eexists. split; [exact (H Hk)|].
    cbn [snap_ctx snap_data snap_stack]. split; [reflexivity|].
    split; vm_compute; reflexivity.
Qed.


(** ** Scheduler *)

Local Close Scope Z_scope.

Lemma scan_step procs base i count :
  scan procs base i (S count)
  = if runnable_at procs ((base + i) mod length procs)
    then Some ((base + i) mod length procs)
    else scan procs base (S i) count.
Proof.
  cbn [scan]. unfold runnable_at.
  destruct (procs !! ((base + i) mod length procs)) as [p|]; reflexivity.
Qed.

(** The search returns the first position after the current one, in the
    cyclic order of the array, that holds a Running or Ready process. *)
Lemma scan_first procs base count i d :
  i <= d < i + count ->
  runnable_at procs ((base + d) mod length procs) = true ->
  (forall j, i <= j < d -> runnable_at procs ((base + j) mod length procs) = false) ->
  scan procs base i count = Some ((base + d) mod length procs).
Proof.
  revert i. induction count as [|count IH]; intros i Hd Hrun Hnone; [lia|].
  rewrite scan_step. destruct (decide (i = d)) as [->|Hne].
  - rewrite Hrun. reflexivity.
  - rewrite Hnone by lia. apply IH; [lia|exact Hrun|]. intros j Hj. apply Hnone. lia.
Qed.

Lemma scan_none procs base count i :
  (forall j, i <= j < i + count ->
     runnable_at procs ((base + j) mod length procs) = false) ->
  scan procs base i count = None.
Proof.
  revert i. induction count as [|count IH]; intros i H; [reflexivity|].
  rewrite scan_step, H by lia. apply IH. intros j Hj. apply H. lia.
Qed.

Lemma first_true (P : nat -> bool) i count :
  (exists j, i <= j < i + count /\ P j = true) ->
  exists d, i <= d < i + count /\ P d = true /\ forall j, i <= j < d -> P j = false.
Proof.
  revert i. induction count as [|count IH]; intros i (j & Hj & HP); [lia|].
  destruct (P i) eqn:Ei.
  - exists i. split; [lia|]. split; [exact Ei|]. intros j' Hj'. lia.
  - destruct (IH (S i)) as (d & Hd & HPd & Hbefore).
    { exists j. split; [|exact HP]. destruct (decide (j = i)) as [->|]; [congruence|lia]. }
    exists d. split; [lia|]. split; [exact HPd|].
    intros j' Hj'. destruct (decide (j' = i)) as [->|]; [exact Ei|apply Hbefore; lia].
Qed.

(** *** The walk around the array *)

Lemma seq_add_shift a st n : seq (a + st) n = map (fun j => a + j) (seq st n).
Proof.
  revert st. induction n as [|n IH]; intros st; [reflexivity|].
  cbn [seq map]. f_equal. rewrite <- IH. f_equal. lia.
Qed.

Lemma walk_app len base a b :
  walk len base (a + b) = walk len base a ++ walk len (base + a) b.
Proof.
  unfold walk. rewrite seq_app, map_app. f_equal.
  rewrite (Nat.add_comm 1 a), seq_add_shift, map_map.
  apply map_ext. intros j. f_equal. lia.
Qed.

Lemma walk_mod len base count :
  walk len (base mod len) count = walk len base count.
Proof.
  unfold walk. apply map_ext. intros j. apply Nat.Div0.add_mod_idemp_l.
Qed.

Lemma walk_lap len base k count :
  walk len (base + k * len) count = walk len base count.
Proof.
  unfold walk. apply map_ext. intros j.
  replace (base + k * len + j) with (base + j + k * len) by lia.
  apply Nat.Div0.mod_add.
Qed.

Lemma walk_one len base : walk len base 1 = [(base + 1) mod len].
Proof. reflexivity. Qed.

(** One lap visits every position once. *)
Lemma walk_full_lap len base : 0 < len -> walk len base len ≡ₚ seq 0 len.
Proof.
  intros Hlen. set (b := (base + 1) mod len).
  assert (Hb : b < len) by (apply Nat.mod_upper_bound; lia).
  assert (E : walk len base len = seq b (len - b) ++ seq 0 b).
  { unfold walk.
    assert (E1 : seq 1 len = map S (seq 0 len)) by (symmetry; apply seq_shift).
    assert (E2 : seq 0 len = seq 0 (len - b) ++ seq (len - b) b)
      by (rewrite <- seq_app; f_equal; lia).
    assert (E3 : seq b (len - b) = map (fun t => b + t) (seq 0 (len - b)))
      by (rewrite <- seq_add_shift; f_equal; lia).
    assert (E4 : seq (len - b) b = map (fun t => len - b + t) (seq 0 b))
      by (rewrite <- seq_add_shift; f_equal; lia).
    rewrite E1, map_map, E2, map_app, E3. f_equal.
    - apply map_ext_in. intros t Ht. apply in_seq in Ht.
      replace (base + S t) with (base + 1 + t) by lia.
      rewrite <- Nat.Div0.add_mod_idemp_l. fold b. apply Nat.mod_small. lia.
    - rewrite E4, map_map. transitivity (map id (seq 0 b)); [|apply map_id].
      apply map_ext_in. intros t Ht. apply in_seq in Ht.
      replace (base + S (len - b + t)) with (base + 1 + (len - b + t)) by lia.
      rewrite <- Nat.Div0.add_mod_idemp_l. fold b.
      replace (b + (len - b + t)) with (t + 1 * len) by lia.
      rewrite Nat.Div0.mod_add. unfold id. apply Nat.mod_small. lia. }
  rewrite E. rewrite Permutation_app_comm. rewrite <- seq_app.
  replace (b + (len - b)) with len by lia. reflexivity.
Qed.

(** *** Selections and the walk *)

Lemma filter_none {A} (P : A -> Prop) `{!forall x, Decision (P x)} (l : list A) :
  (forall x, In x l -> ~ P x) -> filter P l = [].
Proof.
  induction l as [|x l IH]; intros Hno; [reflexivity|].
  rewrite filter_cons_False by (apply Hno; left; reflexivity).
  apply IH. intros y Hy. apply Hno. right. exact Hy.
Qed.

Lemma SwitchProcess_first s d :
  let procs := process_ s in
  1 <= d <= length procs ->
  runnable_at procs ((current_ s + d) mod length procs) = true ->
  (forall j, 1 <= j < d ->
     runnable_at procs ((current_ s + j) mod length procs) = false) ->
  SwitchProcess s
  = (Some ((current_ s + d) mod length procs),
     mkScheduler procs ((current_ s + d) mod length procs)).
Proof.
  intros procs Hd Hrun Hnone. unfold SwitchProcess, GetNumOfProcess.
  fold procs. rewrite (scan_first procs (current_ s) (length procs) 1 d);
    [reflexivity|lia|exact Hrun|exact Hnone].
Qed.

(** If some process is Running or Ready, the search finds one within one
    lap. *)
Lemma runnable_within_lap procs base :
  (exists i, i < length procs /\ runnable_at procs i = true) ->
  exists d, 1 <= d <= length procs
    /\ runnable_at procs ((base + d) mod length procs) = true
    /\ forall j, 1 <= j < d -> runnable_at procs ((base + j) mod length procs) = false.
Proof.
  intros (i & Hi & Hrun).
  assert (Hin : In i (walk (length procs) base (length procs))).
  { apply list_elem_of_In. rewrite walk_full_lap by lia.
    apply list_elem_of_In, in_seq. lia. }
  unfold walk in Hin. apply in_map_iff in Hin as (j & Hj & Hjin). apply in_seq in Hjin.
  destruct (first_true (fun j => runnable_at procs ((base + j) mod length procs))
              1 (length procs)) as (d & Hd & HPd & Hbefore).
  { exists j. split; [lia|]. rewrite Hj. exact Hrun. }
  exists d. split; [lia|]. split; [exact HPd|exact Hbefore].
Qed.

(** The selections of consecutive calls are the Running or Ready positions
    met on the walk around the array, in the order the walk meets them. *)
Lemma switches_walk count :
  forall s M,
    (exists i, i < length (process_ s) /\ runnable_at (process_ s) i = true) ->
    count * length (process_ s) <= M ->
    switches count s
    = map Some (take count
                  (filter (fun i => runnable_at (process_ s) i = true)
                          (walk (length (process_ s)) (current_ s) M))).
Proof.
  induction count as [|count IH]; intros s M Hex HM; [reflexivity|].
  destruct (runnable_within_lap (process_ s) (current_ s) Hex) as (d & Hd & Hrun & Hnone).
  cbn [switches]. rewrite (SwitchProcess_first s d Hd Hrun Hnone).
  set (len := length (process_ s)) in *. set (idx := (current_ s + d) mod len) in *.
  assert (Hlen : 0 < len) by (destruct Hex as (i & Hi & _); lia).
  replace M with ((d - 1) + (1 + (M - d))) by (cbn in HM; lia).
  rewrite !walk_app, walk_one, !filter_app.
  replace (current_ s + (d - 1) + 1) with (current_ s + d) by lia. fold idx.
  rewrite (filter_none _ (walk len (current_ s) (d - 1))).
  2:{ intros x Hx. unfold walk in Hx. apply in_map_iff in Hx as (j & <- & Hj).
      apply in_seq in Hj. rewrite Hnone by lia. discriminate. }
  rewrite (filter_cons_True _ idx) by exact Hrun.
  rewrite filter_nil. cbn [app take map]. f_equal.
  replace (current_ s + (d - 1) + 1) with (current_ s + d) by lia.
  rewrite <- (walk_mod len (current_ s + d)). fold idx.
  apply (IH (mkScheduler (process_ s) idx) (M - d)); [exact Hex|].
  cbn [process_]. fold len. cbn in HM. nia.
Qed.

Lemma scan_some procs base count i idx :
  scan procs base i count = Some idx ->
  exists d, i <= d < i + count
    /\ idx = (base + d) mod length procs
    /\ runnable_at procs idx = true
    /\ forall j, i <= j < d -> runnable_at procs ((base + j) mod length procs) = false.
Proof.
  revert i. induction count as [|count IH]; intros i H; [discriminate|].
  rewrite scan_step in H.
  destruct (runnable_at procs ((base + i) mod length procs)) eqn:E.
  - injection H as <-. exists i. split; [lia|]. split; [reflexivity|].
    split; [exact E|]. intros j Hj. lia.
  - destruct (IH (S i) H) as (d & Hd & Hidx & Hrun & Hnone).
    exists d. split; [lia|]. split; [exact Hidx|]. split; [exact Hrun|].
    intros j Hj. destruct (decide (j = i)) as [->|]; [exact E|apply Hnone; lia].
Qed.

(** *** Counting the selections *)

Lemma count_in_seq i a n :
  length (filter (fun x => x = i) (seq a n)) = if decide (a <= i < a + n) then 1 else 0.
Proof.
  revert a. induction n as [|n IH]; intros a.
  - cbn. destruct (decide _); [lia|reflexivity].
  - cbn [seq]. rewrite filter_cons. destruct (decide (a = i)) as [->|Hne].
    + cbn [length]. rewrite IH. repeat destruct (decide _); lia.
    + rewrite IH. repeat destruct (decide _); lia.
Qed.

(** [k] laps meet the positions that satisfy [P] k times each. *)
Lemma laps_count len base k (P : nat -> Prop) `{!forall x, Decision (P x)} :
  0 < len ->
  length (filter P (walk len base (k * len))) = k * length (filter P (seq 0 len)).
Proof.
  intros Hlen. induction k as [|k IH]; [reflexivity|].
  replace (S k * len) with (len + k * len) by lia.
  rewrite walk_app, filter_app, length_app.
  replace (base + len) with (base + 1 * len) by lia. rewrite walk_lap, IH.
  rewrite (walk_full_lap len base Hlen). lia.
Qed.

Lemma runnable_count procs :
  length (filter (fun i => runnable_at procs i = true) (seq 0 (length procs)))
  = length (filter (fun p => runnable p = true) procs).
Proof.
  induction procs as [|p procs IH] using rev_ind; [reflexivity|].
  rewrite length_app. cbn [length]. rewrite Nat.add_1_r, seq_S, !filter_app, !length_app.
  cbn [Nat.add]. f_equal.
  - rewrite <- IH. f_equal. clear IH.
    assert (Hext : forall l, (forall i, In i l -> i < length procs) ->
              filter (fun i => runnable_at (procs ++ [p]) i = true) l
              = filter (fun i => runnable_at procs i = true) l).
    { induction l as [|x l IHl]; intros Hl; [reflexivity|].
      assert (Hx : runnable_at (procs ++ [p]) x = runnable_at procs x).
      { unfold runnable_at. rewrite (lookup_app_l procs [p] x); [reflexivity|].
        apply Hl. left. reflexivity. }
      rewrite !filter_cons, Hx.
      rewrite IHl by (intros i Hi; apply Hl; right; exact Hi). reflexivity. }
    apply Hext. intros i Hi. apply in_seq in Hi. lia.
  - assert (Hp : runnable_at (procs ++ [p]) (length procs) = runnable p).
    { unfold runnable_at. rewrite (lookup_app_r procs [p]) by lia.
      rewrite Nat.sub_diag. reflexivity. }
    rewrite !filter_cons, !filter_nil, Hp.
    destruct (decide (runnable p = true)); reflexivity.
Qed.

Lemma times_selected_Some i l :
  times_selected i (map Some l) = length (filter (fun x => x = i) l).
Proof.
  unfold times_selected. induction l as [|x l IH]; [reflexivity|].
  cbn [map]. rewrite !filter_cons.
  destruct (decide (Some x = Some i)) as [E|E], (decide (x = i)) as [E'|E'];
    cbn [length]; try congruence.
Qed.

(** Over n * k consecutive switches, n being the number of Running or Ready
    processes, each of them is selected k times. *)
Lemma switches_fair s k i :
  i < length (process_ s) ->
  runnable_at (process_ s) i = true ->
  times_selected i (switches (num_runnable s * k) s) = k.
Proof.
  intros Hi Hrun.
  set (len := length (process_ s)). set (n := num_runnable s).
  set (P := fun i => runnable_at (process_ s) i = true).
  assert (Hlen : 0 < len) by (unfold len; lia).
  assert (Hn : length (filter P (seq 0 len)) = n) by apply runnable_count.
  assert (Hn1 : 1 <= n).
  { rewrite <- Hn. pose proof (count_in_seq i 0 len) as Hc.
    destruct (decide _) in Hc; [|unfold len in *; lia].
    rewrite <- (list_filter_filter_l (fun x => x = i) P) in Hc
      by (intros x ->; exact Hrun).
    pose proof (length_filter (fun x => x = i) (filter P (seq 0 len))). lia. }
  rewrite (switches_walk (n * k) s (n * k * len)); [|exists i; split; assumption|lia].
  fold len P.
  replace (n * k * len) with (k * len + (n * k * len - k * len)) by nia.
  rewrite walk_app, filter_app.
  rewrite take_app_length' by (rewrite laps_count, Hn by exact Hlen; lia).
  rewrite times_selected_Some.
  rewrite (list_filter_filter_l (fun x => x = i) P) by (intros x ->; exact Hrun).
  rewrite laps_count, count_in_seq by exact Hlen.
  destruct (decide _); [lia|unfold len in *; lia].
Qed.

Local Open Scope Z_scope.

(** C8: (amended) SwitchProcess selects the first process after the current
    one, in the cyclic order of insertion, whose status is Running or Ready,
    and makes it current; with the two processes A (the one the scheduler
    was built around, hence current) and B registered, six consecutive calls
    select B, A, B, A, B, A; and over n * k consecutive calls, n being the
    number of Running or Ready processes, each of them is selected exactly
    k times. *)
Theorem SwitchProcess_round_robin :
  (forall s idx s',
      SwitchProcess s = (Some idx, s') ->
      s' = mkScheduler (process_ s) idx
      /\ runnable_at (process_ s) idx = true
      /\ exists d, (1 <= d <= length (process_ s))%nat
           /\ idx = ((current_ s + d) mod length (process_ s))%nat
           /\ forall j, (1 <= j < d)%nat ->
                runnable_at (process_ s) ((current_ s + j) mod length (process_ s))%nat
                = false)
  /\ (forall A B,
        let a := SetStatus kRunning A in
        let b := SetStatus kReady B in
        process_ (two_processes A B) = [a; b]
        /\ current_ (two_processes A B) = 0%nat
        /\ selected (two_processes A B) (switches 6 (two_processes A B))
           = [Some b; Some a; Some b; Some a; Some b; Some a])
  /\ (forall s k i,
        (i < length (process_ s))%nat ->
        runnable_at (process_ s) i = true ->
        times_selected i (switches (num_runnable s * k) s) = k).
Proof.
  split; [|split].
  - intros s idx s' H. unfold SwitchProcess, GetNumOfProcess in H.
    destruct (scan (process_ s) (current_ s) 1 (length (process_ s))) as [i|] eqn:E;
      [|discriminate].
    injection H as <- <-.
    destruct (scan_some _ _ _ _ _ E) as (d & Hd & Hidx & Hrun & Hnone).
    split; [reflexivity|]. split; [exact Hrun|].
    exists d. split; [lia|]. split; [exact Hidx|exact Hnone].
  - intros A B a b. repeat split.
  - apply switches_fair.
Qed.

Lemma SwitchProcess_round_robin_witness :
  times_selected 1 (switches (num_runnable (two_processes process_A process_B) * 3)
                      (two_processes process_A process_B)) = 3%nat
  /\ fst (SwitchProcess (two_processes process_A process_B)) = Some 1%nat.
Proof.
  destruct SwitchProcess_round_robin as (H1 & _ & H3).
  split.
  - apply H3; [cbn; lia|reflexivity].
  - destruct (H1 (two_processes process_A process_B) 1%nat
                (mkScheduler (process_ (two_processes process_A process_B)) 1)
                eq_refl) as (_ & _ & _).
    reflexivity.
Defined.

(** With A the process the scheduler was built around and B registered, the
    first of six consecutive calls selects B, not A: the sequence is not
    A, B, A, B, A, B. *)
Lemma SwitchProcess_two_processes_order :
  let s := two_processes process_A process_B in
  map (fun p => id_ <$> p) (selected s (switches 6 s))
  <> [Some 1; Some 2; Some 1; Some 2; Some 1; Some 2].
Proof. cbv zeta. vm_compute. discriminate. Qed.

(** * Further properties *)

(** ** Ring buffer: first in, first out *)

Section RingBufferOrder.
Context {T : Type}.
Variable T_default : T.
Variable n : Z.
Hypothesis n_range : 0 < n < 2 ^ 31.

Lemma pushes_calls (values : list T) (rb : RingBuffer T) :
  pushes n values rb = foldl (call T_default n) rb (map CallPush values).
Proof.
  revert rb. induction values as [|v values IH]; intros rb; [reflexivity|].
  cbn [pushes foldl map]. apply IH.
Qed.

Lemma queue_pushes (q values : list T) :
  Z.of_nat (length q) <= n - 1 ->
  foldl (queue_call n) q (map CallPush values)
  = take (Z.to_nat (n - 1)) (q ++ values).
Proof using n_range.
  revert q. induction values as [|v values IH]; intros q Hq.
  - cbn [map foldl]. rewrite app_nil_r, take_ge; [reflexivity|lia].
  - cbn [map foldl queue_call].
    destruct (Z.ltb_spec (Z.of_nat (length q)) (n - 1)) as [Hlt|Hge].
    + rewrite IH by (rewrite length_app; cbn; lia).
      rewrite <- app_assoc. reflexivity.
    + rewrite IH by exact Hq.
      rewrite !take_app_le by lia. reflexivity.
Qed.

Lemma pushes_pointers_ok (values : list T) (rb : RingBuffer T) :
  pointers_ok n rb -> pointers_ok n (pushes n values rb).
Proof using n_range.
  revert rb. induction values as [|v values IH]; intros rb Hok; [exact Hok|].
  cbn [pushes foldl]. apply IH, Push_pointers_ok; assumption.
Qed.

Lemma calls_pointers_ok (calls : list (Call (T := T))) (rb : RingBuffer T) :
  pointers_ok n rb -> pointers_ok n (foldl (call T_default n) rb calls).
Proof using n_range.
  revert rb. induction calls as [|c calls IH]; intros rb Hok; [exact Hok|].
  cbn [foldl]. apply IH, call_pointers_ok; assumption.
Qed.

Lemma held_pushes (values : list T) (rb : RingBuffer T) :
  pointers_ok n rb ->
  held T_default n (pushes n values rb)
  = take (Z.to_nat (n - 1)) (held T_default n rb ++ values).
Proof using n_range.
  intros Hok. rewrite pushes_calls, (held_calls T_default n n_range) by exact Hok.
  apply queue_pushes, held_bound, n_range.
Qed.

Lemma IsEmpty_held (rb : RingBuffer T) :
  pointers_ok n rb -> (IsEmpty rb = true <-> held T_default n rb = []).
Proof using n_range.
  intros Hok. pose proof Hok as (Hr & Hw & _).
  pose proof (held_length T_default n n_range rb) as Hl.
  unfold IsEmpty. split.
  - intros E. apply Z.eqb_eq in E. rewrite E, Z.sub_diag, Z.mod_0_l in Hl by lia.
    destruct (held T_default n rb); [reflexivity|cbn in Hl; lia].
  - intros E. rewrite E in Hl. cbn [length] in Hl. apply Z.eqb_eq.
    destruct (Z_le_gt_dec (readp_ rb) (writep_ rb)).
    + rewrite Z.mod_small in Hl by lia. lia.
    + replace (writep_ rb - readp_ rb) with ((writep_ rb - readp_ rb + n) + (-1) * n)
        in Hl by lia.
      rewrite Z.mod_add, Z.mod_small in Hl by lia. lia.
Qed.

Lemma pops_held (count : nat) (rb : RingBuffer T) :
  pointers_ok n rb ->
  (count <= length (held T_default n rb))%nat ->
  fst (pops T_default n count rb) = take count (held T_default n rb)
  /\ held T_default n (snd (pops T_default n count rb))
     = drop count (held T_default n rb)
  /\ pointers_ok n (snd (pops T_default n count rb)).
Proof using n_range.
  revert rb. induction count as [|count IH]; intros rb Hok Hc.
  - cbn. rewrite take_0, drop_0. repeat split; try apply Hok.
  - cbn [pops].
    destruct (held_Pop T_default n n_range rb Hok) as [Htail Hhd].
    pose proof (Pop_pointers_ok T_default n n_range rb Hok) as Hok1.
    destruct (Pop T_default n rb) as [v rb1]. cbn [fst snd] in *.
    destruct (held T_default n rb) as [|x l] eqn:E; [cbn in Hc; lia|].
    cbn [tail hd length] in *.
    destruct (IH rb1 Hok1) as (I1 & I2 & I3); [rewrite Htail; lia|].
    destruct (pops T_default n count rb1) as [vs rb2]. cbn [fst snd] in *.
    rewrite Htail in I1, I2. subst v. cbn [take drop].
    split; [f_equal; exact I1|]. split; [exact I2|exact I3].
Qed.
End RingBufferOrder.

(** X1: what is pushed into a fresh buffer comes out of it in the same
    order: after the push of at most n - 1 values, as many pops return
    these values, first pushed first, and leave the buffer empty. *)
Theorem RingBuffer_first_in_first_out {T : Type} (T_default : T) (n : Z)
    (elements values : list T) :
  0 < n < 2 ^ 31 ->
  Z.of_nat (length elements) = n ->
  Z.of_nat (length values) <= n - 1 ->
  let rb := pushes n values (RingBuffer_new elements) in
  fst (pops T_default n (length values) rb) = values
  /\ IsEmpty (snd (pops T_default n (length values) rb)) = true.
Proof.
  intros Hn Hlen Hv rb.
  assert (Hok0 : pointers_ok n (RingBuffer_new elements))
    by (apply new_pointers_ok; assumption).
  assert (Hok : pointers_ok n rb) by (apply pushes_pointers_ok; assumption).
  assert (Hheld : held T_default n rb = values).
  { unfold rb. rewrite (held_pushes T_default n Hn) by exact Hok0.
    change (held T_default n (RingBuffer_new elements)) with (@nil T).
    apply take_ge. cbn [app]. lia. }
  destruct (pops_held T_default n Hn (length values) rb Hok) as (H1 & H2 & H3);
    [rewrite Hheld; lia|].
  rewrite Hheld in H1, H2. rewrite take_ge in H1 by lia. rewrite drop_ge in H2 by lia.
  split; [exact H1|]. apply (IsEmpty_held T_default n Hn); assumption.
Qed.

Lemma RingBuffer_first_in_first_out_witness :
  fst (pops 0 4 3 (pushes 4 [5; 6; 7] (RingBuffer_new [0; 0; 0; 0]))) = [5; 6; 7].
Proof.
  exact (proj1 (RingBuffer_first_in_first_out 0 4 [0; 0; 0; 0] [5; 6; 7]
                  ltac:(lia) eq_refl ltac:(cbn; lia))).
Defined.

(** X2: the buffer drops the newest values, not the oldest: whatever the
    number of values pushed into a fresh buffer, it holds the first n - 1 of
    them, in the order pushed. *)
Theorem RingBuffer_keeps_oldest {T : Type} (T_default : T) (n : Z)
    (elements values : list T) :
  0 < n < 2 ^ 31 ->
  Z.of_nat (length elements) = n ->
  held T_default n (pushes n values (RingBuffer_new elements))
  = take (Z.to_nat (n - 1)) values.
Proof.
  intros Hn Hlen.
  rewrite (held_pushes T_default n Hn) by (apply new_pointers_ok; assumption).
  reflexivity.
Qed.

Lemma RingBuffer_keeps_oldest_witness :
  held 0 3 (pushes 3 [5; 6; 7; 8] (RingBuffer_new [0; 0; 0])) = [5; 6].
Proof.
  exact (RingBuffer_keeps_oldest 0 3 [0; 0; 0] [5; 6; 7; 8] ltac:(lia) eq_refl).
Defined.

(** X3: whatever calls are made on a fresh buffer, readp_ and writep_ stay
    within [0, n) and elements_ keeps its n slots, so no call indexes the
    array out of bounds; and IsEmpty answers true exactly when the buffer
    holds nothing. *)
Theorem RingBuffer_indices_in_bounds {T : Type} (T_default : T) (n : Z)
    (elements : list T) (calls : list Call) :
  0 < n < 2 ^ 31 ->
  Z.of_nat (length elements) = n ->
  let rb := foldl (call T_default n) (RingBuffer_new elements) calls in
  0 <= readp_ rb < n /\ 0 <= writep_ rb < n
  /\ Z.of_nat (length (elements_ rb)) = n
  /\ (IsEmpty rb = true <-> held T_default n rb = []).
Proof.
  intros Hn Hlen rb.
  assert (Hok : pointers_ok n rb).
  { apply (calls_pointers_ok T_default n Hn), new_pointers_ok; assumption. }
  pose proof Hok as (Hr & Hw & Hl).
  split; [exact Hr|]. split; [exact Hw|]. split; [exact Hl|].
  apply (IsEmpty_held T_default n Hn), Hok.
Qed.

Lemma RingBuffer_indices_in_bounds_witness :
  let rb := foldl (call 0 2) (RingBuffer_new [0; 0])
              [CallPop; CallPush 1; CallPush 2; CallPop; CallPush 3] in
  0 <= readp_ rb < 2 /\ 0 <= writep_ rb < 2.
Proof.
  pose proof (RingBuffer_indices_in_bounds 0 2 [0; 0]
                [CallPop; CallPush 1; CallPush 2; CallPop; CallPush 3]
                ltac:(lia) eq_refl) as (H1 & H2 & _).
  split; [exact H1|exact H2].
Defined.

(** ** Integers in memory *)

Lemma store_le_outside nbytes a v mem x :
  ~ (a <= x < a + Z.of_nat nbytes) -> store_le nbytes a v mem x = mem x.
Proof.
  revert a v mem. induction nbytes as [|k IH]; intros a v mem H; [reflexivity|].
  cbn [store_le]. rewrite IH by lia. apply fn_lookup_insert_ne. lia.
Qed.

Lemma load_le_ext nbytes a mem mem' :
  (forall x, a <= x < a + Z.of_nat nbytes -> mem' x = mem x) ->
  load_le nbytes a mem' = load_le nbytes a mem.
Proof.
  revert a. induction nbytes as [|k IH]; intros a H; [reflexivity|].
  cbn [load_le]. rewrite H by lia. rewrite IH; [reflexivity|].
  intros x Hx. apply H. lia.
Qed.

Lemma load_le_range nbytes a mem : 0 <= load_le nbytes a mem < 256 ^ Z.of_nat nbytes.
Proof.
  revert a. induction nbytes as [|k IH]; intros a; [cbn; lia|].
  cbn [load_le]. rewrite Nat2Z.inj_succ, Z.pow_succ_r by lia.
  specialize (IH (a + 1)). pose proof (Z.mod_pos_bound (mem a) 256). lia.
Qed.

(** What was stored is what is loaded, cut to the width. *)
Lemma load_le_store_le nbytes a v mem :
  load_le nbytes a (store_le nbytes a v mem) = v mod 256 ^ Z.of_nat nbytes.
Proof.
  revert a v mem. induction nbytes as [|k IH]; intros a v mem.
  - cbn. symmetry. apply Z.mod_1_r.
  - cbn [load_le store_le]. rewrite IH.
    rewrite store_le_outside by lia. rewrite fn_lookup_insert.
    rewrite Z.mod_mod by lia.
    rewrite Nat2Z.inj_succ, Z.pow_succ_r by lia.
    rewrite Z.rem_mul_r by lia. reflexivity.
Qed.

Lemma load_le_store_le_apart nbytes a nbytes' b v mem :
  a + Z.of_nat nbytes <= b \/ b + Z.of_nat nbytes' <= a ->
  load_le nbytes a (store_le nbytes' b v mem) = load_le nbytes a mem.
Proof.
  intros H. apply load_le_ext. intros x Hx. apply store_le_outside. lia.
Qed.

Lemma load_le_zero nbytes a mem :
  (forall x, a <= x < a + Z.of_nat nbytes -> mem x = 0) -> load_le nbytes a mem = 0.
Proof.
  revert a. induction nbytes as [|k IH]; intros a H; [reflexivity|].
  cbn [load_le]. rewrite H by lia. rewrite IH; [reflexivity|].
  intros x Hx. apply H. lia.
Qed.

Lemma store_le_zero nbytes a mem x :
  store_le nbytes a 0 mem x = if decide (a <= x < a + Z.of_nat nbytes) then 0 else mem x.
Proof.
  destruct (decide _) as [Hin|Hout]; [|apply store_le_outside; exact Hout].
  revert a mem Hin. induction nbytes as [|k IH]; intros a mem Hin; [lia|].
  cbn [store_le]. change (0 / 256) with 0. change (0 mod 256) with 0.
  destruct (decide (x = a)) as [->|Hne].
  - rewrite store_le_outside by lia. apply fn_lookup_insert.
  - apply IH. lia.
Qed.

Lemma line_of_iff x l : line_of x = l <-> 64 * l <= x < 64 * l + 64.
Proof.
  unfold line_of, kCacheLineSize.
  pose proof (Z.div_mod x 64 ltac:(lia)). pose proof (Z.mod_pos_bound x 64 ltac:(lia)).
  split; [intros <-; lia|]. intros H1. nia.
Qed.

Lemma pow_256_8 : 256 ^ Z.of_nat 8 = 2 ^ 64.
Proof. reflexivity. Qed.

(** ** SegmentMapping in persistent memory *)

(** The bytes an object occupies, seen through the view after its line was
    flushed. *)
Lemma CLFlush_persisted a m x :
  persisted (CLFlush a m) x
  = if decide (line_of x = line_of a) then view m x else persisted m x.
Proof.
  cbn [CLFlush persisted]. destruct (Z.eqb_spec (line_of x) (line_of a));
    destruct (decide _); congruence.
Qed.

(** X4: SegmentMapping::Set makes the three words read back (cut to 64
    bits) at once; they survive a power loss when the object lies within
    the cache line of its first byte; and when map_size_ lies on the next
    line, the flush of the line of [this] does not persist it. *)
Theorem SegmentMapping_Set_durable (this vaddr paddr map_size : Z) (m : Memory) :
  let m' := SegmentObject.Set_ this vaddr paddr map_size m in
  let stored := mkSegmentMapping (u64 vaddr) (u64 paddr) (u64 map_size) in
  SegmentObject.read this (view m') = stored
  /\ (line_of (this + 23) = line_of this ->
      SegmentObject.read this (view (Memory_PowerLoss m')) = stored)
  /\ (line_of (this + 16) <> line_of this ->
      SegmentObject.GetMapSize this (view (Memory_PowerLoss m'))
      = SegmentObject.GetMapSize this (persisted m)).
Proof.
  intros m' stored.
  assert (Hview : SegmentObject.read this (view m') = stored).
  { unfold SegmentObject.read, SegmentObject.GetVirtAddr, SegmentObject.GetPhysAddr,
      SegmentObject.GetMapSize, stored, m', SegmentObject.Set_, store_int.
    cbn [CLFlush view persisted]. unfold u64. rewrite <- pow_256_8.
    f_equal.
    - rewrite !load_le_store_le_apart by (cbn; lia). apply load_le_store_le.
    - rewrite load_le_store_le_apart by (cbn; lia). apply load_le_store_le.
    - apply load_le_store_le. }
  split; [exact Hview|]. split.
  - intros Hline. rewrite <- Hview.
    unfold SegmentObject.read, SegmentObject.GetVirtAddr, SegmentObject.GetPhysAddr,
      SegmentObject.GetMapSize.
    assert (Hx : forall x, this <= x < this + 24 ->
              view (Memory_PowerLoss m') x = view m' x).
    { intros x Hx. unfold Memory_PowerLoss, m', SegmentObject.Set_.
      cbn [view]. rewrite CLFlush_persisted.
      destruct (decide _) as [_|Hne]; [reflexivity|]. exfalso. apply Hne.
      pose proof (line_of_le this x ltac:(lia)).
      pose proof (line_of_le x (this + 23) ltac:(lia)). lia. }
    f_equal; apply load_le_ext; intros x Hx'; apply Hx; cbn in Hx'; lia.
  - intros Hline. unfold SegmentObject.GetMapSize. apply load_le_ext.
    intros x Hx. unfold Memory_PowerLoss, m', SegmentObject.Set_.
    cbn [view]. rewrite CLFlush_persisted.
    destruct (decide _) as [E|_]; [|reflexivity]. exfalso.
    pose proof (line_of_le this (this + 16) ltac:(lia)).
    pose proof (line_of_le (this + 16) x ltac:(lia)). lia.
Qed.

Lemma SegmentMapping_Set_durable_witness :
  SegmentObject.read 0x1000
    (view (Memory_PowerLoss (SegmentObject.Set_ 0x1000 0x400000 0x200000 4096 stale_memory)))
  = mkSegmentMapping (u64 0x400000) (u64 0x200000) (u64 4096)
  /\ SegmentObject.GetMapSize 0x1030
       (view (Memory_PowerLoss (SegmentObject.Set_ 0x1030 0x400000 0x200000 4096 stale_memory)))
     = SegmentObject.GetMapSize 0x1030 (persisted stale_memory).
Proof.
  split.
  - apply (SegmentMapping_Set_durable 0x1000 0x400000 0x200000 4096 stale_memory).
    reflexivity.
  - apply (SegmentMapping_Set_durable 0x1030 0x400000 0x200000 4096 stale_memory).
    vm_compute. discriminate.
Defined.

(** X5: SegmentMapping::SetPhysAddr flushes the line of its parameter, not
    that of the member: the CPU reads the new paddr_, but unless the
    parameter shares a cache line with the member nothing of paddr_ is
    persisted, and after a power loss the previous paddr_ is back. *)
Theorem SegmentMapping_SetPhysAddr_not_durable (this paddr arg : Z) (m : Memory) :
  line_of arg < line_of (this + 8) \/ line_of (this + 15) < line_of arg ->
  let m' := SegmentObject.SetPhysAddr this paddr arg m in
  SegmentObject.GetPhysAddr this (view m') = u64 paddr
  /\ SegmentObject.GetPhysAddr this (persisted m')
     = SegmentObject.GetPhysAddr this (persisted m)
  /\ SegmentObject.GetPhysAddr this (view (Memory_PowerLoss m'))
     = SegmentObject.GetPhysAddr this (persisted m).
Proof.
  intros Harg m'.
  assert (Hp : SegmentObject.GetPhysAddr this (persisted m')
               = SegmentObject.GetPhysAddr this (persisted m)).
  { unfold SegmentObject.GetPhysAddr. apply load_le_ext. intros x Hx.
    unfold m', SegmentObject.SetPhysAddr. rewrite CLFlush_persisted.
    destruct (decide _) as [E|_]; [|reflexivity]. exfalso.
    pose proof (line_of_le (this + 8) x ltac:(lia)).
    pose proof (line_of_le x (this + 15) ltac:(cbn in Hx; lia)). lia. }
  split; [|split; [exact Hp|exact Hp]].
  unfold SegmentObject.GetPhysAddr, m', SegmentObject.SetPhysAddr, store_int.
  cbn [CLFlush view persisted]. unfold u64. rewrite <- pow_256_8.
  apply load_le_store_le.
Qed.

Lemma SegmentMapping_SetPhysAddr_not_durable_witness :
  SegmentObject.GetPhysAddr 0x1000
    (view (Memory_PowerLoss (SegmentObject.SetPhysAddr 0x1000 0x200000 0x7ff0 stale_memory)))
  = SegmentObject.GetPhysAddr 0x1000 (persisted stale_memory).
Proof.
  apply (SegmentMapping_SetPhysAddr_not_durable 0x1000 0x200000 0x7ff0 stale_memory).
  right. vm_compute. reflexivity.
Defined.

Lemma Clear_view this m x :
  view (SegmentObject.Clear this m) x
  = if decide (this <= x < this + 24) then 0 else view m x.
Proof.
  unfold SegmentObject.Clear, store_int. cbn [CLFlush view persisted].
  rewrite !store_le_zero. cbn [Z.of_nat Pos.of_succ_nat Pos.succ].
  repeat destruct (decide _); try reflexivity; lia.
Qed.

Lemma Clear_persisted this m x :
  persisted (SegmentObject.Clear this m) x
  = if decide (line_of x = line_of this)
    then view (SegmentObject.Clear this m) x else persisted m x.
Proof.
  unfold SegmentObject.Clear at 1. rewrite CLFlush_persisted. reflexivity.
Qed.

(** X6: ProcessMappingInfo::Clear leaves all four segments null for the CPU,
    whatever they held; and when the object starts on a cache-line boundary
    they are null after a power loss as well. *)
Theorem ProcessMappingInfo_Clear_nulls (this : Z) (m : Memory) :
  let m' := SegmentObject.ClearInfo this m in
  let null := mkSegmentMapping 0 0 0 in
  SegmentObject.read_info this (view m') = mkProcessMappingInfo null null null null
  /\ (this mod kCacheLineSize = 0 ->
      SegmentObject.read_info this (view (Memory_PowerLoss m'))
      = mkProcessMappingInfo null null null null).
Proof.
  intros m' null.
  assert (Hzero : forall mem, (forall x, this <= x < this + 96 -> mem x = 0) ->
            SegmentObject.read_info this mem = mkProcessMappingInfo null null null null).
  { intros mem H.
    unfold SegmentObject.read_info, SegmentObject.read, SegmentObject.GetVirtAddr,
      SegmentObject.GetPhysAddr, SegmentObject.GetMapSize, SegmentObject.code_of,
      SegmentObject.data_of, SegmentObject.stack_of, SegmentObject.heap_of, null.
    rewrite !load_le_zero; [reflexivity|intros x Hx; apply H; cbn in Hx; lia ..]. }
  assert (Hview : forall x, this <= x < this + 96 -> view m' x = 0).
  { intros x Hx. unfold m', SegmentObject.ClearInfo, SegmentObject.code_of,
      SegmentObject.data_of, SegmentObject.stack_of, SegmentObject.heap_of.
    rewrite !Clear_view. repeat destruct (decide _); try reflexivity; lia. }
  split; [apply Hzero, Hview|].
  intros Halign. apply Hzero. intros x Hx.
  unfold kCacheLineSize in Halign.
  pose proof (Z.div_mod this 64 ltac:(lia)) as Hthis. rewrite Halign in Hthis.
  set (L := this / 64) in *.
  unfold Memory_PowerLoss. cbn [view].
  unfold m', SegmentObject.ClearInfo.
  set (m3 := SegmentObject.Clear (SegmentObject.stack_of this) _).
  fold m3 in m'.
  assert (Hheap : line_of (SegmentObject.heap_of this) = L + 1)
    by (apply line_of_iff; unfold SegmentObject.heap_of; lia).
  assert (Hstack : line_of (SegmentObject.stack_of this) = L)
    by (apply line_of_iff; unfold SegmentObject.stack_of; lia).
  rewrite Clear_persisted, Hheap.
  destruct (decide (line_of x = L + 1)) as [E|E].
  - apply (Hview x Hx).
  - assert (Hx' : this <= x < this + 64).
    { destruct (Z_lt_ge_dec x (this + 64)); [lia|]. exfalso. apply E, line_of_iff. lia. }
    unfold m3. rewrite Clear_persisted, Hstack.
    destruct (decide (line_of x = L)) as [_|E']; [|exfalso; apply E', line_of_iff; lia].
    unfold SegmentObject.code_of, SegmentObject.data_of, SegmentObject.stack_of.
    rewrite !Clear_view. repeat destruct (decide _); try reflexivity; lia.
Qed.

Lemma ProcessMappingInfo_Clear_nulls_witness :
  SegmentObject.read_info 0x2000
    (view (Memory_PowerLoss (SegmentObject.ClearInfo 0x2000 stale_memory)))
  = mkProcessMappingInfo seg0 seg0 seg0 seg0.
Proof.
  apply (ProcessMappingInfo_Clear_nulls 0x2000 stale_memory). reflexivity.
Defined.

(** ** Execution contexts *)

(** X7: CopyContextFrom copies registers and segment contents only: the
    destination keeps its own mapping info, kernel_rsp and heap_used_size,
    every other context is left as it was, and no context record is
    persisted by the copy. *)
Theorem CopyContextFrom_keeps_rest (m : Machine) (this from : nat) :
  let m' := run (CopyContextFrom this from m) m in
  map_info_ (ctx_ m' this) = map_info_ (ctx_ m this)
  /\ kernel_rsp_ (ctx_ m' this) = kernel_rsp_ (ctx_ m this)
  /\ heap_used_size_ (ctx_ m' this) = heap_used_size_ (ctx_ m this)
  /\ (forall j, j <> this -> ctx_ m' j = ctx_ m j)
  /\ ctx_pmem m' = ctx_pmem m.
Proof.
  intros m'. destruct (CopyContextFrom_records this from m) as [Hc Hp].
  fold m' in Hc, Hp.
  pose proof (Hc this) as Ht. destruct (decide (this = this)); [|congruence].
  rewrite Ht. repeat split; try assumption.
  intros j Hj. rewrite Hc. destruct (decide (j = this)); [contradiction|reflexivity].
Qed.

Lemma CopyContextFrom_keeps_rest_witness :
  let m' := run (CopyContextFrom 1 0 varied_machine) varied_machine in
  map_info_ (ctx_ m' 1%nat) = map_info_ (ctx_ varied_machine 1%nat)
  /\ ctx_ m' 0%nat = ctx_ varied_machine 0%nat.
Proof.
  intros m'.
  destruct (CopyContextFrom_keeps_rest varied_machine 1 0) as (H1 & _ & _ & H2 & _).
  split; [exact H1|]. apply H2. lia.
Defined.

(** X8: PersistentProcessInfo::Init writes the validity index before the
    signature.  On memory that holds no signature yet, whenever the power
    fails during Init, a record that is recognised afterwards (IsValid)
    carries the sentinel index kNumOfExecutionContext, for which
    GetValidContext and GetWorkingContext fail; and once the four steps are
    done the record is recognised. *)
Theorem Init_signature_last (m : Machine) (k : nat) :
  signature_pmem m <> kSignature ->
  let m' := crash_after k Init m in
  (IsValid m' = true ->
     valid_ctx_idx_ m' = kNumOfExecutionContext
     /\ GetValidContext m' = None /\ GetWorkingContext m' = None)
  /\ ((4 <= k)%nat -> IsValid m' = true).
Proof.
  intros Hsig m'. unfold m', crash_after, IsValid.
  change (Init m) with [OpStoreValidIdx kNumOfExecutionContext; OpFlushValidIdx;
                        OpStoreSignature kSignature; OpFlushSignature].
  destruct (le_lt_dec 4 k) as [Hk|Hk].
  - rewrite take_ge by (cbn [length]; lia).
    cbn [run foldl exec flush_header_line PowerLoss signature_ signature_pmem
      valid_ctx_idx_ valid_ctx_idx_pmem].
    split; [|intros _; apply Z.eqb_refl]. intros _. repeat split.
  - destruct k as [|[|[|[|k]]]]; [..|lia];
      cbn [take run foldl exec flush_header_line PowerLoss signature_ signature_pmem
        valid_ctx_idx_ valid_ctx_idx_pmem];
      (split; [|lia]).
    + (* nothing persisted yet *)
      intros E. apply Z.eqb_eq in E. contradiction.
    + intros E. apply Z.eqb_eq in E. contradiction.
    + (* the line of the index has been written back: the index is the
         sentinel, whatever signature the line carried *)
      intros _. repeat split.
    + intros _. repeat split.
Qed.

Lemma Init_signature_last_witness :
  IsValid (crash_after 3 Init blank_machine) = false
  /\ IsValid (crash_after 4 Init blank_machine) = true
  /\ GetValidContext (crash_after 4 Init blank_machine) = None.
Proof.
  assert (H : signature_pmem blank_machine <> kSignature) by discriminate.
  split; [reflexivity|]. split.
  - apply (Init_signature_last blank_machine 4 H). lia.
  - apply (Init_signature_last blank_machine 4 H). reflexivity.
Defined.

(** X9: after SetValidContextIndex(idx) the index is idx for the CPU and in
    persistent memory.  For idx 0 or 1 GetValidContext and GetWorkingContext
    then name the two different slots idx and 1 - idx, also after a power
    loss; for any other idx both fail their assertion. *)
Theorem SetValidContextIndex_selects (m : Machine) (idx : Z) :
  let m' := run (SetValidContextIndex idx m) m in
  valid_ctx_idx_ m' = idx /\ valid_ctx_idx_pmem m' = idx
  /\ (idx = 0 \/ idx = 1 ->
      GetValidContext m' = Some (Z.to_nat idx)
      /\ GetWorkingContext m' = Some (Z.to_nat (1 - idx))
      /\ Z.to_nat idx <> Z.to_nat (1 - idx)
      /\ (Z.to_nat idx < 2)%nat /\ (Z.to_nat (1 - idx) < 2)%nat
      /\ GetValidContext (PowerLoss m') = Some (Z.to_nat idx))
  /\ (~ (idx = 0 \/ idx = 1) ->
      GetValidContext m' = None /\ GetWorkingContext m' = None).
Proof.
  intros m'. split; [reflexivity|]. split; [reflexivity|].
  unfold GetValidContext, GetWorkingContext.
  change (valid_ctx_idx_ (PowerLoss m')) with idx.
  change (valid_ctx_idx_ m') with idx.
  split.
  - intros [-> | ->]; repeat split; cbn; lia.
  - intros H. replace (valid_index_ok idx) with false; [split; reflexivity|].
    symmetry. unfold valid_index_ok, kNumOfExecutionContext.
    destruct (Z.leb_spec 0 idx), (Z.ltb_spec idx 2); try reflexivity. lia.
Qed.

Lemma SetValidContextIndex_selects_witness :
  GetValidContext (run (SetValidContextIndex 1 blank_machine) blank_machine) = Some 1%nat
  /\ GetWorkingContext (run (SetValidContextIndex 2 blank_machine) blank_machine) = None.
Proof.
  split.
  - apply (SetValidContextIndex_selects blank_machine 1). right. reflexivity.
  - apply (SetValidContextIndex_selects blank_machine 2). lia.
Defined.

(** ** Virtqueue *)

Lemma idx_ok_range vq idx :
  Virtqueue.idx_ok vq idx = true <-> 0 <= idx < Virtqueue.queue_size_ vq.
Proof.
  unfold Virtqueue.idx_ok. rewrite andb_true_iff, Z.leb_le, Z.ltb_lt. reflexivity.
Qed.

(** X10: a descriptor set is the descriptor read: after SetDescriptor at an
    index of the queue, GetDescriptorBuf returns the buffer set and
    GetDescriptorSize the length (cut to 32 bits), and both are unchanged at
    every other index; at an index outside the queue SetDescriptor and the
    two getters fail their assertion. *)
Theorem Virtqueue_descriptor_round_trip (v2p : Z -> Z)
    (vq : Virtqueue.Virtqueue) (mem : Z -> Z) (idx vaddr len flags next : Z) :
  Virtqueue.queue_size_ vq <= Z.of_nat (length (Virtqueue.buf_ vq)) ->
  (0 <= idx < Virtqueue.queue_size_ vq ->
     exists vq' mem',
       Virtqueue.SetDescriptor v2p idx vaddr len flags next vq mem = Some (vq', mem')
       /\ Virtqueue.GetDescriptorBuf idx vq' = Some vaddr
       /\ Virtqueue.GetDescriptorSize idx vq' mem' = Some (u32 len)
       /\ forall j, j <> idx ->
            Virtqueue.GetDescriptorBuf j vq' = Virtqueue.GetDescriptorBuf j vq
            /\ Virtqueue.GetDescriptorSize j vq' mem' = Virtqueue.GetDescriptorSize j vq mem)
  /\ (~ (0 <= idx < Virtqueue.queue_size_ vq) ->
      Virtqueue.SetDescriptor v2p idx vaddr len flags next vq mem = None
      /\ Virtqueue.GetDescriptorBuf idx vq = None
      /\ Virtqueue.GetDescriptorSize idx vq mem = None).
Proof.
  intros Hbuf. split.
  - intros Hidx. unfold Virtqueue.SetDescriptor.
    rewrite (proj2 (idx_ok_range vq idx) Hidx).
    destruct (Z.ltb_spec idx (Z.of_nat (length (Virtqueue.buf_ vq)))); [|lia].
    cbn [andb]. eexists _, _. split; [reflexivity|].
    unfold Virtqueue.GetDescriptorBuf, Virtqueue.GetDescriptorSize, Virtqueue.idx_ok,
      Virtqueue.descriptor_at, Virtqueue.sizeof_Descriptor.
    cbn [Virtqueue.queue_size_ Virtqueue.base_ Virtqueue.buf_].
    fold (Virtqueue.idx_ok vq idx). rewrite (proj2 (idx_ok_range vq idx) Hidx).
    split; [apply list_lookup_insert_eq; lia|]. split.
    + f_equal. rewrite !load_le_store_le_apart by (cbn; lia).
      rewrite load_le_store_le. reflexivity.
    + intros j Hj. fold (Virtqueue.idx_ok vq j).
      destruct (Virtqueue.idx_ok vq j) eqn:Ej; [|split; reflexivity].
      apply idx_ok_range in Ej. split.
      * apply list_lookup_insert_ne. lia.
      * f_equal. rewrite !load_le_store_le_apart by (cbn; lia). reflexivity.
  - intros Hidx.
    assert (E : Virtqueue.idx_ok vq idx = false).
    { destruct (Virtqueue.idx_ok vq idx) eqn:E; [|reflexivity].
      apply idx_ok_range in E. contradiction. }
    unfold Virtqueue.SetDescriptor, Virtqueue.GetDescriptorBuf, Virtqueue.GetDescriptorSize.
    rewrite E. repeat split.
Qed.

Lemma Virtqueue_descriptor_round_trip_witness :
  (exists vq' mem',
      Virtqueue.SetDescriptor id 3 0x5000 1500 2 0 queue8 (fun _ => 0) = Some (vq', mem')
      /\ Virtqueue.GetDescriptorBuf 3 vq' = Some 0x5000
      /\ Virtqueue.GetDescriptorSize 3 vq' mem' = Some 1500)
  /\ Virtqueue.SetDescriptor id 8 0x5000 1500 2 0 queue8 (fun _ => 0) = None.
Proof.
  destruct (Virtqueue_descriptor_round_trip id queue8 (fun _ => 0) 3 0x5000 1500 2 0
              ltac:(cbn; lia)) as [H _].
  destruct (H ltac:(cbn; lia)) as (vq' & mem' & E & Hb & Hs & _).
  split.
  - exists vq', mem'. repeat split; assumption.
  - apply (Virtqueue_descriptor_round_trip id queue8 (fun _ => 0) 8 0x5000 1500 2 0
             ltac:(cbn; lia)). cbn. lia.
Defined.

#[local] Opaque store_le load_le.

(** X11: the three areas of a virtqueue do not run into one another, for any
    rounding that never rounds down: a store to the available ring (an entry
    or the index) changes no descriptor and nothing of the used ring, and
    SetDescriptor changes nothing of the used ring. *)
Theorem Virtqueue_areas_apart (v2p Ceil : Z -> Z)
    (vq : Virtqueue.Virtqueue) (mem : Z -> Z) :
  (forall x, x <= Ceil x) ->
  0 < Virtqueue.queue_size_ vq ->
  (forall idx desc_idx mem',
      Virtqueue.SetAvailableRingEntry idx desc_idx vq mem = Some mem' ->
      (forall j, Virtqueue.GetDescriptorSize j vq mem' = Virtqueue.GetDescriptorSize j vq mem)
      /\ Virtqueue.GetUsedRingIndex Ceil vq mem' = Virtqueue.GetUsedRingIndex Ceil vq mem
      /\ forall j, Virtqueue.GetUsedRingEntry Ceil j vq mem'
                   = Virtqueue.GetUsedRingEntry Ceil j vq mem)
  /\ (forall idx,
        let mem' := Virtqueue.SetAvailableRingIndex idx vq mem in
        (forall j, Virtqueue.GetDescriptorSize j vq mem' = Virtqueue.GetDescriptorSize j vq mem)
        /\ Virtqueue.GetUsedRingIndex Ceil vq mem' = Virtqueue.GetUsedRingIndex Ceil vq mem
        /\ forall j, Virtqueue.GetUsedRingEntry Ceil j vq mem'
                     = Virtqueue.GetUsedRingEntry Ceil j vq mem)
  /\ (forall idx vaddr len flags next vq' mem',
        Virtqueue.SetDescriptor v2p idx vaddr len flags next vq mem = Some (vq', mem') ->
        Virtqueue.GetUsedRingIndex Ceil vq' mem' = Virtqueue.GetUsedRingIndex Ceil vq mem
        /\ forall j, Virtqueue.GetUsedRingEntry Ceil j vq' mem'
                     = Virtqueue.GetUsedRingEntry Ceil j vq mem).
Proof.
  intros Hceil Hq.
  pose proof (Hceil (Virtqueue.sizeof_Descriptor * Virtqueue.queue_size_ vq
                     + Virtqueue.sizeof_uint16 * (2 * Virtqueue.queue_size_ vq))) as Hused.
  fold (Virtqueue.used_ring_offset Ceil vq) in Hused.
  unfold Virtqueue.sizeof_Descriptor, Virtqueue.sizeof_uint16 in Hused.
  split; [|split].
  - intros idx desc_idx mem' H. unfold Virtqueue.SetAvailableRingEntry in H.
    destruct (Virtqueue.idx_ok vq idx) eqn:Ei; [|discriminate].
    apply idx_ok_range in Ei. injection H as <-.
    unfold Virtqueue.GetDescriptorSize, Virtqueue.GetUsedRingIndex,
      Virtqueue.GetUsedRingEntry, Virtqueue.available_ring, Virtqueue.descriptor_at,
      Virtqueue.sizeof_Descriptor, Virtqueue.sizeof_uint16, Virtqueue.sizeof_UsedRingEntry.
    split; [|split].
    + intros j. destruct (Virtqueue.idx_ok vq j) eqn:Ej; [|reflexivity].
      apply idx_ok_range in Ej. f_equal. apply load_le_store_le_apart. cbn. lia.
    + apply load_le_store_le_apart. cbn. lia.
    + intros j. destruct (Virtqueue.idx_ok vq j) eqn:Ej; [|reflexivity].
      apply idx_ok_range in Ej.
      rewrite !load_le_store_le_apart by (cbn; lia). reflexivity.
  - intros idx mem'. unfold mem', Virtqueue.SetAvailableRingIndex.
    unfold Virtqueue.GetDescriptorSize, Virtqueue.GetUsedRingIndex,
      Virtqueue.GetUsedRingEntry, Virtqueue.descriptor_at,
      Virtqueue.sizeof_Descriptor, Virtqueue.sizeof_uint16, Virtqueue.sizeof_UsedRingEntry.
    split; [|split].
    + intros j. destruct (Virtqueue.idx_ok vq j) eqn:Ej; [|reflexivity].
      apply idx_ok_range in Ej. f_equal. apply load_le_store_le_apart. cbn. lia.
    + apply load_le_store_le_apart. cbn. lia.
    + intros j. destruct (Virtqueue.idx_ok vq j) eqn:Ej; [|reflexivity].
      apply idx_ok_range in Ej.
      rewrite !load_le_store_le_apart by (cbn; lia). reflexivity.
  - intros idx vaddr len flags next vq' mem' H. unfold Virtqueue.SetDescriptor in H.
    destruct (Virtqueue.idx_ok vq idx) eqn:Ei; [|discriminate].
    destruct (idx <? Z.of_nat (length (Virtqueue.buf_ vq))); [|discriminate].
    apply idx_ok_range in Ei. injection H as <- <-.
    unfold Virtqueue.GetUsedRingIndex, Virtqueue.GetUsedRingEntry,
      Virtqueue.used_ring_offset, Virtqueue.idx_ok, Virtqueue.descriptor_at,
      Virtqueue.sizeof_Descriptor, Virtqueue.sizeof_uint16, Virtqueue.sizeof_UsedRingEntry.
    cbn [Virtqueue.queue_size_ Virtqueue.base_].
    fold (Virtqueue.used_ring_offset Ceil vq).
    unfold Virtqueue.used_ring_offset, Virtqueue.sizeof_Descriptor, Virtqueue.sizeof_uint16
      in Hused |- *.
    split.
    + rewrite !load_le_store_le_apart by (cbn; lia). reflexivity.
    + intros j. fold (Virtqueue.idx_ok vq j).
      destruct (Virtqueue.idx_ok vq j) eqn:Ej; [|reflexivity].
      apply idx_ok_range in Ej.
      rewrite !load_le_store_le_apart by (cbn; lia). reflexivity.
Qed.

#[local] Transparent store_le load_le.

Lemma ceil_page_le x : x <= ceil_page x.
Proof.
  unfold ceil_page.
  pose proof (Z.div_mod (x + 4095) 4096 ltac:(lia)).
  pose proof (Z.mod_pos_bound (x + 4095) 4096 ltac:(lia)). lia.
Qed.

Lemma Virtqueue_areas_apart_witness :
  Virtqueue.GetUsedRingIndex ceil_page queue8
    (Virtqueue.SetAvailableRingIndex 5 queue8 (fun x => x mod 256))
  = Virtqueue.GetUsedRingIndex ceil_page queue8 (fun x => x mod 256).
Proof.
  destruct (Virtqueue_areas_apart id ceil_page queue8 (fun x => x mod 256)
              ceil_page_le ltac:(cbn; lia)) as (_ & H & _).
  exact (proj1 (proj2 (H 5))).
Defined.

(** ** Packets *)

Ltac six_bytes l H :=
  destruct l as [|? [|? [|? [|? [|? [|? [|? ?]]]]]]]; try discriminate H.
Ltac four_bytes l H :=
  destruct l as [|? [|? [|? [|? [|? ?]]]]]; try discriminate H.
Ltac two_bytes l H :=
  destruct l as [|? [|? [|? ?]]]; try discriminate H.

(** X12: ARPPacket::SetupRequest determines every byte of the packet:
    whatever the packet held before, the result is the broadcast ARP request
    (Ethernet type 0x0806, hardware type 1, protocol type 0x0800, lengths 6
    and 4, operation 1) from src_mac and src_ip for target_ip, with the
    target hardware address zero. *)
Theorem ARP_SetupRequest_result (target_ip src_ip src_mac : list Z) (p : ARP.ARPPacket) :
  ARP.shaped p ->
  length target_ip = 4%nat -> length src_ip = 4%nat -> length src_mac = 6%nat ->
  ARP.SetupRequest target_ip src_ip src_mac p
  = ARP.mkARPPacket (replicate 6 0xff) src_mac [0x08; 0x06] [0x00; 0x01] [0x08; 0x00]
      6 4 [0x00; 0x01] src_mac src_ip (replicate 6 0x00) target_ip.
Proof.
  destruct p as [d s et ht pt hl pl o se sp te tp].
  intros (H1 & H2 & H3 & H4 & H5 & H6 & H7 & H8 & H9 & H10) Ht Hs Hm.
  cbn [ARP.dst ARP.src ARP.eth_type ARP.hw_type ARP.proto_type ARP.op
       ARP.sender_eth_addr ARP.sender_proto_addr ARP.target_eth_addr
       ARP.target_proto_addr] in *.
  six_bytes d H1. six_bytes s H2. two_bytes et H3. two_bytes ht H4. two_bytes pt H5.
  two_bytes o H6. six_bytes se H7. four_bytes sp H8. six_bytes te H9. four_bytes tp H10.
  four_bytes target_ip Ht. four_bytes src_ip Hs. six_bytes src_mac Hm.
  reflexivity.
Qed.

Lemma ARP_SetupRequest_result_witness :
  ARP.SetupRequest gateway_ip test_ip test_mac stale_arp
  = ARP.mkARPPacket (replicate 6 0xff) test_mac [0x08; 0x06] [0x00; 0x01] [0x08; 0x00]
      6 4 [0x00; 0x01] test_mac test_ip (replicate 6 0x00) gateway_ip.
Proof.
  apply (ARP_SetupRequest_result gateway_ip test_ip test_mac stale_arp);
    [repeat split | reflexivity | reflexivity | reflexivity].
Defined.

(** X13: the checksum CalcAndSetChecksum stores depends on the first two
    bytes of the IPv4 header only: two packets that agree on version_and_ihl
    and dscp_and_ecn get the same checksum, whatever their lengths,
    identification, time to live, protocol and addresses are, and no other
    member of the packet is changed. *)
Theorem CalcAndSetChecksum_reads_first_word (p q : VirtioNet.IPv4UDPPacket) (extra : nat) :
  VirtioNet.version_and_ihl p mod 256 = VirtioNet.version_and_ihl q mod 256 ->
  VirtioNet.dscp_and_ecn p mod 256 = VirtioNet.dscp_and_ecn q mod 256 ->
  exists c,
    VirtioNet.CalcAndSetChecksum (6 + extra) p = Some (VirtioNet.set_checksum c p)
    /\ VirtioNet.CalcAndSetChecksum (6 + extra) q = Some (VirtioNet.set_checksum c q).
Proof.
  intros Hv Hd. exists (u16 (5 * VirtioNet.swap_bytes (VirtioNet.first_word p))). split.
  - apply CalcAndSetChecksum_result.
  - rewrite CalcAndSetChecksum_result. cbn zeta. unfold VirtioNet.first_word.
    rewrite Hv, Hd. reflexivity.
Qed.

Lemma CalcAndSetChecksum_reads_first_word_witness :
  exists c,
    VirtioNet.CalcAndSetChecksum 6 request_packet
    = Some (VirtioNet.set_checksum c request_packet)
    /\ VirtioNet.CalcAndSetChecksum 6 other_packet
       = Some (VirtioNet.set_checksum c other_packet).
Proof.
  apply (CalcAndSetChecksum_reads_first_word request_packet other_packet 0);
    reflexivity.
Defined.

(** X14: IPv4UDPPacket::SetupRequest determines every member of the packet,
    and the checksum it stores is 0x5900 for all addresses: whatever the
    packet held before, the result is the UDP request from src_mac and
    src_ip to next_mac and dst_ip with the fixed header values, destination
    port 80 and data 0x55AA55AA. *)
Theorem IPv4UDP_SetupRequest_result (dst_ip src_ip src_mac next_mac : list Z)
    (p : VirtioNet.IPv4UDPPacket) (extra : nat) :
  IPv4UDP.shaped p ->
  length dst_ip = 4%nat -> length src_ip = 4%nat ->
  length src_mac = 6%nat -> length next_mac = 6%nat ->
  IPv4UDP.SetupRequest (6 + extra) dst_ip src_ip src_mac next_mac p
  = Some (VirtioNet.mkIPv4UDPPacket next_mac src_mac [0x08; 0x00] 0x45 0x00 [0x00; 20]
            0x4242 0x0040 32 17 0x5900 src_ip dst_ip
            [0; 0] [0; 80] [0; 4] [0; 0] 0x55AA55AA).
Proof.
  destruct p as [d s et v ds tl idn fl tt pr ck si di sp dp ul uc ud].
  intros (H1 & H2 & H3 & H4 & H5 & H6 & H7 & H8 & H9 & H10) Hd Hs Hm Hn.
  cbn [VirtioNet.dst VirtioNet.src VirtioNet.eth_type VirtioNet.total_length
       VirtioNet.src_ip VirtioNet.dst_ip VirtioNet.src_port VirtioNet.dst_port
       VirtioNet.udp_length VirtioNet.udp_checksum] in *.
  six_bytes d H1. six_bytes s H2. two_bytes et H3. two_bytes tl H4.
  four_bytes si H5. four_bytes di H6. two_bytes sp H7. two_bytes dp H8.
  two_bytes ul H9. two_bytes uc H10.
  four_bytes dst_ip Hd. four_bytes src_ip Hs. six_bytes src_mac Hm. six_bytes next_mac Hn.
  unfold IPv4UDP.SetupRequest.
  cbn [foldl seq IPv4UDP.mac_loop_body IPv4UDP.ip_loop_body VirtioNet.dst VirtioNet.src
       VirtioNet.src_ip VirtioNet.dst_ip].
  rewrite CalcAndSetChecksum_result. reflexivity.
Qed.

Lemma IPv4UDP_SetupRequest_result_witness :
  IPv4UDP.SetupRequest 6 gateway_ip test_ip test_mac gateway_mac other_packet
  = Some (VirtioNet.mkIPv4UDPPacket gateway_mac test_mac [0x08; 0x00] 0x45 0x00 [0x00; 20]
            0x4242 0x0040 32 17 0x5900 test_ip gateway_ip
            [0; 0] [0; 80] [0; 4] [0; 0] 0x55AA55AA).
Proof.
  apply (IPv4UDP_SetupRequest_result gateway_ip test_ip test_mac gateway_mac
           other_packet 0);
    [repeat split | reflexivity | reflexivity | reflexivity | reflexivity].
Defined.

(** ** CellularAutomaton *)

Lemma foldl_seqZ_invariant {A} (f : A -> Z -> A) (P : Z -> A -> Prop) lo len a :
  0 <= len ->
  P lo a ->
  (forall i a, lo <= i < lo + len -> P i a -> P (i + 1) (f a i)) ->
  P (lo + len) (foldl f a (seqZ lo len)).
Proof.
  intros Hlen H0 Hstep.
  rewrite <- (Z2Nat.id len Hlen) in Hstep |- *.
  unfold seqZ. rewrite Nat2Z.id.
  induction (Z.to_nat len) as [|k IH].
  - cbn. replace (lo + Z.of_nat 0) with lo by lia. exact H0.
  - rewrite seq_S, fmap_app, foldl_app. cbn [fmap list_fmap foldl Nat.add].
    replace (lo + Z.of_nat (S k)) with ((lo + Z.of_nat k) + 1) by lia.
    replace (Z.of_nat k + lo) with (lo + Z.of_nat k) by lia.
    apply Hstep; [lia|]. apply IH. intros i b Hi. apply Hstep. lia.
Qed.

Lemma cell_insert (map : list Z) (k j v : Z) :
  0 <= k < Z.of_nat (length map) -> 0 <= j ->
  CA.cell (<[Z.to_nat k := v]> map) j = if j =? k then v else CA.cell map j.
Proof.
  intros Hk Hj. unfold CA.cell. destruct (Z.eqb_spec j k) as [->|Hne].
  - rewrite list_lookup_insert_eq by lia. reflexivity.
  - rewrite list_lookup_insert_ne by lia. reflexivity.
Qed.

Lemma cell_binary (map : list Z) (j : Z) :
  CA.binary map -> CA.cell map j = 0 \/ CA.cell map j = 1.
Proof.
  intros [_ Hb]. unfold CA.cell. destruct (map !! Z.to_nat j) as [c|] eqn:E.
  - cbn. exact (proj1 (Forall_lookup _ _) Hb _ _ E).
  - left. reflexivity.
Qed.

Lemma mask_y a : Z.land a CA.ysize_mask = a mod 16.
Proof. change CA.ysize_mask with (Z.ones 4). rewrite Z.land_ones by lia. reflexivity. Qed.

Lemma mask_x a : Z.land a CA.xsize_mask = a mod 32.
Proof. change CA.xsize_mask with (Z.ones 5). rewrite Z.land_ones by lia. reflexivity. Qed.

(** The count written out: the nine cells around (y, x) on the torus, less
    the cell itself. *)
Lemma count_at_unfold map y x :
  CA.count_at map y x
  = Z.land (CA.cell map ((y + -1) mod 16 * 32 + (x + -1) mod 32)) 1
    + Z.land (CA.cell map ((y + -1) mod 16 * 32 + (x + 0) mod 32)) 1
    + Z.land (CA.cell map ((y + -1) mod 16 * 32 + (x + 1) mod 32)) 1
    + Z.land (CA.cell map ((y + 0) mod 16 * 32 + (x + -1) mod 32)) 1
    + Z.land (CA.cell map ((y + 0) mod 16 * 32 + (x + 0) mod 32)) 1
    + Z.land (CA.cell map ((y + 0) mod 16 * 32 + (x + 1) mod 32)) 1
    + Z.land (CA.cell map ((y + 1) mod 16 * 32 + (x + -1) mod 32)) 1
    + Z.land (CA.cell map ((y + 1) mod 16 * 32 + (x + 0) mod 32)) 1
    + Z.land (CA.cell map ((y + 1) mod 16 * 32 + (x + 1) mod 32)) 1
    - Z.land (CA.cell map (y * 32 + x)) 1.
Proof.
  unfold CA.count_at. change (seqZ (-1) 3) with [-1; 0; 1].
  cbn [foldl]. rewrite !mask_y, !mask_x. change CA.xsize with 32.
  rewrite Z.add_0_l. reflexivity.
Qed.

Lemma bit0_lor c : Z.land (Z.lor c 2) 1 = Z.land c 1.
Proof.
  rewrite Z.land_lor_distr_l. change (Z.land 2 1) with 0. apply Z.lor_0_r.
Qed.

Lemma mark_here old y x :
  length old = 512%nat -> 0 <= y < 16 -> 0 <= x < 32 ->
  CA.cell (CA.mark old y x) (y * 32 + x) = CA.cell old (y * 32 + x)
  \/ CA.cell (CA.mark old y x) (y * 32 + x) = Z.lor (CA.cell old (y * 32 + x)) 2.
Proof.
  intros Hl Hy Hx. unfold CA.mark. change CA.xsize with 32.
  destruct (_ || _); [|left; reflexivity].
  right. rewrite cell_insert by lia. rewrite Z.eqb_refl. reflexivity.
Qed.

Lemma count_at_same m old y x :
  CA.same_bit0 m old -> 0 <= y < 16 -> 0 <= x < 32 ->
  CA.count_at m y x = CA.count_at old y x.
Proof.
  intros H Hy Hx. rewrite !count_at_unfold.
  rewrite !H by (try apply Z.mod_pos_bound; lia). reflexivity.
Qed.

Lemma marked_same_bit0 old k m :
  length old = 512%nat -> CA.marked_upto old k m -> CA.same_bit0 m old.
Proof.
  intros Hl [_ H] y x Hy Hx. rewrite (H y x Hy Hx).
  destruct (y * 32 + x <? k); [|reflexivity].
  destruct (mark_here old y x Hl Hy Hx) as [->| ->]; [reflexivity|apply bit0_lor].
Qed.

Lemma mark_step old m y x :
  length old = 512%nat -> 0 <= y < 16 -> 0 <= x < 32 ->
  CA.marked_upto old (y * 32 + x) m ->
  CA.marked_upto old (y * 32 + x + 1) (CA.mark m y x).
Proof.
  intros Hl Hy Hx Hm.
  pose proof (marked_same_bit0 old _ m Hl Hm) as Hb.
  destruct Hm as [Hlen Hm].
  assert (Hhere : CA.cell m (y * 32 + x) = CA.cell old (y * 32 + x)).
  { rewrite (Hm y x Hy Hx), Z.ltb_irrefl. reflexivity. }
  assert (Hmark : CA.mark m y x
                  = <[Z.to_nat (y * 32 + x) := CA.cell (CA.mark old y x) (y * 32 + x)]> m).
  { unfold CA.mark. rewrite (count_at_same m old y x Hb Hy Hx).
    change CA.xsize with 32. rewrite Hhere.
    destruct (_ || _).
    - rewrite cell_insert by lia. rewrite Z.eqb_refl. reflexivity.
    - rewrite <- Hhere. symmetry. apply list_insert_id. unfold CA.cell.
      destruct (m !! Z.to_nat (y * 32 + x)) eqn:E; [reflexivity|].
      apply lookup_ge_None in E. lia. }
  rewrite Hmark. split; [rewrite length_insert; exact Hlen|].
  intros y' x' Hy' Hx'. rewrite cell_insert by lia.
  destruct (Z.eqb_spec (y' * 32 + x') (y * 32 + x)) as [E|E].
  - assert (y' = y) as -> by lia. assert (x' = x) as -> by lia.
    destruct (Z.ltb_spec (y * 32 + x) (y * 32 + x + 1)); [reflexivity|lia].
  - rewrite (Hm y' x' Hy' Hx').
    destruct (Z.ltb_spec (y' * 32 + x') (y * 32 + x)),
             (Z.ltb_spec (y' * 32 + x') (y * 32 + x + 1)); try reflexivity; lia.
Qed.

(** The first pair of loops marks every cell from the counts of the map
    it started from. *)
Lemma mark_all_marked old :
  length old = 512%nat -> CA.marked_upto old 512 (CA.mark_all old).
Proof.
  intros Hl. unfold CA.mark_all.
  apply (foldl_seqZ_invariant _ (fun y m => CA.marked_upto old (y * 32) m) 0 16); [lia| |].
  - split; [exact Hl|]. intros y x Hy Hx.
    destruct (Z.ltb_spec (y * 32 + x) (0 * 32)); [lia|reflexivity].
  - intros y m Hy Hm.
    replace ((y + 1) * 32) with (y * 32 + (0 + 32)) by lia.
    apply (foldl_seqZ_invariant _ (fun x m => CA.marked_upto old (y * 32 + x) m) 0 32);
      [lia| |].
    + rewrite Z.add_0_r. exact Hm.
    + intros x m' Hx Hm'. rewrite Z.add_assoc. apply mark_step; [exact Hl|lia|lia|exact Hm'].
Qed.

Lemma draw_step sx marked y x st :
  0 <= y < 16 -> 0 <= x < 32 ->
  CA.drawn_upto sx marked (y * 32 + x) st ->
  CA.drawn_upto sx marked (y * 32 + x + 1) (CA.draw sx st y x).
Proof.
  intros Hy Hx. destruct st as [m drawn]. intros (Hlen & Hm & Hd). cbn [fst snd] in *.
  unfold CA.draw. change CA.xsize with 32.
  assert (Hhere : CA.cell m (y * 32 + x) = CA.cell marked (y * 32 + x)).
  { rewrite (Hm y x Hy Hx), Z.ltb_irrefl. reflexivity. }
  split; [|split]; cbn [fst snd].
  - rewrite length_insert. exact Hlen.
  - intros y' x' Hy' Hx'. rewrite cell_insert by lia.
    destruct (Z.eqb_spec (y' * 32 + x') (y * 32 + x)) as [E|E].
    + rewrite E, Hhere.
      destruct (Z.ltb_spec (y * 32 + x) (y * 32 + x + 1)); [reflexivity|lia].
    + rewrite (Hm y' x' Hy' Hx').
      destruct (Z.ltb_spec (y' * 32 + x') (y * 32 + x)),
               (Z.ltb_spec (y' * 32 + x') (y * 32 + x + 1)); try reflexivity; lia.
  - rewrite Hd, Hhere. rewrite (seqZ_app 0 (y * 32 + x) 1) by lia.
    rewrite fmap_app. f_equal.
    change (seqZ (0 + (y * 32 + x)) 1) with [0 + (y * 32 + x)].
    cbn [fmap list_fmap]. unfold CA.rect_of. change CA.xsize with 32.
    rewrite Z.add_0_l.
    replace ((y * 32 + x) mod 32) with x
      by (rewrite Z.add_comm, Z.mod_add, Z.mod_small by lia; reflexivity).
    replace ((y * 32 + x) / 32) with y
      by (rewrite Z.add_comm, Z.div_add, Z.div_small by lia; lia).
    reflexivity.
Qed.

Lemma draw_all_drawn sx marked :
  length marked = 512%nat -> CA.drawn_upto sx marked 512 (CA.draw_all sx marked).
Proof.
  intros Hl. unfold CA.draw_all.
  apply (foldl_seqZ_invariant _ (fun y st => CA.drawn_upto sx marked (y * 32) st) 0 16);
    [lia| |].
  - split; [exact Hl|]. split; [|reflexivity]. intros y x Hy Hx. cbn [fst].
    destruct (Z.ltb_spec (y * 32 + x) (0 * 32)); [lia|reflexivity].
  - intros y st Hy Hst.
    replace ((y + 1) * 32) with (y * 32 + (0 + 32)) by lia.
    apply (foldl_seqZ_invariant _ (fun x st => CA.drawn_upto sx marked (y * 32 + x) st) 0 32);
      [lia| |].
    + rewrite Z.add_0_r. exact Hst.
    + intros x st' Hx Hst'. rewrite Z.add_assoc. apply draw_step; [lia|lia|exact Hst'].
Qed.

Lemma land_cell old i : CA.binary old -> Z.land (CA.cell old i) 1 = CA.cell old i.
Proof. intros Hb. destruct (cell_binary old i Hb) as [-> | ->]; reflexivity. Qed.

(** The living cells among the cells at the offsets ds from (y, x). *)
Lemma living_sum old y x (ds : list (Z * Z)) :
  CA.binary old ->
  Z.of_nat (length (filter (fun d => CA.alive old (y + fst d) (x + snd d) = true) ds))
  = foldr (fun d acc => CA.cell old ((y + fst d) mod 16 * 32 + (x + snd d) mod 32) + acc)
      0 ds.
Proof.
  intros Hb. induction ds as [|d ds IH]; [reflexivity|].
  rewrite filter_cons. cbn [foldr]. rewrite <- IH.
  destruct (decide _) as [H|H]; unfold CA.alive in H;
    change CA.ysize with 16 in H; change CA.xsize with 32 in H;
    destruct (cell_binary old ((y + fst d) mod 16 * 32 + (x + snd d) mod 32) Hb) as [E|E];
    rewrite E in H |- *; cbn in H; try discriminate;
    try (exfalso; apply H; reflexivity); cbn [length]; lia.
Qed.

(** What the first pass leaves in a cell of a map of living and dead cells:
    bit 1 is the cell of the next generation, and the colour of the second
    pass is that of the cell before the step. *)
Lemma mark_life old y x :
  CA.binary old -> 0 <= y < 16 -> 0 <= x < 32 ->
  CA.cell (CA.mark old y x) (y * 32 + x) ≫ 1 = CA.life_rule old y x
  /\ CA.colour (CA.cell (CA.mark old y x) (y * 32 + x)) = CA.shown_colour old y x.
Proof.
  intros Hb Hy Hx.
  assert (Hmark : CA.cell (CA.mark old y x) (y * 32 + x)
                  = if (negb (CA.cell old (y * 32 + x) =? 0)
                        && ((CA.count_at old y x =? 2) || (CA.count_at old y x =? 3)))
                       || ((CA.cell old (y * 32 + x) =? 0) && (CA.count_at old y x =? 3))
                    then Z.lor (CA.cell old (y * 32 + x)) 2
                    else CA.cell old (y * 32 + x)).
  { unfold CA.mark. change CA.xsize with 32. cbn zeta. destruct (_ || _); [|reflexivity].
    destruct Hb as [Hl _]. change (Z.to_nat (CA.ysize * CA.xsize)) with 512%nat in Hl.
    rewrite cell_insert by lia. rewrite Z.eqb_refl. reflexivity. }
  assert (Hcount : CA.count_at old y x = Z.of_nat (CA.neighbours old y x)).
  { rewrite count_at_unfold. unfold CA.neighbours. rewrite (living_sum old y x _ Hb).
    cbn [foldr fst snd]. rewrite !(land_cell old _ Hb).
    rewrite !Z.add_0_r, !(Z.mod_small y 16), !(Z.mod_small x 32) by lia. lia. }
  rewrite Hmark, Hcount. unfold CA.shown_colour, CA.life_rule.
  assert (Halive : CA.alive old y x = negb (CA.cell old (y * 32 + x) =? 0)).
  { unfold CA.alive. change CA.ysize with 16. change CA.xsize with 32.
    rewrite (Z.mod_small y 16), (Z.mod_small x 32) by lia. reflexivity. }
  rewrite Halive. generalize (CA.neighbours old y x). intros n.
  destruct (cell_binary old (y * 32 + x) Hb) as [-> | ->];
    destruct (Nat.eqb_spec n 2) as [-> |H2]; try (split; reflexivity);
    destruct (Nat.eqb_spec n 3) as [-> |H3]; try (split; reflexivity);
    destruct (Z.eqb_spec (Z.of_nat n) 2); try lia;
    destruct (Z.eqb_spec (Z.of_nat n) 3); try lia; split; reflexivity.
Qed.

(** X15: one pass of the loop of CellularAutomaton is one step of the Game
    of Life on the torus of 16 rows and 32 columns: from a map of living and
    dead cells it leaves such a map again, in which a cell lives exactly
    when it lived with two or three living neighbours or was dead with three;
    marking the cells in place does not disturb the counts of the cells
    handled later. *)
Theorem CellularAutomaton_generation_is_life (screen_xsize : Z) (map : list Z) :
  CA.binary map ->
  CA.binary (fst (CA.generation screen_xsize map))
  /\ forall y x, 0 <= y < 16 -> 0 <= x < 32 ->
       CA.cell (fst (CA.generation screen_xsize map)) (y * 32 + x)
       = CA.life_rule map y x.
Proof.
  intros Hb. pose proof Hb as [Hl _].
  change (Z.to_nat (CA.ysize * CA.xsize)) with 512%nat in Hl.
  pose proof (mark_all_marked map Hl) as [Hl1 Hm1].
  pose proof (draw_all_drawn screen_xsize (CA.mark_all map) Hl1) as (Hl2 & Hm2 & _).
  unfold CA.generation.
  assert (Hcells : forall y x, 0 <= y < 16 -> 0 <= x < 32 ->
            CA.cell (fst (CA.draw_all screen_xsize (CA.mark_all map))) (y * 32 + x)
            = CA.life_rule map y x).
  { intros y x Hy Hx. rewrite (Hm2 y x Hy Hx), (Hm1 y x Hy Hx).
    destruct (Z.ltb_spec (y * 32 + x) 512); [|lia].
    apply (mark_life map y x Hb Hy Hx). }
  split; [|exact Hcells]. split; [exact Hl2|].
  apply Forall_lookup. intros i c Hi.
  pose proof (lookup_lt_Some _ _ _ Hi) as Hlt. rewrite Hl2 in Hlt.
  assert (Hc : c = CA.cell (fst (CA.draw_all screen_xsize (CA.mark_all map)))
                     (Z.of_nat i / 32 * 32 + Z.of_nat i mod 32)).
  { unfold CA.cell.
    replace (Z.of_nat i / 32 * 32 + Z.of_nat i mod 32) with (Z.of_nat i)
      by (rewrite (Z.div_mod (Z.of_nat i) 32) at 1; lia).
    rewrite Nat2Z.id, Hi. reflexivity. }
  rewrite Hc, Hcells.
  - unfold CA.life_rule. repeat destruct (_ : bool); auto.
  - split; [apply Z.div_pos; lia|apply Z.div_lt_upper_bound; lia].
  - apply Z.mod_pos_bound. lia.
Qed.

Lemma blinker_binary : CA.binary blinker.
Proof. split; [reflexivity|]. apply (bool_decide_unpack _). vm_compute. exact I. Qed.

Lemma CellularAutomaton_generation_is_life_witness :
  CA.cell (fst (CA.generation 1024 blinker)) (7 * 32 + 16) = CA.life_rule blinker 7 16.
Proof.
  apply (CellularAutomaton_generation_is_life 1024 blinker blinker_binary); lia.
Defined.

(** X16: the picture one pass draws is that of the map before the step: one
    square of 8 by 8 pixels for each cell, row by row, black for a cell that
    was dead (also when it is born in this step), 0x00cc00 for a living cell
    that dies and 0xff0088 * 2 + 0x00cc00 for one that survives. *)
Theorem CellularAutomaton_draws_previous_generation (screen_xsize : Z) (map : list Z) :
  CA.binary map ->
  snd (CA.generation screen_xsize map)
  = CA.rect_of screen_xsize (fun i => CA.shown_colour map (i / 32) (i mod 32))
      <$> seqZ 0 512.
Proof.
  intros Hb. pose proof Hb as [Hl _].
  change (Z.to_nat (CA.ysize * CA.xsize)) with 512%nat in Hl.
  pose proof (mark_all_marked map Hl) as [Hl1 Hm1].
  pose proof (draw_all_drawn screen_xsize (CA.mark_all map) Hl1) as (_ & _ & Hd).
  unfold CA.generation. rewrite Hd.
  apply Forall_fmap_ext_1, Forall_forall. intros i Hi. apply elem_of_seqZ in Hi.
  unfold CA.rect_of. f_equal.
  assert (Hy : 0 <= i / 32 < 16)
    by (split; [apply Z.div_pos; lia|apply Z.div_lt_upper_bound; lia]).
  assert (Hx : 0 <= i mod 32 < 32) by (apply Z.mod_pos_bound; lia).
  replace (CA.cell (CA.mark_all map) i)
    with (CA.cell (CA.mark_all map) (i / 32 * 32 + i mod 32))
    by (f_equal; rewrite (Z.div_mod i 32) at 3; lia).
  rewrite (Hm1 _ _ Hy Hx).
  destruct (Z.ltb_spec (i / 32 * 32 + i mod 32) 512); [|lia].
  apply (mark_life map _ _ Hb Hy Hx).
Qed.

Lemma CellularAutomaton_draws_previous_generation_witness :
  snd (CA.generation 1024 blinker)
  = CA.rect_of 1024 (fun i => CA.shown_colour blinker (i / 32) (i mod 32)) <$> seqZ 0 512.
Proof.
  apply (CellularAutomaton_draws_previous_generation 1024 blinker blinker_binary).
Defined.

(** ** drawPoly *)

Lemma at_row_insert (buf : list Z) (k j v : Z) :
  0 <= k < Z.of_nat (length buf) -> 0 <= j ->
  DrawPoly.at_row (<[Z.to_nat k := v]> buf) j = if j =? k then v else DrawPoly.at_row buf j.
Proof.
  intros Hk Hj. unfold DrawPoly.at_row. destruct (Z.eqb_spec j k) as [->|Hne].
  - rewrite list_lookup_insert_eq by lia. reflexivity.
  - rewrite list_lookup_insert_ne by lia. reflexivity.
Qed.

(** The loop over the rows of an edge, as long as x stays an int. *)
Lemma scan_rows buf y0 y1 x dx :
  0 <= y0 <= y1 -> y1 < Z.of_nat (length buf) ->
  (forall n, 0 <= n <= y1 - y0 + 1 -> - 2 ^ 31 <= x + n * dx < 2 ^ 31) ->
  exists buf', DrawPoly.scan buf y0 y1 x dx = Some buf'
    /\ length buf' = length buf
    /\ forall j, 0 <= j ->
         DrawPoly.at_row buf' j
         = if (y0 <=? j) && (j <=? y1) then (x + (j - y0) * dx) ≫ 16
           else DrawPoly.at_row buf j.
Proof.
  intros Hy Hlen Hx. unfold DrawPoly.scan.
  assert (H : DrawPoly.scanned buf y0 x dx (y0 + (y1 - y0 + 1))
                (foldl (DrawPoly.scan_step dx) (Some (buf, x)) (seqZ y0 (y1 - y0 + 1)))).
  { apply (foldl_seqZ_invariant _ (DrawPoly.scanned buf y0 x dx)); [lia| |].
    - exists buf. split; [f_equal; f_equal; lia|]. split; [reflexivity|].
      intros j Hj. destruct (Z.leb_spec y0 j), (Z.ltb_spec j y0); try reflexivity; lia.
    - intros y st Hyr (buf' & -> & Hl & Hb). cbn [DrawPoly.scan_step].
      rewrite Hl.
      destruct (Z.leb_spec 0 y); [|lia]. destruct (Z.ltb_spec y (Z.of_nat (length buf))); [|lia].
      cbn [andb]. eexists. split; [|split].
      + f_equal. f_equal. rewrite i32_small.
        * lia.
        * replace (x + (y - y0) * dx + dx) with (x + (y - y0 + 1) * dx) by lia.
          apply Hx. lia.
      + rewrite length_insert. exact Hl.
      + intros j Hj. rewrite at_row_insert by lia. rewrite (Hb j Hj).
        destruct (Z.eqb_spec j y) as [->|Hne].
        * destruct (Z.leb_spec y0 y), (Z.ltb_spec y (y + 1)); try lia. reflexivity.
        * destruct (Z.leb_spec y0 j), (Z.ltb_spec j y), (Z.ltb_spec j (y + 1));
            try reflexivity; lia. }
  destruct H as (buf' & -> & Hl & Hb). exists buf'. split; [reflexivity|].
  split; [exact Hl|]. intros j Hj. rewrite (Hb j Hj).
  destruct (Z.leb_spec y0 j), (Z.ltb_spec j (y0 + (y1 - y0 + 1))), (Z.leb_spec j y1);
    try reflexivity; lia.
Qed.

(** The slope the code computes: the quotient, cut towards zero, of the
    difference in x in 16.16 fixed point by the number of rows. *)
Lemma slope_bounds (delta rows : Z) :
  0 < rows ->
  let D := Z.quot (delta * 65536) rows in
  (0 <= delta -> 0 <= D /\ delta * 65536 - rows < rows * D <= delta * 65536)
  /\ (delta < 0 -> rows < 65536 ->
      D < 0 /\ delta * 65536 <= rows * D < delta * 65536 + rows).
Proof.
  intros Hr D. split.
  - intros Hd. unfold D. rewrite Z.quot_div_nonneg by lia.
    pose proof (Z.mul_div_le (delta * 65536) rows Hr).
    pose proof (Z.mul_succ_div_gt (delta * 65536) rows Hr).
    split; [apply Z.div_pos; lia|lia].
  - intros Hd Hrows. unfold D.
    replace (delta * 65536) with (- (- delta * 65536)) by lia.
    rewrite Z.quot_opp_l by lia. rewrite Z.quot_div_nonneg by lia.
    pose proof (Z.mul_div_le (- delta * 65536) rows Hr).
    pose proof (Z.mul_succ_div_gt (- delta * 65536) rows Hr).
    assert (1 <= - delta * 65536 / rows) by (apply Z.div_le_lower_bound; lia).
    lia.
Qed.

Lemma shiftr16_between a q : q * 65536 <= a < (q + 1) * 65536 -> a ≫ 16 = q.
Proof.
  intros H. rewrite Z.shiftr_div_pow2 by lia. change (2 ^ 16) with 65536.
  symmetry. apply Z.div_unique with (a - q * 65536); lia.
Qed.

Lemma shiftr16_bounds a lo hi :
  lo * 65536 <= a < (hi + 1) * 65536 -> lo <= a ≫ 16 <= hi.
Proof.
  intros H. rewrite Z.shiftr_div_pow2 by lia. change (2 ^ 16) with 65536. split.
  - apply Z.div_le_lower_bound; lia.
  - apply Z.lt_succ_r. apply Z.div_lt_upper_bound; lia.
Qed.

(** The rows of an edge from (xl, y0) up to (xu, y1), y0 < y1, as the scan
    leaves them. *)
Lemma edge_line (buf : list Z) (xl xu y0 y1 : Z) :
  0 <= y0 < y1 -> y1 < Z.of_nat (length buf) -> y1 - y0 < 32768 ->
  - 4096 <= xl < 4096 -> - 4096 <= xu < 4096 ->
  let D := Z.quot ((xu - xl) * 65536) (y1 - y0) in
  let X := if 0 <=? D then xl * 65536 + 32768 else xl * 65536 - 32768 in
  let shift := if xu <? xl then 1 else 0 in
  exists buf', DrawPoly.scan buf y0 y1 X D = Some buf'
    /\ length buf' = length buf
    /\ DrawPoly.at_row buf' y0 = xl - shift
    /\ DrawPoly.at_row buf' y1 = xu - shift
    /\ (forall y, y0 <= y <= y1 ->
          Z.min xl xu - shift <= DrawPoly.at_row buf' y <= Z.max xl xu - shift)
    /\ (forall y, 0 <= y -> ~ (y0 <= y <= y1) ->
          DrawPoly.at_row buf' y = DrawPoly.at_row buf y).
Proof.
  intros Hy Hlen Hrows Hxl Hxu D X shift.
  destruct (slope_bounds (xu - xl) (y1 - y0) ltac:(lia)) as [Hup Hdown].
  fold D in Hup, Hdown.
  assert (Hcase : (xl <= xu /\ 0 <= D /\ X = xl * 65536 + 32768 /\ shift = 0
                   /\ (xu - xl) * 65536 - (y1 - y0) < (y1 - y0) * D <= (xu - xl) * 65536)
                  \/ (xu < xl /\ D < 0 /\ X = xl * 65536 - 32768 /\ shift = 1
                      /\ (xu - xl) * 65536 <= (y1 - y0) * D
                         < (xu - xl) * 65536 + (y1 - y0))).
  { unfold X, shift. destruct (Z.ltb_spec xu xl).
    - right. destruct (Hdown ltac:(lia) ltac:(lia)) as [HD Hb].
      destruct (Z.leb_spec 0 D); [lia|]. repeat split; lia.
    - left. destruct (Hup ltac:(lia)) as [HD Hb].
      destruct (Z.leb_spec 0 D); [|lia]. repeat split; lia. }
  clearbody D X shift. clear Hup Hdown.
  assert (Hmono : forall n, 0 <= n <= y1 - y0 ->
            (0 <= D -> 0 <= n * D <= (y1 - y0) * D)
            /\ (D < 0 -> (y1 - y0) * D <= n * D <= 0)).
  { intros n Hn. split; intros HD; nia. }
  destruct (scan_rows buf y0 y1 X D ltac:(lia) Hlen) as (buf' & Hscan & Hl & Hb).
  { intros n Hn.
    assert (Hn' : n = y1 - y0 + 1 \/ 0 <= n <= y1 - y0) by lia.
    destruct Hn' as [-> |Hn'].
    - pose proof (Hmono (y1 - y0) ltac:(lia)) as [Hm1 Hm2].
      destruct Hcase as [(? & ? & -> & _ & ?)|(? & ? & -> & _ & ?)]; nia.
    - pose proof (Hmono n Hn') as [Hm1 Hm2].
      destruct Hcase as [(? & ? & -> & _ & ?)|(? & ? & -> & _ & ?)];
        [specialize (Hm1 ltac:(lia))|specialize (Hm2 ltac:(lia))]; lia. }
  exists buf'. split; [exact Hscan|]. split; [exact Hl|].
  assert (Hrow : forall y, y0 <= y <= y1 ->
            DrawPoly.at_row buf' y = (X + (y - y0) * D) ≫ 16).
  { intros y Hyy. rewrite Hb by lia.
    destruct (Z.leb_spec y0 y), (Z.leb_spec y y1); try lia. reflexivity. }
  split; [|split; [|split]].
  - rewrite Hrow by lia. apply shiftr16_between.
    destruct Hcase as [(? & ? & -> & -> & ?)|(? & ? & -> & -> & ?)]; lia.
  - rewrite Hrow by lia. apply shiftr16_between.
    destruct Hcase as [(? & ? & -> & -> & ?)|(? & ? & -> & -> & ?)]; lia.
  - intros y Hyy. rewrite Hrow by lia. apply shiftr16_bounds.
    pose proof (Hmono (y - y0) ltac:(lia)) as [Hm1 Hm2].
    destruct Hcase as [(? & ? & -> & -> & ?)|(? & ? & -> & -> & ?)];
      [specialize (Hm1 ltac:(lia))|specialize (Hm2 ltac:(lia))]; lia.
  - intros y Hy0 Hout. rewrite Hb by lia.
    destruct (Z.leb_spec y0 y), (Z.leb_spec y y1); try reflexivity; lia.
Qed.

(** The 16.16 fixed-point start value and slope, as the code computes them
    in int arithmetic. *)
Lemma fixed_point_setup (xl xu rows : Z) :
  0 < rows < 32768 -> - 4096 <= xl < 4096 -> - 4096 <= xu < 4096 ->
  let D := Z.quot ((xu - xl) * 65536) rows in
  i32 (Z.quot (i32 (i32 (xu - xl) ≪ 16)) (i32 rows)) = D
  /\ (if 0 <=? D then i32 (i32 (xl ≪ 16) + 0x8000) else i32 (i32 (xl ≪ 16) - 0x8000))
     = (if 0 <=? D then xl * 65536 + 32768 else xl * 65536 - 32768).
Proof.
  intros Hr Hxl Hxu D.
  rewrite (i32_small (xu - xl)) by lia.
  rewrite !Z.shiftl_mul_pow2 by lia. change (2 ^ 16) with 65536.
  rewrite (i32_small ((xu - xl) * 65536)) by lia.
  rewrite (i32_small rows) by lia.
  rewrite (i32_small (xl * 65536)) by lia.
  rewrite (i32_small (xl * 65536 + 32768)), (i32_small (xl * 65536 - 32768)) by lia.
  split; [|reflexivity]. fold D. apply i32_small.
  destruct (slope_bounds (xu - xl) rows ltac:(lia)) as [Hup Hdown]. fold D in Hup, Hdown.
  destruct (Z.lt_ge_cases (xu - xl) 0) as [Hneg|Hpos].
  - destruct (Hdown Hneg ltac:(lia)). nia.
  - destruct (Hup Hpos). nia.
Qed.

(** X17: the scan of one edge of a face in drawPoly.  For an edge between
    two corners on different rows of the 160-row buffers, with x within
    [-4096, 4096), the buffer of the edge's direction gets one x for each row
    from the upper corner to the lower one and keeps its other rows; the
    other buffer is kept.  The x stored runs from the x of one corner to the
    x of the other when the edge leans to the right going down, and one
    pixel to the left of both when it leans to the left. *)
Theorem drawPoly_edge_scan (p0x p0y p1x p1y : Z) (buf0 buf1 : list Z) :
  length buf0 = 160%nat -> length buf1 = 160%nat ->
  0 <= p0y < 160 -> 0 <= p1y < 160 -> p0y <> p1y ->
  - 4096 <= p0x < 4096 -> - 4096 <= p1x < 4096 ->
  let down := p0y <? p1y in
  let xl := if down then p0x else p1x in
  let xu := if down then p1x else p0x in
  let y0 := Z.min p0y p1y in
  let y1 := Z.max p0y p1y in
  let shift := if xu <? xl then 1 else 0 in
  exists buf',
    DrawPoly.edge p0x p0y p1x p1y (buf0, buf1)
    = Some (if down then (buf', buf1) else (buf0, buf'))
    /\ DrawPoly.at_row buf' y0 = xl - shift
    /\ DrawPoly.at_row buf' y1 = xu - shift
    /\ (forall y, y0 <= y <= y1 ->
          Z.min p0x p1x - shift <= DrawPoly.at_row buf' y <= Z.max p0x p1x - shift)
    /\ (forall y, 0 <= y -> ~ (y0 <= y <= y1) ->
          DrawPoly.at_row buf' y = DrawPoly.at_row (if down then buf0 else buf1) y).
Proof.
  intros Hl0 Hl1 Hy0 Hy1 Hne Hx0 Hx1 down xl xu y0 y1 shift.
  unfold DrawPoly.edge. destruct (Z.eqb_spec p0y p1y) as [|_]; [contradiction|].
  subst down xl xu y0 y1 shift. cbn zeta.
  destruct (Z.ltb_spec p0y p1y) as [Hlt|Hge]; cbn [fst snd].
  - rewrite Z.min_l, Z.max_r by lia.
    destruct (fixed_point_setup p0x p1x (p1y - p0y) ltac:(lia) Hx0 Hx1) as [-> ->].
    destruct (edge_line buf0 p0x p1x p0y p1y ltac:(lia) ltac:(lia) ltac:(lia) Hx0 Hx1)
      as (buf' & -> & _ & Ha & Hb & Hc & Hd).
    exists buf'. split; [reflexivity|]. repeat split; try assumption; apply Hc; assumption.
  - rewrite Z.min_r, Z.max_l by lia.
    destruct (fixed_point_setup p1x p0x (p0y - p1y) ltac:(lia) Hx1 Hx0) as [-> ->].
    destruct (edge_line buf1 p1x p0x p1y p0y ltac:(lia) ltac:(lia) ltac:(lia) Hx1 Hx0)
      as (buf' & -> & _ & Ha & Hb & Hc & Hd).
    exists buf'. split; [reflexivity|]. rewrite (Z.min_comm p0x), (Z.max_comm p0x).
    repeat split; try assumption; apply Hc; assumption.
Qed.

Lemma drawPoly_edge_scan_witness :
  exists buf',
    DrawPoly.edge 100 20 60 40 (scan_buffer, scan_buffer) = Some (buf', scan_buffer)
    /\ DrawPoly.at_row buf' 20 = 99 /\ DrawPoly.at_row buf' 40 = 59.
Proof.
  destruct (drawPoly_edge_scan 100 20 60 40 scan_buffer scan_buffer)
    as (buf' & H & Ha & Hb & _); try reflexivity; try lia.
  exists buf'. repeat split; assumption.
Defined.
